(** * Verification of the KBFS coordination layer

    A shallow embedding of three Go source files,

    - [libkbfs/node_cache.go]        (module [NodeCache]),
    - the block retrieval queue      (module [RetrievalQueue]),
    - [go/service/log_register.go]   (module [LogRegister]),

    together with the properties their specification states about them.

    Conventions.  Go pointers to heap objects are addresses into an explicit
    object store, so that aliasing is visible; operations that run under a
    lock are atomic state transformers; Go's fixed-width integers are
    integers with the wrap-around written out. *)

From Stdlib Require Import ZArith Lia Sorted.
From stdpp Require Import base gmap list strings.

Local Open Scope Z_scope.

(** ** Machine integers *)

(** Go's [int] on the 64-bit targets the client is built for: two's
    complement, silent wrap-around. *)
Definition wrap_int (z : Z) : Z := (z + 2 ^ 63) mod 2 ^ 64 - 2 ^ 63.

(** Go's [uint64]. *)
Definition wrap_uint64 (z : Z) : Z := z mod 2 ^ 64.

(** Modelled from the spec: the declarations of [BlockPointer], [TlfID] and
    [BranchName] are not among the sources.  The spec calls a block pointer "an
    opaque, comparable content-address"; it is a natural number here and the
    zero value [BlockPointer{}] is [0].  The tree identity is likewise an
    opaque number, the branch name a string. *)
Abbreviation BlockPointer := nat (only parsing).
Abbreviation TlfID := nat (only parsing).
Abbreviation BranchName := string (only parsing).

Definition zeroBlockPointer : BlockPointer := 0%nat.

(* ===================================================================== *)
(** * The node cache ([libkbfs/node_cache.go]) *)
(* ===================================================================== *)

Module NodeCache.

(** Addresses of [nodeStandard] objects. *)
Abbreviation addr := nat (only parsing).

(** A value of the interface type [Node]: the nil interface, a non-nil
    [*nodeStandard], or some other implementation of the interface.  (A nil
    [*nodeStandard] wrapped in the interface is not represented: every
    operation that receives one dereferences it.) *)
Inductive Node : Type :=
  | NodeNil
  | NodeStd (a : addr)
  | NodeOther (k : nat).

#[global] Instance Node_eq_dec : EqDecision Node.
Proof. solve_decision. Defined.

Record pathNode : Type := PathNode {
  pn_BlockPointer : BlockPointer;
  pn_Name : string
}.

Record path : Type := Path {
  p_tlf : TlfID;
  p_branch : BranchName;
  p_path : list pathNode
}.

(** The zero value of [path] (a named result before any assignment). *)
Definition zero_path : path := Path 0%nat EmptyString [].

(** Modelled from the spec: the declaration of [nodeStandard] is not among
    the sources; these are the fields the cache reads and writes ("pointer,
    name, parent reference, and - once unlinked - a frozen historical
    path").  The [pathNode] object a node points to is owned by that node
    alone and is stored inline. *)
Record nodeStandard : Type := NodeStandard {
  ns_pathNode : pathNode;
  ns_parent : Node;
  ns_cachedPath : path
}.

Record nodeCacheEntry : Type := NodeCacheEntry {
  node : addr;
  refCount : Z
}.

(** [nodeCacheStandard] together with the store [mem] of the [nodeStandard]
    objects its entries and handles point to. *)
Record nodeCacheStandard : Type := NodeCacheStandard {
  id : TlfID;
  branch : BranchName;
  nodes : gmap nat nodeCacheEntry;
  mem : list nodeStandard
}.

Inductive error : Type :=
  | ParentNodeNotFoundError (ptr : BlockPointer).

#[global] Instance error_eq_dec : EqDecision error.
Proof. solve_decision. Defined.

Definition set_nodes (ncs : nodeCacheStandard) (m : gmap nat nodeCacheEntry)
  : nodeCacheStandard :=
  NodeCacheStandard (id ncs) (branch ncs) m (mem ncs).

Definition set_mem (ncs : nodeCacheStandard) (m : list nodeStandard)
  : nodeCacheStandard :=
  NodeCacheStandard (id ncs) (branch ncs) (nodes ncs) m.

Definition set_parent (p : Node) (ns : nodeStandard) : nodeStandard :=
  NodeStandard (ns_pathNode ns) p (ns_cachedPath ns).

Definition set_Name (n : string) (ns : nodeStandard) : nodeStandard :=
  NodeStandard (PathNode (pn_BlockPointer (ns_pathNode ns)) n)
               (ns_parent ns) (ns_cachedPath ns).

Definition set_BlockPointer (p : BlockPointer) (ns : nodeStandard)
  : nodeStandard :=
  NodeStandard (PathNode p (pn_Name (ns_pathNode ns)))
               (ns_parent ns) (ns_cachedPath ns).

Definition set_cachedPath (c : path) (ns : nodeStandard) : nodeStandard :=
  NodeStandard (ns_pathNode ns) (ns_parent ns) c.

Definition newNodeCacheStandard (i : TlfID) (b : BranchName)
  : nodeCacheStandard :=
  NodeCacheStandard i b ∅ [].

(** The type assertion of a handle to a pointer to [nodeStandard]: the
    address and the object it designates.  An address outside the store
    designates no object; no Go value is like that, and the assertion fails
    on it as it does on a foreign implementation. *)
Definition as_nodeStandard (ncs : nodeCacheStandard) (n : Node)
  : option (addr * nodeStandard) :=
  match n with
  | NodeStd a => (fun ns => (a, ns)) <$> (mem ncs !! a)
  | _ => None
  end.

Definition forgetLocked (ncs : nodeCacheStandard) (n : Node)
  : nodeCacheStandard :=
  match as_nodeStandard ncs n with
  | None => ncs
  | Some (_, ns) =>
    let ptr := pn_BlockPointer (ns_pathNode ns) in
    match nodes ncs !! ptr with
    | None => ncs
    | Some entry =>
      if decide (NodeStd (node entry) = n) then
        let rc := wrap_int (refCount entry - 1) in
        if decide (rc <= 0) then set_nodes ncs (delete ptr (nodes ncs))
        else set_nodes ncs
               (<[ptr := NodeCacheEntry (node entry) rc]> (nodes ncs))
      else ncs
    end
  end.

Definition forget (ncs : nodeCacheStandard) (n : Node) : nodeCacheStandard :=
  forgetLocked ncs n.

Definition newChildForParentLocked (ncs : nodeCacheStandard) (parent : Node)
  : option error * nodeCacheStandard :=
  match as_nodeStandard ncs parent with
  | None => (Some (ParentNodeNotFoundError zeroBlockPointer), ncs)
  | Some (a, pNodeStandard) =>
    let ptr := pn_BlockPointer (ns_pathNode pNodeStandard) in
    match nodes ncs !! ptr with
    | None => (Some (ParentNodeNotFoundError ptr), ncs)
    | Some pEntry =>
      (* the source compares the handle with its own type assertion *)
      if decide (parent = NodeStd a) then
        (None,
         set_nodes ncs
           (<[ptr := NodeCacheEntry (node pEntry)
                       (wrap_int (refCount pEntry + 1))]> (nodes ncs)))
      else (Some (ParentNodeNotFoundError ptr), ncs)
    end
  end.

(** Modelled from the spec: the constructor [newNodeStandard] is not among
    the sources; it "constructs a new node" with the given pointer, name and
    parent and no frozen path. *)
Definition newNodeStandard (ptr : BlockPointer) (name : string) (parent : Node)
  : nodeStandard :=
  NodeStandard (PathNode ptr name) parent zero_path.

(** The part of [GetOrCreate] that runs under the shared lock.  [None] when
    the pointer has no entry and the exclusive section has to run. *)
Definition GetOrCreate_fast (ncs : nodeCacheStandard) (ptr : BlockPointer)
  : option (Node * nodeCacheStandard) :=
  match nodes ncs !! ptr with
  | Some entry =>
    Some (NodeStd (node entry),
          set_nodes ncs
            (<[ptr := NodeCacheEntry (node entry)
                        (wrap_int (refCount entry + 1))]> (nodes ncs)))
  | None => None
  end.

(** The part of [GetOrCreate] that runs under the exclusive lock. *)
Definition GetOrCreate_slow (ncs : nodeCacheStandard) (ptr : BlockPointer)
    (name : string) (parent : Node)
  : (Node * option error) * nodeCacheStandard :=
  match nodes ncs !! ptr with
  | Some entry =>
    ((NodeStd (node entry), None),
     set_nodes ncs
       (<[ptr := NodeCacheEntry (node entry)
                   (wrap_int (refCount entry + 1))]> (nodes ncs)))
  | None =>
    let '(err, ncs1) :=
      if decide (parent = NodeNil) then (None, ncs)
      else newChildForParentLocked ncs parent in
    match err with
    | Some e => ((NodeNil, Some e), ncs1)
    | None =>
      let a := length (mem ncs1) in
      ((NodeStd a, None),
       NodeCacheStandard (id ncs1) (branch ncs1)
         (<[ptr := NodeCacheEntry a 1]> (nodes ncs1))
         (mem ncs1 ++ [newNodeStandard ptr name parent]))
    end
  end.

Definition GetOrCreate (ncs : nodeCacheStandard) (ptr : BlockPointer)
    (name : string) (parent : Node)
  : (Node * option error) * nodeCacheStandard :=
  match GetOrCreate_fast ncs ptr with
  | Some (n, ncs') => ((n, None), ncs')
  | None => GetOrCreate_slow ncs ptr name parent
  end.

Definition GetWithoutReference (ncs : nodeCacheStandard) (ptr : BlockPointer)
  : Node * nodeCacheStandard :=
  match nodes ncs !! ptr with
  | None => (NodeNil, ncs)
  | Some entry => (NodeStd (node entry), ncs)
  end.

Definition UpdatePointer (ncs : nodeCacheStandard)
    (oldPtr newPtr : BlockPointer) : nodeCacheStandard :=
  match nodes ncs !! oldPtr with
  | None => ncs
  | Some entry =>
    NodeCacheStandard (id ncs) (branch ncs)
      (<[newPtr := entry]> (delete oldPtr (nodes ncs)))
      (alter (set_BlockPointer newPtr) (node entry) (mem ncs))
  end.

Definition Move (ncs : nodeCacheStandard) (ptr : BlockPointer)
    (newParent : Node) (newName : string)
  : option error * nodeCacheStandard :=
  match nodes ncs !! ptr with
  | None => (None, ncs)
  | Some entry =>
    match newChildForParentLocked ncs newParent with
    | (Some e, ncs1) => (Some e, ncs1)
    | (None, ncs1) =>
      let oldParent :=
        default NodeNil (ns_parent <$> (mem ncs1 !! node entry)) in
      let ncs2 :=
        if decide (oldParent = NodeNil) then ncs1
        else forgetLocked ncs1 oldParent in
      (None,
       set_mem ncs2
         (alter (fun ns => set_Name newName (set_parent newParent ns))
                (node entry) (mem ncs2)))
    end
  end.

Definition Unlink (ncs : nodeCacheStandard) (ptr : BlockPointer)
    (oldPath : path) : nodeCacheStandard :=
  match nodes ncs !! ptr with
  | None => ncs
  | Some entry =>
    let ncs1 :=
      set_mem ncs (alter (set_cachedPath oldPath) (node entry) (mem ncs)) in
    let oldParent :=
      default NodeNil (ns_parent <$> (mem ncs1 !! node entry)) in
    let ncs2 :=
      if decide (oldParent = NodeNil) then ncs1
      else forgetLocked ncs1 oldParent in
    set_mem ncs2
      (alter (fun ns => set_Name EmptyString (set_parent NodeNil ns))
             (node entry) (mem ncs2))
  end.

(** The inner loop of [PathFromNode] that appends the frozen path backwards,
    [i] running from [len - 1] down to [0]; the argument is [i + 1]. *)
Fixpoint append_backwards (p cached : list pathNode) (n : nat)
  : list pathNode :=
  match n with
  | O => p
  | S i =>
    match cached !! i with
    | Some x => append_backwards (p ++ [x]) cached i
    | None => p
    end
  end.

(** How the walk of [PathFromNode] ends: by one of its two [return]
    statements, or by leaving the loop with the accumulated steps. *)
Inductive walk_exit : Type :=
  | Returned (p : path)
  | LeftLoop (steps : list pathNode).

(** The [for currNode != nil] loop.  The loop has no bound of its own (it
    does not terminate on a cyclic parent chain); [fuel] bounds the number of
    iterations and [None] means the bound was reached. *)
Fixpoint PathFromNode_walk (ncs : nodeCacheStandard) (fuel : nat)
    (p : list pathNode) (currNode : Node) : option walk_exit :=
  match currNode with
  | NodeNil => Some (LeftLoop p)
  | _ =>
    match fuel with
    | O => None
    | S fuel' =>
      match as_nodeStandard ncs currNode with
      | None => Some (Returned zero_path)
      | Some (_, ns) =>
        if decide (ns_parent ns = NodeNil
                   ∧ (0 < length (p_path (ns_cachedPath ns)))%nat) then
          if decide (length p = 0%nat) then Some (Returned (ns_cachedPath ns))
          else Some (LeftLoop
                       (append_backwards p (p_path (ns_cachedPath ns))
                          (length (p_path (ns_cachedPath ns)))))
        else PathFromNode_walk ncs fuel' (p ++ [ns_pathNode ns]) (ns_parent ns)
      end
    end
  end.

(** The in-place reversal loop, [i] running from [len/2 - 1] down to [0];
    the argument is [i + 1]. *)
Fixpoint reverse_loop (p : list pathNode) (n : nat) : list pathNode :=
  match n with
  | O => p
  | S i =>
    let opp := (length p - 1 - i)%nat in
    match p !! i, p !! opp with
    | Some x, Some y => reverse_loop (<[i := y]> (<[opp := x]> p)) i
    | _, _ => p
    end
  end.

Definition PathFromNode (ncs : nodeCacheStandard) (n : Node) (fuel : nat)
  : option (path * nodeCacheStandard) :=
  match PathFromNode_walk ncs fuel [] n with
  | None => None
  | Some (Returned p) => Some (p, ncs)
  | Some (LeftLoop steps) =>
    Some (Path (id ncs) (branch ncs)
               (reverse_loop steps (length steps / 2)%nat), ncs)
  end.

End NodeCache.

(* ===================================================================== *)
(** * The block retrieval queue *)
(* ===================================================================== *)

Module RetrievalQueue.

(** Channels and [blockRetrieval] objects are identified by the order of
    their allocation. *)
Abbreviation chan := nat (only parsing).
Abbreviation ref := nat (only parsing).

(** The context and the destination block of a request are opaque to the
    queue. *)
Record blockRetrievalRequest : Type := BlockRetrievalRequest {
  ctx : nat;
  block : nat;
  doneCh : chan
}.

Record blockRetrieval : Type := BlockRetrieval {
  blockPtr : BlockPointer;
  index : Z;
  priority : Z;
  insertionOrder : Z;
  requests : list blockRetrievalRequest
}.

Definition set_index (i : Z) (br : blockRetrieval) : blockRetrieval :=
  BlockRetrieval (blockPtr br) i (priority br) (insertionOrder br)
                 (requests br).

Definition set_priority (p : Z) (br : blockRetrieval) : blockRetrieval :=
  BlockRetrieval (blockPtr br) (index br) p (insertionOrder br) (requests br).

Definition add_request (r : blockRetrievalRequest) (br : blockRetrieval)
  : blockRetrieval :=
  BlockRetrieval (blockPtr br) (index br) (priority br) (insertionOrder br)
                 (requests br ++ [r]).

(** ** The retrieval heap *)

(** The sort key of the record at [a]. *)
Definition key (rs : list blockRetrieval) (a : ref) : Z * Z :=
  match rs !! a with
  | Some br => (priority br, insertionOrder br)
  | None => (0, 0)
  end.

(** Modelled from the spec: the methods of [blockRetrievalHeap] are not
    among the sources.  "The heap orders first by priority (higher first),
    then by insertion sequence (lower/earlier first) as the tie-break". *)
Definition Less (rs : list blockRetrieval) (a b : ref) : bool :=
  let '(pa, ia) := key rs a in
  let '(pb, ib) := key rs b in
  if pb <? pa then true
  else if pa <? pb then false
  else ia <? ib.

(** Modelled from the spec: the heap is "a priority-ordered container of
    pending block retrievals", each record carrying "its current position in
    the heap".  The container is the sequence of queued records in dispatch
    order; [place] puts a record behind every record that does not come
    after it. *)
Fixpoint place (rs : list blockRetrieval) (a : ref) (h : list ref)
  : list ref :=
  match h with
  | [] => [a]
  | b :: h' => if Less rs a b then a :: b :: h' else b :: place rs a h'
  end.

(** Every queued record learns its position, counting from [i]. *)
Fixpoint reindex (rs : list blockRetrieval) (h : list ref) (i : nat)
  : list blockRetrieval :=
  match h with
  | [] => rs
  | a :: h' => reindex (alter (set_index (Z.of_nat i)) a rs) h' (S i)
  end.

(** Modelled from the spec: [heap.Push] ("pushes it onto the priority
    heap"). *)
Definition heap_Push (rs : list blockRetrieval) (h : list ref) (a : ref)
  : list blockRetrieval * list ref :=
  let h' := place rs a h in (reindex rs h' 0, h').

(** Modelled from the spec: [heap.Pop] ("pops the highest-priority record
    off the heap").  A record outside the heap has position [-1], as for the
    record [Request] creates.  [None]: the heap is empty. *)
Definition heap_Pop (rs : list blockRetrieval) (h : list ref)
  : option (ref * list blockRetrieval * list ref) :=
  match h with
  | [] => None
  | a :: h' => Some (a, reindex (alter (set_index (-1)) a rs) h' 0, h')
  end.

(** Modelled from the spec: [heap.Fix] ("its heap position is re-fixed").
    A position outside the heap designates no queued record and nothing
    moves. *)
Definition heap_Fix (rs : list blockRetrieval) (h : list ref) (i : Z)
  : list blockRetrieval * list ref :=
  if decide (0 <= i) then
    match h !! Z.to_nat i with
    | Some a =>
      let h' := place rs a (delete (Z.to_nat i) h) in (reindex rs h' 0, h')
    | None => (rs, h)
    end
  else (rs, h).

(** ** The queue *)

(** The fields of [blockRetrievalQueue], followed by the part of the Go
    runtime state the queue's behaviour depends on: the store of
    [blockRetrieval] objects, the channel allocator, the capacity of
    [workerQueue], the [notifyWorker] goroutines that wait for a worker
    ([notifiers]) or hold a worker's channel and wait for the lock
    ([claimed]), and what has been sent to the workers' channels
    ([delivered], oldest first). *)
Record blockRetrievalQueue : Type := BlockRetrievalQueue {
  ptrs : gmap nat ref;
  insertionCount : Z;
  heap : list ref;
  workerQueue : list chan;
  numWorkers : nat;
  retrievals : list blockRetrieval;
  nextChan : chan;
  notifiers : nat;
  claimed : list chan;
  delivered : list (chan * ref)
}.

Definition newBlockRetrievalQueue (n : nat) : blockRetrievalQueue :=
  BlockRetrievalQueue ∅ 0 [] [] n [] 0%nat 0%nat [] [].

(** [Request]; the deferred [notifyWorker] starts one more goroutine. *)
Definition Request (q : blockRetrievalQueue) (c : nat) (prio : Z)
    (ptr : BlockPointer) (blk : nat) : chan * blockRetrievalQueue :=
  (* look the pointer up, or create, register and push a record *)
  let '(br, ptrs1, count1, rs1, h1, notif1) :=
    match ptrs q !! ptr with
    | Some br =>
      (br, ptrs q, insertionCount q, retrievals q, heap q, notifiers q)
    | None =>
      let br := length (retrievals q) in
      let rs := retrievals q
                ++ [BlockRetrieval ptr (-1) prio (insertionCount q) []] in
      let '(rs', h') := heap_Push rs (heap q) br in
      (br, <[ptr := br]> (ptrs q), wrap_uint64 (insertionCount q + 1),
       rs', h', S (notifiers q))
    end in
  let ch := nextChan q in
  let rs2 := alter (add_request (BlockRetrievalRequest c blk ch)) br rs1 in
  (* a higher priority elevates the record *)
  let '(rs3, h3) :=
    match rs2 !! br with
    | Some r =>
      if decide (priority r < prio) then
        heap_Fix (alter (set_priority prio) br rs2) h1 (index r)
      else (rs2, h1)
    | None => (rs2, h1)
    end in
  (ch,
   BlockRetrievalQueue ptrs1 count1 h3 (workerQueue q) (numWorkers q) rs3
     (S ch) notif1 (claimed q) (delivered q)).

Definition FinalizeRequest (q : blockRetrievalQueue) (ptr : BlockPointer)
  : blockRetrievalQueue :=
  BlockRetrievalQueue (delete ptr (ptrs q)) (insertionCount q) (heap q)
    (workerQueue q) (numWorkers q) (retrievals q) (nextChan q) (notifiers q)
    (claimed q) (delivered q).

(** [WorkOnRequest]: the send on [workerQueue] goes into the buffer when
    there is room, or, for a channel without buffer, straight to a waiting
    [notifyWorker] goroutine; otherwise the caller blocks ([None]). *)
Definition WorkOnRequest (q : blockRetrievalQueue)
  : option (chan * blockRetrievalQueue) :=
  let ch := nextChan q in
  if decide (length (workerQueue q) < numWorkers q)%nat then
    Some (ch,
          BlockRetrievalQueue (ptrs q) (insertionCount q) (heap q)
            (workerQueue q ++ [ch]) (numWorkers q) (retrievals q) (S ch)
            (notifiers q) (claimed q) (delivered q))
  else
    match numWorkers q, notifiers q with
    | O, S n =>
      Some (ch,
            BlockRetrievalQueue (ptrs q) (insertionCount q) (heap q)
              (workerQueue q) (numWorkers q) (retrievals q) (S ch)
              n (claimed q ++ [ch]) (delivered q))
    | _, _ => None
    end.

(** First half of the [notifyWorker] goroutine: receive the next queued
    worker.  [None]: no goroutine is waiting, or no worker is queued. *)
Definition notifyWorker_receive (q : blockRetrievalQueue)
  : option blockRetrievalQueue :=
  match notifiers q, workerQueue q with
  | S n, ch :: wq =>
    Some (BlockRetrievalQueue (ptrs q) (insertionCount q) (heap q) wq
            (numWorkers q) (retrievals q) (nextChan q) n
            (claimed q ++ [ch]) (delivered q))
  | _, _ => None
  end.

(** Second half, for the [k]-th goroutine that holds a worker's channel:
    take the lock, pop the heap, send the record.  [None]: there is no such
    goroutine, or the heap is empty. *)
Definition notifyWorker_pop (q : blockRetrievalQueue) (k : nat)
  : option blockRetrievalQueue :=
  match claimed q !! k with
  | None => None
  | Some ch =>
    match heap_Pop (retrievals q) (heap q) with
    | None => None
    | Some (br, rs, h) =>
      Some (BlockRetrievalQueue (ptrs q) (insertionCount q) h
              (workerQueue q) (numWorkers q) rs (nextChan q) (notifiers q)
              (delete k (claimed q)) (delivered q ++ [(ch, br)]))
    end
  end.

(** ** The step relation: interleavings of the lock-protected sections *)

Inductive action : Type :=
  | ARequest (c : nat) (prio : Z) (ptr : BlockPointer) (blk : nat)
  | AWorkOnRequest
  | ANotifyReceive
  | ANotifyPop (k : nat)
  | AFinalizeRequest (ptr : BlockPointer).

#[global] Instance action_eq_dec : EqDecision action.
Proof. solve_decision. Defined.

Definition step (a : action) (q : blockRetrievalQueue)
  : option blockRetrievalQueue :=
  match a with
  | ARequest c prio ptr blk => Some (Request q c prio ptr blk).2
  | AWorkOnRequest => snd <$> WorkOnRequest q
  | ANotifyReceive => notifyWorker_receive q
  | ANotifyPop k => notifyWorker_pop q k
  | AFinalizeRequest ptr => Some (FinalizeRequest q ptr)
  end.

Fixpoint run (acts : list action) (q : blockRetrievalQueue)
  : option blockRetrievalQueue :=
  match acts with
  | [] => Some q
  | a :: acts' =>
    match step a q with
    | Some q' => run acts' q'
    | None => None
    end
  end.

Definition reachable (q : blockRetrievalQueue) : Prop :=
  exists n acts, run acts (newBlockRetrievalQueue n) = Some q.

End RetrievalQueue.

(* ===================================================================== *)
(** * The log registration service ([go/service/log_register.go]) *)
(* ===================================================================== *)

Module LogRegister.

Record RegisterLoggerArg : Type := MkRegisterLoggerArg {
  Name : string;
  Level : nat
}.

Record logQueue : Type := LogQueue {
  lq_name : string;
  lq_level : nat;
  lq_ui : nat
}.

(** Modelled from the spec: [newLogQueue] and the methods of [logFwd] are
    not among the sources.  The forwarder "forwards log lines to a registered
    listener": it is the list of the queues added to it and not yet
    removed, each identified by its address. *)
Definition newLogQueue (n : string) (l : nat) (ui : nat) : logQueue :=
  LogQueue n l ui.

Definition logFwd_Add (fwd : list nat) (q : nat) : list nat := fwd ++ [q].

Definition logFwd_Remove (fwd : list nat) (q : nat) : list nat :=
  filter (fun x => x <> q) fwd.

Inductive register_error : Type :=
  | AlreadyRegistered.   (* errors.New("logger already registered") *)

Inductive logLine : Type :=
  | UnregisteredLogger (q : nat).

(** [logRegister]: [queue] is [None] for the nil pointer.  [queues] is the
    store of the [logQueue] objects and [debug] what has been written to the
    logger. *)
Record logRegister : Type := MkLogRegister {
  forwarder : list nat;
  queue : option nat;
  debug : list logLine;
  queues : list logQueue
}.

Definition newLogRegister (fwd : list nat) : logRegister :=
  MkLogRegister fwd None [] [].

Definition RegisterLogger (r : logRegister) (arg : RegisterLoggerArg)
    (ui : nat) : option register_error * logRegister :=
  match queue r with
  | Some _ => (Some AlreadyRegistered, r)
  | None =>
    let a := length (queues r) in
    (None,
     MkLogRegister (logFwd_Add (forwarder r) a) (Some a) (debug r)
       (queues r ++ [newLogQueue (Name arg) (Level arg) ui]))
  end.

Definition UnregisterLogger (r : logRegister) : logRegister :=
  match queue r with
  | None => r
  | Some a =>
    MkLogRegister (logFwd_Remove (forwarder r) a) (queue r)
      (debug r ++ [UnregisteredLogger a]) (queues r)
  end.

End LogRegister.

(* ===================================================================== *)
(** * Vocabulary of the node-cache properties *)
(* ===================================================================== *)

Module NodeCacheSpec.
Import NodeCache.

(** The handle [n] is the node currently recorded for its pointer. *)
Definition current_handle (ncs : nodeCacheStandard) (n : Node) : Prop :=
  exists a ns entry,
    n = NodeStd a /\ mem ncs !! a = Some ns
    /\ nodes ncs !! pn_BlockPointer (ns_pathNode ns) = Some entry
    /\ node entry = a.

(** The handle [n] is a [nodeStandard] whose pointer field is [ptr]. *)
Definition handle_on (ncs : nodeCacheStandard) (ptr : BlockPointer) (n : Node)
  : bool :=
  match as_nodeStandard ncs n with
  | Some (_, ns) => bool_decide (pn_BlockPointer (ns_pathNode ns) = ptr)
  | None => false
  end.

(** [forget ncs n] is effective: it reaches the decrement. *)
Definition forget_effective (ncs : nodeCacheStandard) (n : Node) : bool :=
  match as_nodeStandard ncs n with
  | Some (a, ns) =>
    match nodes ncs !! pn_BlockPointer (ns_pathNode ns) with
    | Some entry => bool_decide (node entry = a)
    | None => false
    end
  | None => false
  end.

(** Calls on one pointer. *)
Inductive op : Type :=
  | OpGetOrCreate (name : string) (parent : Node)
  | OpForget (n : Node).

(** Runs a sequence of calls on [ptr] and counts the [GetOrCreate] calls and
    the effective [forget] calls.  [None] when a [GetOrCreate] fails or a
    [forget] is given a handle that is not on [ptr]. *)
Fixpoint run_ops (ptr : BlockPointer) (ncs : nodeCacheStandard)
    (ops : list op) : option (nodeCacheStandard * nat * nat) :=
  match ops with
  | [] => Some (ncs, 0%nat, 0%nat)
  | OpGetOrCreate name parent :: ops' =>
    match GetOrCreate ncs ptr name parent with
    | ((_, None), ncs') =>
      match run_ops ptr ncs' ops' with
      | Some (s, g, f) => Some (s, S g, f)
      | None => None
      end
    | ((_, Some _), _) => None
    end
  | OpForget n :: ops' =>
    if handle_on ncs ptr n then
      match run_ops ptr (forget ncs n) ops' with
      | Some (s, g, f) =>
        Some (s, g, if forget_effective ncs n then S f else f)
      | None => None
      end
    else None
  end.

(** [below m top d steps]: in the object store [m] the node at [d] is a
    proper descendant of the node at [top]; [steps] are the path steps of
    the nodes strictly below [top] down to [d], in root-to-leaf order. *)
Inductive below (m : list nodeStandard) (top : addr)
  : addr -> list pathNode -> Prop :=
  | below_child d ns :
      m !! d = Some ns -> ns_parent ns = NodeStd top ->
      below m top d [ns_pathNode ns]
  | below_step d ns x steps :
      m !! d = Some ns -> ns_parent ns = NodeStd x ->
      below m top x steps ->
      below m top d (steps ++ [ns_pathNode ns]).

(** The entry of [ptr] carries the net count [r]: absent at zero, present
    with exactly that reference count otherwise. *)
Definition tracked (ncs : nodeCacheStandard) (ptr : BlockPointer) (r : Z)
  : Prop :=
  (r = 0 /\ nodes ncs !! ptr = None)
  \/ (0 < r /\ exists e, nodes ncs !! ptr = Some e /\ refCount e = r).

(** The node at [top] has been unlinked with the non-empty frozen path
    [cp]. *)
Definition unlinked_at (ncs : nodeCacheStandard) (top : addr) (cp : path)
  : Prop :=
  exists ns, mem ncs !! top = Some ns /\ ns_parent ns = NodeNil
             /\ ns_cachedPath ns = cp /\ p_path cp <> [].

(** The calls of the cache's interface that change its state. *)
Inductive call : Type :=
  | CGetOrCreate (ptr : BlockPointer) (name : string) (parent : Node)
  | CForget (n : Node)
  | CUpdatePointer (oldPtr newPtr : BlockPointer)
  | CMove (ptr : BlockPointer) (newParent : Node) (newName : string)
  | CUnlink (ptr : BlockPointer) (oldPath : path).

Definition do_call (ncs : nodeCacheStandard) (c : call) : nodeCacheStandard :=
  match c with
  | CGetOrCreate ptr name parent => (GetOrCreate ncs ptr name parent).2
  | CForget n => forget ncs n
  | CUpdatePointer oldPtr newPtr => UpdatePointer ncs oldPtr newPtr
  | CMove ptr newParent newName => (Move ncs ptr newParent newName).2
  | CUnlink ptr oldPath => Unlink ncs ptr oldPath
  end.

(** The states a cache goes through. *)
Definition cache_reachable (ncs : nodeCacheStandard) : Prop :=
  exists i b calls, ncs = foldl do_call (newNodeCacheStandard i b) calls.

(** Every entry points to an allocated node. *)
Definition entries_allocated (ncs : nodeCacheStandard) : Prop :=
  forall p e, nodes ncs !! p = Some e -> (node e < length (mem ncs))%nat.

(** A small tree used to instantiate the theorems: [root] (pointer 10, at
    address 0), its child [dir] (pointer 20, address 1) and the child
    [file] of [dir] (pointer 30, address 2). *)
Definition ex_tree : nodeCacheStandard :=
  let s0 := newNodeCacheStandard 1 "master" in
  let s1 := (GetOrCreate s0 10 "root" NodeNil).2 in
  let s2 := (GetOrCreate s1 20 "dir" (NodeStd 0)).2 in
  (GetOrCreate s2 30 "file" (NodeStd 1)).2.

Definition ex_path : path :=
  Path 1 "master" [PathNode 10 "root"; PathNode 20 "dir"].

(** Two references to a new pointer, both released. *)
Definition ex_ops : list op :=
  [OpGetOrCreate "a" NodeNil; OpGetOrCreate "a" NodeNil;
   OpForget (NodeStd 3); OpForget (NodeStd 3)].

(** ** Further vocabulary: invariants, attached nodes, example states *)

(** Every entry is filed under the pointer its node carries. *)
Definition keyed (ncs : nodeCacheStandard) : Prop :=
  forall p e, nodes ncs !! p = Some e ->
    exists ns, mem ncs !! node e = Some ns
               /\ pn_BlockPointer (ns_pathNode ns) = p.

(** Every parent reference is nil or an allocated [nodeStandard]. *)
Definition parents_standard (ncs : nodeCacheStandard) : Prop :=
  forall (a : nat) ns, mem ncs !! a = Some ns ->
    ns_parent ns = NodeNil
    \/ exists b : nat, ns_parent ns = NodeStd b /\ (b < length (mem ncs))%nat.

(** Every reference count lies between [1] and [n]. *)
Definition counts_within (n : Z) (ncs : nodeCacheStandard) : Prop :=
  forall p e, nodes ncs !! p = Some e -> 1 <= refCount e <= n.

(** [attached m d steps]: in the object store [m] the parent chain of the
    node at [d] ends at a node without parent and without frozen path;
    [steps] are the path steps of the chain in root-to-leaf order. *)
Inductive attached (m : list nodeStandard) : addr -> list pathNode -> Prop :=
  | attached_root d ns :
      m !! d = Some ns -> ns_parent ns = NodeNil ->
      p_path (ns_cachedPath ns) = [] ->
      attached m d [ns_pathNode ns]
  | attached_step d ns x steps :
      m !! d = Some ns -> ns_parent ns = NodeStd x ->
      attached m x steps ->
      attached m d (steps ++ [ns_pathNode ns]).

(** The cache after the calls [calls] on a new cache. *)
Definition after_calls (i : TlfID) (b : BranchName) (calls : list call)
  : nodeCacheStandard :=
  foldl do_call (newNodeCacheStandard i b) calls.

(** The calls that build [ex_tree]. *)
Definition ex_tree_calls : list call :=
  [CGetOrCreate 10 "root" NodeNil; CGetOrCreate 20 "dir" (NodeStd 0);
   CGetOrCreate 30 "file" (NodeStd 1)].

(** A cache with a stale handle: the node at address 0 was created for
    pointer 7 and forgotten; pointer 7 is now recorded with the node at
    address 1. *)
Definition ex_stale : nodeCacheStandard :=
  let s0 := newNodeCacheStandard 1 "master" in
  let s1 := (GetOrCreate s0 7 "old" NodeNil).2 in
  let s2 := forget s1 (NodeStd 0) in
  (GetOrCreate s2 7 "new" NodeNil).2.

(** The root of [ex_tree] moved under its grandchild [file]. *)
Definition ex_cycle : nodeCacheStandard :=
  (Move ex_tree 10 (NodeStd 2) "root").2.

End NodeCacheSpec.

(* ===================================================================== *)
(** * Vocabulary of the retrieval-queue properties *)
(* ===================================================================== *)

Module RetrievalQueueSpec.
Import RetrievalQueue.

(** A record without its heap position. *)
Definition core (br : blockRetrieval)
  : BlockPointer * Z * Z * list blockRetrievalRequest :=
  (blockPtr br, priority br, insertionOrder br, requests br).

(** [a] does not come after [b] in the dispatch order. *)
Definition not_after (rs : list blockRetrieval) (a b : ref) : Prop :=
  Less rs b a = false.

(** The heap is in dispatch order. *)
Definition sorted (rs : list blockRetrieval) (h : list ref) : Prop :=
  StronglySorted (not_after rs) h.

(** Every queued record knows its position. *)
Definition indexed (rs : list blockRetrieval) (h : list ref) : Prop :=
  forall i a, h !! i = Some a -> index <$> rs !! a = Some (Z.of_nat i).

(** What the heap reads of a record. *)
Definition ikey (br : blockRetrieval) : Z * Z * Z :=
  (index br, priority br, insertionOrder br).

(** The heap invariant. *)
Record heap_ok (rs : list blockRetrieval) (h : list ref) : Prop := HeapOk {
  ok_NoDup : NoDup h;
  ok_indexed : indexed rs h;
  ok_sorted : sorted rs h
}.

(** The heap invariant, and the map only holds allocated records. *)
Definition heap_wf (q : blockRetrievalQueue) : Prop :=
  heap_ok (retrievals q) (heap q)
  /\ forall p a, ptrs q !! p = Some a -> (a < length (retrievals q))%nat.

(** Every record in the map is allocated and carries the pointer it is
    registered under. *)
Definition registered (q : blockRetrievalQueue) : Prop :=
  forall p a, ptrs q !! p = Some a ->
              blockPtr <$> retrievals q !! a = Some p.

(** The invariant of the queue. *)
Definition wf (q : blockRetrievalQueue) : Prop :=
  heap_ok (retrievals q) (heap q) /\ registered q.

(** The record after one more request has joined it. *)
Definition joined (r : blockRetrievalRequest) (prio : Z) (br : blockRetrieval)
  : BlockPointer * Z * Z * list blockRetrievalRequest :=
  (blockPtr br, Z.max (priority br) prio, insertionOrder br,
   requests br ++ [r]).

(** The fields of the queue no lock-protected section of [Request]
    touches. *)
Definition same_workers (q q' : blockRetrievalQueue) : Prop :=
  workerQueue q' = workerQueue q /\ numWorkers q' = numWorkers q
  /\ claimed q' = claimed q /\ delivered q' = delivered q.

(** The record a request for [ptr] joins: the registered one, or the one
    about to be allocated. *)
Definition target (q : blockRetrievalQueue) (ptr : BlockPointer) : ref :=
  default (length (retrievals q)) (ptrs q !! ptr).

(** What the request finds there. *)
Definition found (q : blockRetrievalQueue) (prio : Z) (ptr : BlockPointer)
  : option blockRetrieval :=
  match ptrs q !! ptr with
  | Some a => retrievals q !! a
  | None => Some (BlockRetrieval ptr (-1) prio (insertionCount q) [])
  end.

(** Every queued record has its [notifyWorker] goroutine. *)
Definition balanced (q : blockRetrievalQueue) : Prop :=
  length (heap q) = (notifiers q + length (claimed q))%nat.

(** The insertion number of a record is the number of records created
    before it, as a [uint64]. *)
Definition numbered (q : blockRetrievalQueue) : Prop :=
  insertionCount q = wrap_uint64 (Z.of_nat (length (retrievals q)))
  /\ forall (a : nat) br,
       retrievals q !! a = Some br ->
       insertionOrder br = wrap_uint64 (Z.of_nat a).

(** No [Request] among the steps. *)
Definition quiet (acts : list action) : Prop :=
  forall c prio ptr blk, ARequest c prio ptr blk ∉ acts.

(** [x] is to be dispatched no later than [y]. *)
Definition goes_first (x y : blockRetrieval) : Prop :=
  priority y < priority x
  \/ (priority x = priority y /\ insertionOrder x <= insertionOrder y).

(** Who asked: the context and the destination of a requester entry. *)
Definition who (r : blockRetrievalRequest) : nat * nat := (ctx r, block r).

(** The requesters of the [Request] calls for [ptr] among [acts], in
    order. *)
Fixpoint requesters_on (ptr : BlockPointer) (acts : list action)
  : list (nat * nat) :=
  match acts with
  | [] => []
  | ARequest c _ p blk :: acts' =>
    if decide (p = ptr) then (c, blk) :: requesters_on ptr acts'
    else requesters_on ptr acts'
  | _ :: acts' => requesters_on ptr acts'
  end.

(** The highest priority among [p0] and the [Request] calls for [ptr]. *)
Fixpoint highest_on (ptr : BlockPointer) (acts : list action) (p0 : Z) : Z :=
  match acts with
  | [] => p0
  | ARequest _ prio p _ :: acts' =>
    if decide (p = ptr) then highest_on ptr acts' (Z.max p0 prio)
    else highest_on ptr acts' p0
  | _ :: acts' => highest_on ptr acts' p0
  end.

(** Example runs.  [ex_three]: three requests with priorities 3, 1, 2 for
    the pointers 10, 20, 30, and one worker whose channel a dispatcher
    goroutine holds.  [ex_drained]: the same requests, all dispatched to
    three workers.  [ex_fifo]: two requests of equal priority, both
    dispatched. *)
Definition run_from_new (n : nat) (acts : list action) : blockRetrievalQueue :=
  default (newBlockRetrievalQueue n) (run acts (newBlockRetrievalQueue n)).

Definition ex_three_acts : list action :=
  [ARequest 0 3 10 0; ARequest 1 1 20 1; ARequest 2 2 30 2;
   AWorkOnRequest; ANotifyReceive].

Definition ex_three : blockRetrievalQueue := run_from_new 3 ex_three_acts.

Definition ex_drained : blockRetrievalQueue :=
  run_from_new 3
    (ex_three_acts
     ++ [ANotifyPop 0; AWorkOnRequest; ANotifyReceive; ANotifyPop 0;
         AWorkOnRequest; ANotifyReceive; ANotifyPop 0]).

Definition ex_fifo : blockRetrievalQueue :=
  run_from_new 2
    [ARequest 0 4 10 0; ARequest 1 4 20 1;
     AWorkOnRequest; AWorkOnRequest; ANotifyReceive; ANotifyReceive;
     ANotifyPop 1; ANotifyPop 0].

(** [ex_window]: the record of pointer 7 (record 0) has been dispatched and
    finalized; the record of pointer 8 (record 1) has been dispatched to a
    worker but not finalized yet. *)
Definition ex_window_acts : list action :=
  [ARequest 0 1 7 0; ARequest 1 1 8 1;
   AWorkOnRequest; ANotifyReceive; ANotifyPop 0; AFinalizeRequest 7;
   AWorkOnRequest; ANotifyReceive; ANotifyPop 0].

Definition ex_window : blockRetrievalQueue := run_from_new 2 ex_window_acts.

(** ** Further vocabulary: the life of a record *)

(** The record [br'] is the record [br] at a later time. *)
Definition grown (br br' : blockRetrieval) : Prop :=
  blockPtr br' = blockPtr br
  /\ insertionOrder br' = insertionOrder br
  /\ priority br <= priority br'
  /\ requests br `prefix_of` requests br'.

(** Every record created so far is queued or has been sent to a worker,
    once. *)
Definition accounted (q : blockRetrievalQueue) : Prop :=
  heap q ++ (delivered q).*2 ≡ₚ seq 0 (length (retrievals q)).

(** The channels of the workers: waiting in [workerQueue], held by a
    dispatcher goroutine, or sent to. *)
Definition worker_chans (q : blockRetrievalQueue) : list chan :=
  workerQueue q ++ claimed q ++ (delivered q).*1.

(** One request for pointer 7, not dispatched yet. *)
Definition ex_queued : blockRetrievalQueue :=
  run_from_new 1 [ARequest 0 1 7 0].

End RetrievalQueueSpec.

(* ===================================================================== *)
(** * Vocabulary of the log-registration properties *)
(* ===================================================================== *)

Module LogRegisterSpec.
Import LogRegister.

Definition ex_arg : RegisterLoggerArg := MkRegisterLoggerArg "cli" 3.

(** A register after its first registration. *)
Definition ex_registered : logRegister :=
  (RegisterLogger (newLogRegister []) ex_arg 1).2.

(** ** Sequences of calls *)

(** The calls of the register's interface. *)
Inductive log_call : Type :=
  | LRegister (arg : RegisterLoggerArg) (ui : nat)
  | LUnregister.

Definition do_log_call (r : logRegister) (c : log_call) : logRegister :=
  match c with
  | LRegister arg ui => (RegisterLogger r arg ui).2
  | LUnregister => UnregisterLogger r
  end.

(** The first [RegisterLogger] call among [calls]. *)
Fixpoint first_registration (calls : list log_call)
  : option (RegisterLoggerArg * nat) :=
  match calls with
  | [] => None
  | LRegister arg ui :: _ => Some (arg, ui)
  | LUnregister :: calls' => first_registration calls'
  end.

(** The number of [UnregisterLogger] calls among [calls]. *)
Fixpoint unregistrations (calls : list log_call) : nat :=
  match calls with
  | [] => 0
  | LRegister _ _ :: calls' => unregistrations calls'
  | LUnregister :: calls' => S (unregistrations calls')
  end.

(** The number of [UnregisterLogger] calls after the first
    [RegisterLogger] call. *)
Fixpoint unregistrations_after_registration (calls : list log_call) : nat :=
  match calls with
  | [] => 0
  | LRegister _ _ :: calls' => unregistrations calls'
  | LUnregister :: calls' => unregistrations_after_registration calls'
  end.

End LogRegisterSpec.

(* ===================================================================== *)
(** * Machine integers in range *)
(* ===================================================================== *)

Lemma wrap_int_small z : - 2 ^ 63 <= z < 2 ^ 63 -> wrap_int z = z.
Proof. intros H. unfold wrap_int. rewrite Z.mod_small; lia. Qed.

Lemma wrap_uint64_small z : 0 <= z < 2 ^ 64 -> wrap_uint64 z = z.
Proof. intros H. unfold wrap_uint64. rewrite Z.mod_small; lia. Qed.

(* ===================================================================== *)
(** * Properties of the node cache *)
(* ===================================================================== *)

Module NodeCacheProofs.
Import NodeCache NodeCacheSpec.

(** ** [newChildForParentLocked] and [Move] *)

Lemma newChildForParentLocked_error ncs parent e ncs' :
  newChildForParentLocked ncs parent = (Some e, ncs') ->
  ncs' = ncs
  /\ (exists p, e = ParentNodeNotFoundError p)
  /\ ~ current_handle ncs parent.
Proof.
  unfold newChildForParentLocked.
  destruct (as_nodeStandard ncs parent) as [[a ns]|] eqn:Has.
  - destruct (nodes ncs !! _) as [pEntry|] eqn:Hent.
    + destruct (decide (parent = NodeStd a)) as [->|Hne]; [discriminate|].
      exfalso. apply Hne.
      destruct parent; simpl in Has; try discriminate.
      destruct (mem ncs !! a0); simpl in Has; congruence.
    + intros [= <- <-]. split; [done|]. split; [eauto|].
      intros (a' & ns' & entry & -> & Hm & Hn & _).
      simpl in Has. rewrite Hm in Has. simpl in Has.
      injection Has as <- <-. congruence.
  - intros [= <- <-]. split; [done|]. split; [eauto|].
    intros (a' & ns' & entry & -> & Hm & _).
    simpl in Has. rewrite Hm in Has. discriminate.
Qed.

(** The comparison of the handle with its own type assertion never fails:
    a handle passes as soon as some entry exists for its pointer, also when
    that entry records another node. *)
Remark newChildForParentLocked_checks_the_pointer_only ncs a ns entry :
  mem ncs !! a = Some ns ->
  nodes ncs !! pn_BlockPointer (ns_pathNode ns) = Some entry ->
  (newChildForParentLocked ncs (NodeStd a)).1 = None.
Proof.
  intros Hm Hn. unfold newChildForParentLocked. simpl.
  rewrite Hm. simpl. rewrite Hn. by rewrite decide_True.
Qed.

(** C1.  When [Move] fails, the error is the [ParentNodeNotFoundError] that
    incrementing the new parent produced, the new parent is not the node
    currently recorded for its pointer (or is no cache-managed node at all),
    and the whole cache state - hence the node's parent field, its name and
    the old parent's reference count - is unchanged. *)
Theorem Move_failure_atomic ncs ptr newParent newName e ncs' :
  Move ncs ptr newParent newName = (Some e, ncs') ->
  newChildForParentLocked ncs newParent = (Some e, ncs)
  /\ (exists p, e = ParentNodeNotFoundError p)
  /\ ~ current_handle ncs newParent
  /\ ncs' = ncs
  /\ mem ncs' = mem ncs
  /\ nodes ncs' = nodes ncs.
Proof.
  unfold Move. intros H.
  destruct (nodes ncs !! ptr) as [entry|]; [|discriminate].
  destruct (newChildForParentLocked ncs newParent) as [[e1|] ncs1] eqn:Hc;
    [|discriminate].
  injection H as -> ->.
  destruct (newChildForParentLocked_error _ _ _ _ Hc) as (-> & He & Hcur).
  repeat split; auto.
Qed.

Lemma Move_failure_atomic_witness :
  Move ex_tree 30 (NodeOther 0) "x"
  = (Some (ParentNodeNotFoundError 0), ex_tree)
  /\ newChildForParentLocked ex_tree (NodeOther 0)
     = (Some (ParentNodeNotFoundError 0), ex_tree)
  /\ (exists p, ParentNodeNotFoundError 0 = ParentNodeNotFoundError p)
  /\ ~ current_handle ex_tree (NodeOther 0)
  /\ ex_tree = ex_tree
  /\ mem ex_tree = mem ex_tree
  /\ nodes ex_tree = nodes ex_tree.
Proof.
  split; [reflexivity|].
  apply (Move_failure_atomic ex_tree 30 (NodeOther 0) "x").
  reflexivity.
Defined.

(** C10.  [Move] on a pointer without an entry returns nil and leaves the
    cache as it is: the new parent is neither validated nor counted. *)
Theorem Move_absent_is_noop ncs ptr newParent newName :
  nodes ncs !! ptr = None ->
  Move ncs ptr newParent newName = (None, ncs).
Proof. intros H. unfold Move. by rewrite H. Qed.

Lemma Move_absent_is_noop_witness :
  nodes ex_tree !! 99%nat = None
  /\ Move ex_tree 99 (NodeStd 0) "x" = (None, ex_tree).
Proof.
  split; [reflexivity|].
  apply (Move_absent_is_noop ex_tree 99 (NodeStd 0) "x"). reflexivity.
Defined.

(** ** [UpdatePointer] *)

(** C4 (amended).  If the cache has an entry for [oldPtr], then after
    [UpdatePointer oldPtr newPtr] a lookup on [newPtr] returns the same node
    object, its pointer field is [newPtr] and its other fields are as
    before, and the entry under [newPtr] is the old entry, reference count
    included; a lookup on [oldPtr] returns nil provided [oldPtr] and
    [newPtr] differ.  If [oldPtr] has no entry, nothing changes. *)
Theorem UpdatePointer_rekeys ncs oldPtr newPtr :
  (forall entry,
     nodes ncs !! oldPtr = Some entry ->
     let ncs' := UpdatePointer ncs oldPtr newPtr in
     (oldPtr <> newPtr -> GetWithoutReference ncs' oldPtr = (NodeNil, ncs'))
     /\ GetWithoutReference ncs' newPtr = (NodeStd (node entry), ncs')
     /\ nodes ncs' !! newPtr = Some entry
     /\ (forall ns, mem ncs !! node entry = Some ns ->
           mem ncs' !! node entry = Some (set_BlockPointer newPtr ns)))
  /\ (nodes ncs !! oldPtr = None -> UpdatePointer ncs oldPtr newPtr = ncs).
Proof.
  split.
  - intros entry Hent ncs'. subst ncs'. unfold UpdatePointer. rewrite Hent.
    unfold GetWithoutReference. simpl.
    rewrite lookup_insert_eq.
    repeat split; auto.
    + intros Hne. rewrite lookup_insert_ne by congruence.
      by rewrite lookup_delete_eq.
    + intros ns Hns. rewrite list_lookup_alter_eq. by rewrite Hns.
  - intros Hnone. unfold UpdatePointer. by rewrite Hnone.
Qed.

Lemma UpdatePointer_rekeys_witness :
  nodes ex_tree !! 20%nat = Some (NodeCacheEntry 1 2)
  /\ GetWithoutReference (UpdatePointer ex_tree 20 21) 20
     = (NodeNil, UpdatePointer ex_tree 20 21)
  /\ GetWithoutReference (UpdatePointer ex_tree 20 21) 21
     = (NodeStd 1, UpdatePointer ex_tree 20 21)
  /\ nodes (UpdatePointer ex_tree 20 21) !! 21%nat = Some (NodeCacheEntry 1 2)
  /\ mem (UpdatePointer ex_tree 20 21) !! 1%nat
     = Some (NodeStandard (PathNode 21 "dir") (NodeStd 0) zero_path)
  /\ nodes ex_tree !! 99%nat = None
  /\ UpdatePointer ex_tree 99 21 = ex_tree.
Proof.
  destruct (UpdatePointer_rekeys ex_tree 20 21) as [H _].
  destruct (H (NodeCacheEntry 1 2) eq_refl) as (H1 & H2 & H3 & H4).
  destruct (UpdatePointer_rekeys ex_tree 99 21) as [_ H'].
  split; [reflexivity|].
  split; [apply H1; lia|].
  split; [apply H2|].
  split; [apply H3|].
  split; [apply (H4 (NodeStandard (PathNode 20 "dir") (NodeStd 0) zero_path));
          reflexivity|].
  split; [reflexivity|].
  apply H'. reflexivity.
Defined.

(** C4 as stated fails when the two pointers are equal: the entry is
    deleted and inserted again under the same key, so a lookup on the old
    pointer still finds the node. *)
Lemma UpdatePointer_same_pointer_keeps_entry :
  ~ (forall ncs oldPtr newPtr entry,
       nodes ncs !! oldPtr = Some entry ->
       GetWithoutReference (UpdatePointer ncs oldPtr newPtr) oldPtr
       = (NodeNil, UpdatePointer ncs oldPtr newPtr)).
Proof.
  intros H.
  specialize (H ex_tree 10%nat 10%nat (NodeCacheEntry 0 2) eq_refl).
  vm_compute in H. discriminate.
Qed.

(** ** The operations under the shared lock *)

(** What the three operations do while they hold the shared lock.
    [GetWithoutReference] and [PathFromNode] leave the whole cache state
    unchanged.  The fast path of [GetOrCreate] returns the node of the
    existing entry and leaves the stored nodes, the tree identity and every
    other entry unchanged, but it does write: the reference count of the
    entry it found goes up by one. *)
Lemma shared_lock_operations_frame ncs :
  (forall ptr, (GetWithoutReference ncs ptr).2 = ncs)
  /\ (forall n fuel,
        match PathFromNode ncs n fuel with
        | Some (_, ncs') => ncs' = ncs
        | None => True
        end)
  /\ (forall ptr,
        match GetOrCreate_fast ncs ptr with
        | Some (n, ncs') =>
          exists entry,
            nodes ncs !! ptr = Some entry
            /\ n = NodeStd (node entry)
            /\ nodes ncs' !! ptr
               = Some (NodeCacheEntry (node entry)
                         (wrap_int (refCount entry + 1)))
            /\ (forall ptr', ptr' <> ptr ->
                  nodes ncs' !! ptr' = nodes ncs !! ptr')
            /\ mem ncs' = mem ncs
            /\ id ncs' = id ncs
            /\ branch ncs' = branch ncs
        | None => nodes ncs !! ptr = None
        end).
Proof.
  split; [|split].
  - intros ptr. unfold GetWithoutReference.
    by destruct (nodes ncs !! ptr).
  - intros n fuel. unfold PathFromNode.
    by destruct (PathFromNode_walk ncs fuel [] n) as [[p|steps]|].
  - intros ptr. unfold GetOrCreate_fast.
    destruct (nodes ncs !! ptr) as [entry|] eqn:Hent; [|done].
    exists entry. simpl. rewrite lookup_insert_eq.
    repeat split; auto.
    intros ptr' Hne. by rewrite lookup_insert_ne.
Qed.

(** C8, the code at the failing input.  On the example tree the root has
    two references; [GetOrCreate] on the root's pointer takes its fast path
    and, holding only the shared lock, raises the count to three.  The
    decrement in [forgetLocked], the increment in [newChildForParentLocked]
    and the increment in the second check of [GetOrCreate] itself all run
    under the exclusive lock. *)
Theorem GetOrCreate_fast_path_writes_under_shared_lock :
  refCount <$> (nodes ex_tree !! 10%nat) = Some 2
  /\ exists ncs',
       GetOrCreate_fast ex_tree 10 = Some (NodeStd 0, ncs')
       /\ GetOrCreate ex_tree 10 "root" NodeNil = ((NodeStd 0, None), ncs')
       /\ refCount <$> (nodes ncs' !! 10%nat) = Some 3
       /\ ncs' <> ex_tree.
Proof.
  split; [reflexivity|]. eexists.
  split; [reflexivity|]. split; [reflexivity|]. split; [reflexivity|].
  intros H. apply (f_equal (fun s => refCount <$> (nodes s !! 10%nat))) in H.
  vm_compute in H. discriminate.
Qed.

(** Hence the fast path does not leave the reference counts unchanged. *)
Lemma GetOrCreate_fast_writes_refCount :
  ~ (forall ncs ptr n ncs',
       GetOrCreate_fast ncs ptr = Some (n, ncs') ->
       forall p, refCount <$> nodes ncs' !! p = refCount <$> nodes ncs !! p).
Proof.
  intros H.
  specialize (H ex_tree 10%nat (NodeStd 0) _ eq_refl 10%nat).
  vm_compute in H. discriminate.
Qed.

(** ** Reference counting: [GetOrCreate] and [forget] on one pointer *)

Lemma GetOrCreate_tracked ncs ptr name parent n ncs' r :
  tracked ncs ptr r -> r + 1 < 2 ^ 63 ->
  GetOrCreate ncs ptr name parent = ((n, None), ncs') ->
  tracked ncs' ptr (r + 1).
Proof.
  intros Htr Hb. unfold GetOrCreate, GetOrCreate_fast, GetOrCreate_slow.
  destruct Htr as [[-> Hnone]|[Hpos (e & Hsome & Hrc)]].
  - rewrite Hnone.
    destruct (if decide (parent = NodeNil) then (None, ncs)
              else newChildForParentLocked ncs parent) as [[err|] ncs1];
      [discriminate|].
    intros [= <- <-]. right. split; [lia|].
    eexists. simpl. rewrite lookup_insert_eq. split; [done|]. simpl. lia.
  - rewrite Hsome. intros [= <- <-]. right. split; [lia|].
    eexists. simpl. rewrite lookup_insert_eq. split; [done|]. simpl.
    rewrite wrap_int_small; lia.
Qed.

Lemma forget_tracked ncs ptr n r :
  tracked ncs ptr r -> r < 2 ^ 63 ->
  handle_on ncs ptr n = true ->
  tracked (forget ncs n) ptr (if forget_effective ncs n then r - 1 else r).
Proof.
  intros Htr Hb. unfold handle_on, forget_effective, forget, forgetLocked.
  destruct (as_nodeStandard ncs n) as [[a ns]|] eqn:Has; [|discriminate].
  intros Hptr%bool_decide_eq_true. rewrite Hptr.
  assert (Hn : n = NodeStd a).
  { destruct n; simpl in Has; try discriminate.
    destruct (mem ncs !! a0); simpl in Has; congruence. }
  subst n.
  destruct Htr as [[-> Hnone]|[Hpos (e & Hsome & Hrc)]].
  - rewrite Hnone. by left.
  - rewrite Hsome.
    destruct (decide (NodeStd (node e) = NodeStd a)) as [Heq|Hne].
    + injection Heq as Heq. rewrite bool_decide_eq_true_2 by done.
      rewrite Hrc, wrap_int_small by lia.
      destruct (decide (r - 1 <= 0)).
      * left. split; [lia|]. simpl. apply lookup_delete_eq.
      * right. split; [lia|]. eexists. simpl. rewrite lookup_insert_eq.
        done.
    + rewrite bool_decide_eq_false_2 by congruence.
      right. eauto.
Qed.

Lemma run_ops_tracked ptr ops :
  forall ncs r ncs' g f,
    tracked ncs ptr r ->
    run_ops ptr ncs ops = Some (ncs', g, f) ->
    r + Z.of_nat g < 2 ^ 63 ->
    tracked ncs' ptr (r + Z.of_nat g - Z.of_nat f).
Proof.
  induction ops as [|[name parent|n] ops IH]; intros ncs r ncs' g f Htr Hrun Hb.
  - injection Hrun as <- <- <-.
    replace (r + Z.of_nat 0 - Z.of_nat 0) with r by lia. done.
  - simpl in Hrun.
    destruct (GetOrCreate ncs ptr name parent) as [[n [err|]] ncs1] eqn:Hg;
      [discriminate|].
    destruct (run_ops ptr ncs1 ops) as [[[s g'] f']|] eqn:Hr; [|discriminate].
    injection Hrun as <- <- <-.
    assert (Htr1 : tracked ncs1 ptr (r + 1))
      by (eapply GetOrCreate_tracked; eauto; lia).
    specialize (IH _ _ _ _ _ Htr1 Hr).
    replace (r + Z.of_nat (S g') - Z.of_nat f')
      with (r + 1 + Z.of_nat g' - Z.of_nat f') by lia.
    apply IH. lia.
  - simpl in Hrun.
    destruct (handle_on ncs ptr n) eqn:Hon; [|discriminate].
    destruct (run_ops ptr (forget ncs n) ops) as [[[s g'] f']|] eqn:Hr;
      [|discriminate].
    injection Hrun as <- <- <-.
    assert (Hr0 : 0 <= r) by (destruct Htr as [[-> _]|[? _]]; lia).
    pose proof (forget_tracked ncs ptr n r Htr ltac:(lia) Hon) as Htr1.
    specialize (IH _ _ _ _ _ Htr1 Hr).
    destruct (forget_effective ncs n).
    + replace (r + Z.of_nat g' - Z.of_nat (S f'))
        with (r - 1 + Z.of_nat g' - Z.of_nat f') by lia.
      apply IH. lia.
    + apply IH. lia.
Qed.

(** C2.  Start from a cache without an entry for [ptr] and run any sequence
    of successful [GetOrCreate] calls and of [forget] calls on [ptr], fewer
    than [2^63] of the former (the range of the counter).  Afterwards the
    entry exists if and only if there were more [GetOrCreate] calls than
    effective [forget] calls; in particular it is absent when the two
    numbers are equal. *)
Theorem entry_exists_iff_net_count_positive ptr ncs ops ncs' g f :
  nodes ncs !! ptr = None ->
  run_ops ptr ncs ops = Some (ncs', g, f) ->
  Z.of_nat g < 2 ^ 63 ->
  (is_Some (nodes ncs' !! ptr) <-> (f < g)%nat)
  /\ (g = f -> nodes ncs' !! ptr = None).
Proof.
  intros Hnone Hrun Hb.
  assert (Htr : tracked ncs ptr 0) by (by left).
  pose proof (run_ops_tracked ptr ops ncs 0 ncs' g f Htr Hrun ltac:(lia))
    as [[Hz Hn]|[Hpos (e & He & _)]].
  - split.
    + rewrite Hn. split; [intros [? ?]; discriminate | lia].
    + done.
  - split.
    + rewrite He. split; [lia | eauto].
    + lia.
Qed.

Lemma entry_exists_iff_net_count_positive_witness :
  nodes ex_tree !! 7%nat = None
  /\ (exists s, run_ops 7 ex_tree ex_ops = Some (s, 2%nat, 2%nat)
      /\ Z.of_nat 2 < 2 ^ 63
      /\ (is_Some (nodes s !! 7%nat) <-> (2 < 2)%nat)
      /\ (2%nat = 2%nat -> nodes s !! 7%nat = None)).
Proof.
  split; [reflexivity|].
  eexists. split; [vm_compute; reflexivity|].
  split; [lia|].
  eapply (entry_exists_iff_net_count_positive 7 ex_tree ex_ops).
  - reflexivity.
  - vm_compute. reflexivity.
  - lia.
Defined.

(** ** [Unlink] and [PathFromNode] *)

Lemma append_backwards_take p cached n :
  (n <= length cached)%nat ->
  append_backwards p cached n = p ++ reverse (take n cached).
Proof.
  revert p. induction n as [|i IH]; intros p Hn; simpl.
  - by rewrite take_0, reverse_nil, app_nil_r.
  - destruct (lookup_lt_is_Some_2 cached i ltac:(lia)) as [x Hx].
    rewrite Hx, IH by lia.
    rewrite (take_S_r _ _ _ Hx), reverse_snoc.
    by rewrite <- app_assoc.
Qed.

Lemma append_backwards_all p cached :
  append_backwards p cached (length cached) = p ++ reverse cached.
Proof. rewrite append_backwards_take by lia. by rewrite take_ge by lia. Qed.

Lemma reverse_loop_length n : forall p, length (reverse_loop p n) = length p.
Proof.
  induction n as [|i IH]; intros p; simpl; [done|].
  destruct (p !! i); [|done].
  destruct (p !! _); [|done].
  by rewrite IH, !length_insert.
Qed.

Lemma reverse_loop_lookup n :
  forall (p : list pathNode) j,
    (2 * n <= length p)%nat -> (j < length p)%nat ->
    reverse_loop p n !! j
    = if decide (j < n \/ length p - n <= j)%nat
      then p !! (length p - 1 - j)%nat else p !! j.
Proof.
  induction n as [|i IH]; intros p j Hn Hj; simpl.
  - rewrite decide_False by lia. done.
  - destruct (lookup_lt_is_Some_2 p i ltac:(lia)) as [x Hx].
    destruct (lookup_lt_is_Some_2 p (length p - 1 - i) ltac:(lia)) as [y Hy].
    rewrite Hx, Hy.
    rewrite IH by (rewrite ?length_insert; lia).
    rewrite !length_insert.
    rewrite !list_lookup_insert, !length_insert.
    repeat case_decide; try lia; try done.
    all: try (destruct_and?; subst; congruence).
    all: try (destruct_and?; subst; try lia).
    replace (length p - 1 - (length p - 1 - i))%nat with i by lia. done.
Qed.

Lemma reverse_loop_reverse (p : list pathNode) :
  reverse_loop p (length p / 2) = reverse p.
Proof.
  apply list_eq. intros j.
  destruct (decide (j < length p)%nat) as [Hj|Hj].
  - pose proof (Nat.Div0.mul_div_le (length p) 2) as Hd.
    pose proof (Nat.mul_succ_div_gt (length p) 2 ltac:(lia)) as Hd'.
    rewrite reverse_loop_lookup by lia.
    rewrite reverse_lookup by lia.
    case_decide.
    + f_equal. lia.
    + f_equal. lia.
  - rewrite !lookup_ge_None_2; [done| |].
    + rewrite length_reverse. lia.
    + rewrite reverse_loop_length. lia.
Qed.

Lemma forgetLocked_mem ncs n : mem (forgetLocked ncs n) = mem ncs.
Proof.
  unfold forgetLocked.
  destruct (as_nodeStandard ncs n) as [[a ns]|]; [|done].
  destruct (nodes ncs !! _); [|done].
  repeat case_decide; done.
Qed.

Lemma forgetLocked_id ncs n :
  id (forgetLocked ncs n) = id ncs /\ branch (forgetLocked ncs n) = branch ncs.
Proof.
  unfold forgetLocked.
  destruct (as_nodeStandard ncs n) as [[a ns]|]; [|done].
  destruct (nodes ncs !! _); [|done].
  repeat case_decide; done.
Qed.

Lemma Unlink_effect ncs ptr oldPath entry :
  nodes ncs !! ptr = Some entry ->
  let ncs' := Unlink ncs ptr oldPath in
  id ncs' = id ncs /\ branch ncs' = branch ncs
  /\ mem ncs'
     = alter (fun ns => set_Name EmptyString (set_parent NodeNil ns))
         (node entry) (alter (set_cachedPath oldPath) (node entry) (mem ncs)).
Proof.
  intros Hent. simpl. unfold Unlink. rewrite Hent. simpl.
  case_decide; simpl; [done|].
  rewrite forgetLocked_mem.
  destruct (forgetLocked_id
    (set_mem ncs (alter (set_cachedPath oldPath) (node entry) (mem ncs)))
    (default NodeNil
       (ns_parent <$>
          alter (set_cachedPath oldPath) (node entry) (mem ncs) !! node entry)))
    as [-> ->].
  done.
Qed.


Lemma walk_unlinked_first ncs top cp fuel :
  unlinked_at ncs top cp -> (0 < fuel)%nat ->
  PathFromNode_walk ncs fuel [] (NodeStd top) = Some (Returned cp).
Proof.
  intros (ns & Hm & Hp & Hc & Hne) Hf.
  destruct fuel as [|fuel]; [lia|]. simpl. rewrite Hm. simpl.
  rewrite decide_True.
  - by rewrite Hc.
  - split; [done|]. rewrite Hc. destruct (p_path cp); [done|simpl; lia].
Qed.

Lemma walk_below ncs top cp d steps :
  unlinked_at ncs top cp ->
  below (mem ncs) top d steps ->
  forall fuel acc,
    (length steps < fuel)%nat ->
    PathFromNode_walk ncs fuel acc (NodeStd d)
    = Some (LeftLoop (acc ++ reverse steps ++ reverse (p_path cp))).
Proof.
  intros (nt & Hm & Hp & Hc & Hne) Hb.
  induction Hb as [d ns Hd Hpar|d ns x steps Hd Hpar Hb IH];
    intros fuel acc Hf.
  - destruct fuel as [|fuel]; [simpl in Hf; lia|]. simpl. rewrite Hd. simpl.
    rewrite decide_False by (rewrite Hpar; intros [? _]; discriminate).
    rewrite Hpar.
    destruct fuel as [|fuel]; [simpl in Hf; lia|]. simpl. rewrite Hm. simpl.
    rewrite decide_True.
    + rewrite decide_False by (rewrite length_app; simpl; lia).
      rewrite Hc, append_backwards_all.
      by rewrite <- app_assoc.
    + split; [done|]. rewrite Hc. destruct (p_path cp); [done|simpl; lia].
  - destruct fuel as [|fuel]; [lia|]. simpl. rewrite Hd. simpl.
    rewrite decide_False by (rewrite Hpar; intros [? _]; discriminate).
    rewrite Hpar. rewrite IH.
    + rewrite reverse_snoc. by rewrite <- app_assoc.
    + rewrite length_app in Hf. simpl in Hf. lia.
Qed.

(** C3 (amended).  Let the cache have an entry for [ptr] whose node is
    allocated, and let [oldPath] have at least one step.  After
    [Unlink ptr oldPath], [PathFromNode] on a handle for that node returns
    exactly [oldPath]; and on a node still attached below it, it returns the
    steps of [oldPath] followed by the descendant's own steps in
    root-to-leaf order, under the cache's tree identity and branch.  Any
    bound on the walk larger than the number of the descendant's own steps
    suffices.  (The node of an entry is allocated in every state a cache
    goes through, see [cache_reachable_allocated].) *)
Theorem PathFromNode_after_Unlink ncs ptr oldPath entry :
  nodes ncs !! ptr = Some entry ->
  (node entry < length (mem ncs))%nat ->
  p_path oldPath <> [] ->
  let ncs' := Unlink ncs ptr oldPath in
  (forall fuel, (0 < fuel)%nat ->
     PathFromNode ncs' (NodeStd (node entry)) fuel = Some (oldPath, ncs'))
  /\ (forall d steps fuel,
        below (mem ncs') (node entry) d steps ->
        (length steps < fuel)%nat ->
        PathFromNode ncs' (NodeStd d) fuel
        = Some (Path (id ncs) (branch ncs) (p_path oldPath ++ steps), ncs')).
Proof.
  intros Hent Halloc Hne ncs'.
  destruct (Unlink_effect ncs ptr oldPath entry Hent) as (Hid & Hbr & Hmem).
  fold ncs' in Hid, Hbr, Hmem.
  assert (Hun : unlinked_at ncs' (node entry) oldPath).
  { destruct (lookup_lt_is_Some_2 (mem ncs) (node entry) Halloc) as [ns Hns].
    eexists. rewrite Hmem, !list_lookup_alter_eq, Hns. simpl. done. }
  split.
  - intros fuel Hf. unfold PathFromNode.
    by rewrite (walk_unlinked_first _ _ _ _ Hun Hf).
  - intros d steps fuel Hb Hf. unfold PathFromNode.
    rewrite (walk_below _ _ _ _ _ Hun Hb fuel [] Hf). simpl.
    rewrite reverse_loop_reverse, reverse_app, !reverse_involutive.
    by rewrite Hid, Hbr.
Qed.

Lemma PathFromNode_after_Unlink_witness :
  nodes ex_tree !! 20%nat = Some (NodeCacheEntry 1 2)
  /\ (1 < length (mem ex_tree))%nat
  /\ p_path ex_path <> []
  /\ PathFromNode (Unlink ex_tree 20 ex_path) (NodeStd 1) 1
     = Some (ex_path, Unlink ex_tree 20 ex_path)
  /\ below (mem (Unlink ex_tree 20 ex_path)) 1 2 [PathNode 30 "file"]
  /\ PathFromNode (Unlink ex_tree 20 ex_path) (NodeStd 2) 2
     = Some (Path 1 "master"
               [PathNode 10 "root"; PathNode 20 "dir"; PathNode 30 "file"],
             Unlink ex_tree 20 ex_path).
Proof.
  assert (Hb : below (mem (Unlink ex_tree 20 ex_path)) 1 2
                 [PathNode 30 "file"]).
  { apply (below_child _ _ 2%nat
             (NodeStandard (PathNode 30 "file") (NodeStd 1) zero_path));
      reflexivity. }
  destruct (PathFromNode_after_Unlink ex_tree 20 ex_path (NodeCacheEntry 1 2)
              eq_refl ltac:(vm_compute; lia) ltac:(discriminate)) as [H1 H2].
  split; [reflexivity|].
  split; [vm_compute; lia|].
  split; [discriminate|].
  split; [apply H1; lia|].
  split; [exact Hb|].
  apply (H2 2%nat [PathNode 30 "file"] 2%nat Hb). simpl. lia.
Defined.

(** C3 as stated fails for a frozen path without steps: the walk only
    splices a frozen path that is not empty, so it returns the single step
    of the unlinked node, not [oldPath]. *)
Lemma PathFromNode_after_Unlink_empty_path :
  ~ (forall ncs ptr oldPath entry fuel,
       nodes ncs !! ptr = Some entry ->
       (node entry < length (mem ncs))%nat ->
       (0 < fuel)%nat ->
       PathFromNode (Unlink ncs ptr oldPath) (NodeStd (node entry)) fuel
       = Some (oldPath, Unlink ncs ptr oldPath)).
Proof.
  intros H.
  specialize (H ex_tree 30%nat zero_path (NodeCacheEntry 2 1) 1%nat eq_refl).
  specialize (H ltac:(vm_compute; lia) ltac:(lia)).
  vm_compute in H. discriminate.
Qed.

(** ** The entries of a cache point to allocated nodes *)

Lemma forgetLocked_allocated ncs n :
  entries_allocated ncs -> entries_allocated (forgetLocked ncs n).
Proof.
  intros H. unfold forgetLocked.
  destruct (as_nodeStandard ncs n) as [[a ns]|]; [|done].
  destruct (nodes ncs !! _) as [entry|] eqn:He; [|done].
  repeat case_decide; try done; intros p e; simpl.
  - intros [_ Hp]%lookup_delete_Some. by eapply H.
  - intros [[_ <-]|[_ Hp]]%lookup_insert_Some; simpl; by eapply H.
Qed.

Lemma newChildForParentLocked_allocated ncs parent :
  entries_allocated ncs ->
  entries_allocated (newChildForParentLocked ncs parent).2
  /\ mem (newChildForParentLocked ncs parent).2 = mem ncs.
Proof.
  intros H. unfold newChildForParentLocked.
  destruct (as_nodeStandard ncs parent) as [[a ns]|]; [|done].
  destruct (nodes ncs !! _) as [entry|] eqn:He; [|done].
  case_decide; [|done]. split; [|done]. intros p e. simpl.
  intros [[_ <-]|[_ Hp]]%lookup_insert_Some; simpl; by eapply H.
Qed.

Lemma do_call_allocated ncs c :
  entries_allocated ncs -> entries_allocated (do_call ncs c).
Proof.
  intros H. destruct c as [ptr name parent|n|oldPtr newPtr|ptr np nn|ptr op];
    simpl.
  - unfold GetOrCreate, GetOrCreate_fast, GetOrCreate_slow.
    destruct (nodes ncs !! ptr) as [entry|] eqn:He; simpl.
    + intros p e. simpl.
      intros [[_ <-]|[_ Hp]]%lookup_insert_Some; simpl; by eapply H.
    + destruct (newChildForParentLocked_allocated ncs parent H) as [H1 Hm].
      destruct (decide (parent = NodeNil)) as [Hnil|Hnn].
      * intros p e. simpl. rewrite length_app. simpl.
        intros [[_ <-]|[_ Hp]]%lookup_insert_Some; simpl; [lia|].
        apply H in Hp. lia.
      * destruct (newChildForParentLocked ncs parent) as [[err|] ncs1];
          simpl in *; [done|].
        intros p e. simpl. rewrite length_app. simpl.
        intros [[_ <-]|[_ Hp]]%lookup_insert_Some; simpl; [lia|].
        apply H1 in Hp. lia.
  - by apply forgetLocked_allocated.
  - unfold UpdatePointer.
    destruct (nodes ncs !! oldPtr) as [entry|] eqn:He; [|done].
    intros p e. simpl. rewrite length_alter.
    intros [[_ <-]|[_ [_ Hp]%lookup_delete_Some]]%lookup_insert_Some;
      by eapply H.
  - unfold Move.
    destruct (nodes ncs !! ptr) as [entry|] eqn:He; [|done].
    destruct (newChildForParentLocked_allocated ncs np H) as [H1 Hm].
    destruct (newChildForParentLocked ncs np) as [[err|] ncs1]; simpl in *;
      [done|].
    intros p e. simpl. rewrite length_alter.
    case_decide; [by apply H1|].
    rewrite forgetLocked_mem. intros Hp.
    rewrite <- (forgetLocked_mem ncs1
                  (default NodeNil (ns_parent <$> mem ncs1 !! node entry))).
    by eapply forgetLocked_allocated.
  - unfold Unlink.
    destruct (nodes ncs !! ptr) as [entry|] eqn:He; [|done].
    assert (H1 : entries_allocated
                   (set_mem ncs (alter (set_cachedPath op) (node entry)
                                   (mem ncs)))).
    { intros p e. simpl. rewrite length_alter. by apply H. }
    intros p e. simpl. rewrite length_alter.
    case_decide; [by apply H1|].
    intros Hp. eapply forgetLocked_allocated in Hp; [|exact H1].
    by rewrite forgetLocked_mem in *.
Qed.

(** In every state a cache goes through, the node of every entry is
    allocated. *)
Lemma cache_reachable_allocated ncs :
  cache_reachable ncs -> entries_allocated ncs.
Proof.
  intros (i & b & calls & ->).
  induction calls as [|c calls IH] using rev_ind.
  - intros p e. simpl. by rewrite lookup_empty.
  - rewrite foldl_app. simpl. by apply do_call_allocated.
Qed.

End NodeCacheProofs.

(* ===================================================================== *)
(** * Properties of the retrieval queue *)
(* ===================================================================== *)

Module RetrievalQueueProofs.
Import RetrievalQueue RetrievalQueueSpec.

(** ** The order of the heap *)

Ltac less_tac :=
  unfold not_after, Less in *;
  repeat match goal with
         | |- context [key ?rs ?a] => destruct (key rs a) as [? ?]
         | H : context [key ?rs ?a] |- _ => destruct (key rs a) as [? ?]
         end;
  repeat match goal with
         | H : context [?x <? ?y] |- _ => destruct (Z.ltb_spec x y)
         | |- context [?x <? ?y] => destruct (Z.ltb_spec x y)
         end;
  try done; try lia.

Lemma not_after_trans rs a b c :
  not_after rs a b -> not_after rs b c -> not_after rs a c.
Proof. less_tac. Qed.

Lemma Less_not_after rs a b : Less rs a b = true -> not_after rs a b.
Proof. less_tac. Qed.

Lemma Less_key_ext rs rs' a b :
  key rs a = key rs' a -> key rs b = key rs' b -> Less rs a b = Less rs' a b.
Proof. unfold Less. by intros -> ->. Qed.

Lemma place_perm rs a h : place rs a h ≡ₚ a :: h.
Proof.
  induction h as [|b h IH]; simpl; [done|].
  destruct (Less rs a b); [done|].
  rewrite IH. apply perm_swap.
Qed.

Lemma place_sorted rs a h : sorted rs h -> sorted rs (place rs a h).
Proof.
  unfold sorted. induction 1 as [|b h Hs IH Hall]; simpl.
  - repeat constructor.
  - destruct (Less rs a b) eqn:Hab.
    + constructor; [by constructor|].
      constructor; [by apply Less_not_after|].
      eapply Forall_impl; [exact Hall|].
      intros c Hc. eapply not_after_trans; [|exact Hc].
      by apply Less_not_after.
    + constructor; [done|].
      rewrite place_perm. by constructor.
Qed.

Lemma sorted_delete rs h i : sorted rs h -> sorted rs (delete i h).
Proof.
  unfold sorted. intros Hs. revert i.
  induction Hs as [|b h Hs IH Hall]; intros [|i]; simpl.
  - constructor.
  - constructor.
  - done.
  - constructor; [apply IH|].
    rewrite Forall_forall in *. intros x Hx.
    apply Hall. by eapply list_elem_of_delete_inv.
Qed.

Lemma sorted_key_ext rs rs' h :
  (forall x, x ∈ h -> key rs x = key rs' x) -> sorted rs h -> sorted rs' h.
Proof.
  unfold sorted. intros Hk Hs.
  induction Hs as [|b h Hs IH Hall]; [constructor|].
  constructor.
  - apply IH. intros x Hx. apply Hk. by right.
  - rewrite Forall_forall in *. intros x Hx.
    unfold not_after.
    rewrite <- (Less_key_ext rs rs'); [by apply Hall| |].
    + apply Hk. by right.
    + apply Hk. by left.
Qed.

Lemma sorted_head rs a h b : sorted rs (a :: h) -> b ∈ h -> not_after rs a b.
Proof.
  unfold sorted. intros Hs Hb.
  apply StronglySorted_inv in Hs as [_ Hall].
  rewrite Forall_forall in Hall. by apply Hall.
Qed.

Lemma NoDup_delete_lookup (h : list ref) i a :
  NoDup h -> h !! i = Some a -> a ∉ delete i h.
Proof.
  intros Hnd Hi [j Hj]%list_elem_of_lookup_1.
  destruct (decide (j < i)%nat).
  - rewrite list_lookup_delete_lt in Hj by done.
    pose proof (NoDup_lookup _ _ _ _ Hnd Hi Hj). lia.
  - rewrite list_lookup_delete_ge in Hj by lia.
    pose proof (NoDup_lookup _ _ _ _ Hnd Hi Hj). lia.
Qed.

(** ** Positions *)

Lemma reindex_length h : forall rs k, length (reindex rs h k) = length rs.
Proof.
  induction h as [|a h IH]; intros rs k; simpl; [done|].
  by rewrite IH, length_alter.
Qed.

Lemma alter_set_index_core (rs : list blockRetrieval) (a : nat) i (x : nat) :
  core <$> alter (set_index i) a rs !! x = core <$> rs !! x.
Proof.
  destruct (decide (a = x)) as [->|Hne].
  - rewrite list_lookup_alter_eq. by destruct (rs !! x).
  - by rewrite list_lookup_alter_ne.
Qed.

Lemma reindex_core h : forall rs k (x : nat),
  core <$> reindex rs h k !! x = core <$> rs !! x.
Proof.
  induction h as [|a h IH]; intros rs k x; simpl; [done|].
  by rewrite IH, alter_set_index_core.
Qed.

Lemma reindex_notin h : forall rs k (x : nat),
  x ∉ h -> reindex rs h k !! x = rs !! x.
Proof.
  induction h as [|a h IH]; intros rs k x Hx; simpl; [done|].
  rewrite not_elem_of_cons in Hx. destruct Hx as [Hne Hx].
  rewrite IH by done. by rewrite list_lookup_alter_ne.
Qed.

Lemma reindex_indexed h : forall rs k i a,
  NoDup h -> (forall x, x ∈ h -> (x < length rs)%nat) ->
  h !! i = Some a ->
  index <$> reindex rs h k !! a = Some (Z.of_nat (k + i)).
Proof.
  induction h as [|b h IH]; intros rs k i a Hnd Hal Hi; [done|].
  apply NoDup_cons in Hnd as [Hb Hnd]. simpl.
  destruct i as [|i]; simpl in Hi.
  - injection Hi as ->.
    rewrite reindex_notin by done.
    rewrite list_lookup_alter_eq.
    destruct (lookup_lt_is_Some_2 rs a) as [br ->]; [apply Hal; by left|].
    simpl. do 2 f_equal. lia.
  - rewrite (IH _ (S k) i a); [do 2 f_equal; lia|done| |done].
    intros x Hx. rewrite length_alter. apply Hal. by right.
Qed.

Lemma key_core (rs rs' : list blockRetrieval) (a : nat) :
  core <$> rs !! a = core <$> rs' !! a -> key rs a = key rs' a.
Proof.
  unfold key. destruct (rs !! a), (rs' !! a); simpl; intros [=]; congruence.
Qed.

(** ** The heap operations keep the invariant *)

Lemma indexed_allocated rs h x : indexed rs h -> x ∈ h -> (x < length rs)%nat.
Proof.
  intros Hi [i Hx]%list_elem_of_lookup_1.
  specialize (Hi i x Hx).
  apply lookup_lt_is_Some. destruct (rs !! x); [eauto|discriminate].
Qed.

Lemma key_ikey (rs rs' : list blockRetrieval) (a : nat) :
  ikey <$> rs !! a = ikey <$> rs' !! a -> key rs a = key rs' a.
Proof.
  unfold key. destruct (rs !! a), (rs' !! a); simpl; intros [=]; congruence.
Qed.

Lemma heap_ok_ext rs rs' h :
  (forall x, x ∈ h -> ikey <$> rs !! x = ikey <$> rs' !! x) ->
  heap_ok rs h -> heap_ok rs' h.
Proof.
  intros Hx [Hnd Hi Hs]. split; [done| |].
  - intros i a Ha. specialize (Hi i a Ha).
    specialize (Hx a (list_elem_of_lookup_2 _ _ _ Ha)).
    destruct (rs !! a), (rs' !! a); simpl in *; try discriminate.
    injection Hx as Hx _ _. congruence.
  - eapply sorted_key_ext; [|exact Hs].
    intros x Hin. by apply key_ikey, Hx.
Qed.

Lemma reindex_heap_ok rs h :
  NoDup h -> (forall x, x ∈ h -> (x < length rs)%nat) -> sorted rs h ->
  heap_ok (reindex rs h 0) h.
Proof.
  intros Hnd Hal Hs. split; [done| |].
  - intros i a Ha. by rewrite (reindex_indexed h rs 0%nat i a).
  - eapply sorted_key_ext; [|exact Hs].
    intros x _. apply key_core. by rewrite reindex_core.
Qed.

Lemma heap_Push_ok rs h a :
  heap_ok rs h -> a ∉ h -> (a < length rs)%nat ->
  heap_ok (heap_Push rs h a).1 (heap_Push rs h a).2
  /\ (heap_Push rs h a).2 ≡ₚ a :: h
  /\ length (heap_Push rs h a).1 = length rs
  /\ forall x : nat,
       core <$> (heap_Push rs h a).1 !! x = core <$> rs !! x.
Proof.
  intros [Hnd Hi Hs] Ha Hlt. unfold heap_Push. simpl.
  split; [|split; [apply place_perm|split;
                   [apply reindex_length|intros; apply reindex_core]]].
  apply reindex_heap_ok.
  - rewrite place_perm. by constructor.
  - intros x. rewrite place_perm. intros [->|Hx]%elem_of_cons; [done|].
    by eapply indexed_allocated.
  - by apply place_sorted.
Qed.

Lemma heap_Fix_ok rs h i :
  NoDup h -> indexed rs h ->
  (forall a, 0 <= i -> h !! Z.to_nat i = Some a ->
             sorted rs (delete (Z.to_nat i) h)) ->
  (i < 0 \/ h !! Z.to_nat i = None -> sorted rs h) ->
  heap_ok (heap_Fix rs h i).1 (heap_Fix rs h i).2
  /\ (heap_Fix rs h i).2 ≡ₚ h
  /\ length (heap_Fix rs h i).1 = length rs
  /\ forall x : nat, core <$> (heap_Fix rs h i).1 !! x = core <$> rs !! x.
Proof.
  intros Hnd Hi Hin Hout. unfold heap_Fix.
  destruct (decide (0 <= i)) as [Hpos|Hneg].
  - destruct (h !! Z.to_nat i) as [a|] eqn:Ha; simpl.
    + assert (Hperm : place rs a (delete (Z.to_nat i) h) ≡ₚ h).
      { rewrite place_perm. symmetry. by apply delete_Permutation. }
      split; [|split; [done|split;
                       [apply reindex_length|intros; apply reindex_core]]].
      apply reindex_heap_ok.
      * by rewrite Hperm.
      * intros x. rewrite Hperm. intros Hx. by eapply indexed_allocated.
      * apply place_sorted. by eapply Hin.
    + split; [|done]. split; [done|done|]. apply Hout. by right.
  - simpl. split; [|done]. split; [done|done|]. apply Hout. lia.
Qed.

Lemma heap_Pop_ok rs h a rs' h' :
  heap_ok rs h -> heap_Pop rs h = Some (a, rs', h') ->
  h = a :: h'
  /\ heap_ok rs' h'
  /\ length rs' = length rs
  /\ (forall x : nat, core <$> rs' !! x = core <$> rs !! x)
  /\ (forall b, b ∈ h' -> not_after rs a b).
Proof.
  intros [Hnd Hi Hs] Hpop. unfold heap_Pop in Hpop.
  destruct h as [|a0 h0]; [discriminate|].
  injection Hpop as -> <- ->.
  apply NoDup_cons in Hnd as [Ha Hnd].
  split; [done|].
  split; [|split; [|split]].
  - apply reindex_heap_ok; [done| |].
    + intros x Hx. rewrite length_alter.
      eapply indexed_allocated; [exact Hi|by right].
    + eapply sorted_key_ext; [|exact (sorted_delete _ _ 0%nat Hs)].
      intros x _. apply key_core. by rewrite alter_set_index_core.
  - by rewrite reindex_length, length_alter.
  - intros x. by rewrite reindex_core, alter_set_index_core.
  - intros b Hb. by eapply sorted_head.
Qed.

(** ** [Request] *)

Lemma indexed_position rs h a i j :
  indexed rs h -> h !! j = Some a -> index <$> rs !! a = Some i ->
  i = Z.of_nat j.
Proof. intros Hi Hj Ha. specialize (Hi j a Hj). congruence. Qed.

Lemma Request_existing_spec q c prio ptr blk a :
  heap_wf q -> ptrs q !! ptr = Some a ->
  let q' := (Request q c prio ptr blk).2 in
  heap_wf q'
  /\ ptrs q' = ptrs q
  /\ length (retrievals q') = length (retrievals q)
  /\ core <$> retrievals q' !! a
     = joined (BlockRetrievalRequest c blk (nextChan q)) prio
         <$> retrievals q !! a
  /\ (forall x : nat, x <> a ->
        core <$> retrievals q' !! x = core <$> retrievals q !! x)
  /\ heap q' ≡ₚ heap q
  /\ notifiers q' = notifiers q
  /\ insertionCount q' = insertionCount q
  /\ same_workers q q'.
Proof.
  intros [[Hnd Hi Hs] Hal] Hp. simpl. unfold Request. rewrite Hp.
  set (r := BlockRetrievalRequest c blk (nextChan q)).
  set (rs := retrievals q) in *. set (h := heap q) in *.
  destruct (lookup_lt_is_Some_2 rs a (Hal _ _ Hp)) as [br Hbr].
  rewrite list_lookup_alter_eq, Hbr. simpl.
  destruct (decide (priority br < prio)) as [Hlt|Hge].
  - set (rs3 := alter (set_priority prio) a (alter (add_request r) a rs)).
    assert (Hik : forall x : nat, x <> a -> rs3 !! x = rs !! x).
    { intros x Hx. unfold rs3. by rewrite !list_lookup_alter_ne. }
    assert (Ha3 : rs3 !! a = Some (set_priority prio (add_request r br))).
    { unfold rs3. by rewrite !list_lookup_alter_eq, Hbr. }
    assert (Hi3 : indexed rs3 h).
    { intros i x Hx. destruct (decide (x = a)) as [->|Hne].
      - rewrite Ha3. simpl. specialize (Hi i a Hx). by rewrite Hbr in Hi.
      - rewrite Hik by done. by apply Hi. }
    assert (Hk3 : forall l, a ∉ l -> sorted rs l -> sorted rs3 l).
    { intros l Hl. apply sorted_key_ext. intros x Hx.
      unfold key. rewrite Hik; [done|]. intros ->. done. }
    destruct (heap_Fix_ok rs3 h (index br) Hnd Hi3)
      as (Hok & Hperm & Hlen & Hcore).
    + intros x Hpos Hx. apply Hk3; [|by apply sorted_delete].
      destruct (decide (a ∈ h)) as [[j Hj]%list_elem_of_lookup_1|Hnin].
      * pose proof (indexed_position rs h a (index br) j Hi Hj
                      ltac:(by rewrite Hbr)) as Hij.
        rewrite Hij, Nat2Z.id. by apply NoDup_delete_lookup.
      * intros Hin. apply Hnin. by eapply list_elem_of_delete_inv.
    + intros Hout. apply Hk3; [|done].
      intros [j Hj]%list_elem_of_lookup_1.
      pose proof (indexed_position rs h a (index br) j Hi Hj
                    ltac:(by rewrite Hbr)) as Hij.
      rewrite Hij, Nat2Z.id in Hout. destruct Hout; [lia|congruence].
    + destruct (heap_Fix rs3 h (index br)) as [rs4 h4]. simpl in *.
      assert (Hlen3 : length rs3 = length rs)
        by (unfold rs3; by rewrite !length_alter).
      split; [split; [done|]|].
      { intros p x Hx. simpl in *. rewrite Hlen, Hlen3. by eapply Hal. }
      split; [done|]. split; [congruence|].
      split.
      { simpl. rewrite Hcore, Ha3. simpl. unfold core, joined. simpl.
        by rewrite Z.max_r by lia. }
      split.
      { intros x Hx. simpl. by rewrite Hcore, Hik. }
      repeat split; done.
  - simpl.
    set (rs2 := alter (add_request r) a rs).
    assert (Hik : forall x : nat, ikey <$> rs !! x = ikey <$> rs2 !! x).
    { intros x. unfold rs2. destruct (decide (a = x)) as [->|Hne].
      - rewrite list_lookup_alter_eq. by destruct (rs !! x).
      - by rewrite list_lookup_alter_ne. }
    split; [split|].
    { eapply heap_ok_ext; [|by split]. intros x _. apply Hik. }
    { intros p x Hx. simpl in *. unfold rs2. rewrite length_alter.
      by eapply Hal. }
    split; [done|]. split; [by simpl; unfold rs2; rewrite length_alter|].
    split.
    { simpl. unfold rs2. rewrite list_lookup_alter_eq, Hbr. simpl.
      unfold core, joined. simpl. by rewrite Z.max_l by lia. }
    split.
    { intros x Hx. simpl. unfold rs2. by rewrite list_lookup_alter_ne. }
    repeat split; done.
Qed.

Lemma Request_new_spec q c prio ptr blk :
  heap_wf q -> ptrs q !! ptr = None ->
  let q' := (Request q c prio ptr blk).2 in
  let a := length (retrievals q) in
  heap_wf q'
  /\ ptrs q' = <[ptr := a]> (ptrs q)
  /\ length (retrievals q') = S a
  /\ core <$> retrievals q' !! a
     = Some (ptr, prio, insertionCount q,
             [BlockRetrievalRequest c blk (nextChan q)])
  /\ (forall x : nat, x <> a ->
        core <$> retrievals q' !! x = core <$> retrievals q !! x)
  /\ heap q' ≡ₚ a :: heap q
  /\ notifiers q' = S (notifiers q)
  /\ insertionCount q' = wrap_uint64 (insertionCount q + 1)
  /\ same_workers q q'.
Proof.
  intros [[Hnd Hi Hs] Hal] Hp. simpl. unfold Request. rewrite Hp.
  set (r := BlockRetrievalRequest c blk (nextChan q)).
  set (rs := retrievals q) in *. set (h := heap q) in *.
  set (new := BlockRetrieval ptr (-1) prio (insertionCount q) []).
  assert (Hh : forall x, x ∈ h -> (x < length rs)%nat)
    by (intros x; by apply indexed_allocated).
  assert (HokA : heap_ok (rs ++ [new]) h).
  { eapply heap_ok_ext; [|by split]. intros x Hx.
    by rewrite lookup_app_l by by apply Hh. }
  assert (Hfresh : length rs ∉ h) by (intros Hx%Hh; lia).
  assert (Hin : (length rs < length (rs ++ [new]))%nat)
    by (rewrite length_app; simpl; lia).
  destruct (heap_Push_ok (rs ++ [new]) h (length rs) HokA Hfresh Hin)
    as (Hok & Hperm & Hlen & Hcore).
  destruct (heap_Push (rs ++ [new]) h (length rs)) as [rs' h']. simpl in *.
  assert (Hx : exists x, rs' !! length rs = Some x /\ core x = core new).
  { specialize (Hcore (length rs)).
    rewrite lookup_app_r, Nat.sub_diag in Hcore by lia. simpl in Hcore.
    destruct (rs' !! length rs) as [x|]; [|discriminate].
    apply (inj Some) in Hcore. eauto. }
  destruct Hx as (x & Hx & Hcx).
  rewrite list_lookup_alter_eq, Hx. simpl.
  assert (Hpx : priority x = prio).
  { unfold core in Hcx. simpl in Hcx. by injection Hcx as _ -> _ _. }
  rewrite decide_False by lia. simpl.
  set (rs2 := alter (add_request r) (length rs) rs').
  assert (Hik : forall y : nat, ikey <$> rs' !! y = ikey <$> rs2 !! y).
  { intros y. unfold rs2. destruct (decide (length rs = y)) as [<-|Hne].
    - rewrite list_lookup_alter_eq. by destruct (rs' !! length rs).
    - by rewrite list_lookup_alter_ne. }
  assert (Hlen2 : length rs2 = S (length rs)).
  { unfold rs2. rewrite length_alter, Hlen, length_app. simpl. lia. }
  split; [split|].
  { eapply heap_ok_ext; [|exact Hok]. intros y _. apply Hik. }
  { intros p y. simpl. rewrite Hlen2.
    intros [[_ <-]|[_ Hy]]%lookup_insert_Some.
    - lia.
    - apply Hal in Hy. lia. }
  split; [done|]. split; [done|].
  split.
  { simpl. unfold rs2. rewrite list_lookup_alter_eq, Hx. simpl.
    unfold core in Hcx |- *. simpl in Hcx |- *.
    injection Hcx as H1 H2 H3 H4. by rewrite H1, H2, H3, H4. }
  split.
  { intros y Hy. simpl. unfold rs2. rewrite list_lookup_alter_ne by done.
    rewrite Hcore.
    destruct (decide (y < length rs)%nat).
    - by rewrite lookup_app_l.
    - rewrite !lookup_ge_None_2; [done|lia|].
      rewrite length_app. simpl. lia. }
  repeat split; done.
Qed.

Lemma wf_heap_wf q : wf q -> heap_wf q.
Proof.
  intros [Hok Hreg]. split; [done|]. intros p a Hp.
  specialize (Hreg p a Hp). apply lookup_lt_is_Some.
  destruct (retrievals q !! a); [eauto|discriminate].
Qed.

Lemma core_blockPtr (x y : option blockRetrieval) :
  core <$> x = core <$> y -> blockPtr <$> x = blockPtr <$> y.
Proof.
  destruct x, y; simpl; intros [=]; try done. unfold core in *. congruence.
Qed.

Lemma joined_blockPtr r prio (x y : option blockRetrieval) :
  core <$> x = joined r prio <$> y -> blockPtr <$> x = blockPtr <$> y.
Proof.
  destruct x, y; simpl; intros [=]; try done. congruence.
Qed.

Lemma Request_effect q c prio ptr blk :
  wf q ->
  let q' := (Request q c prio ptr blk).2 in
  wf q'
  /\ (length (retrievals q) <= length (retrievals q'))%nat
  /\ ptrs q' = <[ptr := target q ptr]> (ptrs q)
  /\ core <$> retrievals q' !! target q ptr
     = joined (BlockRetrievalRequest c blk (nextChan q)) prio
         <$> found q prio ptr
  /\ (forall x : nat, x <> target q ptr ->
        core <$> retrievals q' !! x = core <$> retrievals q !! x)
  /\ same_workers q q'.
Proof.
  intros Hwf. pose proof (wf_heap_wf q Hwf) as Hhwf.
  destruct Hwf as [_ Hreg]. simpl. unfold target, found.
  destruct (ptrs q !! ptr) as [a|] eqn:Hp; simpl.
  - destruct (Request_existing_spec q c prio ptr blk a Hhwf Hp)
      as ([Hok' _] & Hptrs & Hlen & Hca & Hcx & _ & _ & _ & Hsw).
    split; [split; [done|]|].
    { intros p x. rewrite Hptrs. intros Hx.
      destruct (decide (x = a)) as [->|Hne].
      - rewrite (joined_blockPtr _ _ _ _ Hca). by apply Hreg.
      - rewrite (core_blockPtr _ _ (Hcx x Hne)). by apply Hreg. }
    split; [rewrite Hlen; lia|]. split; [by rewrite Hptrs, insert_id|].
    done.
  - destruct (Request_new_spec q c prio ptr blk Hhwf Hp)
      as ([Hok' _] & Hptrs & Hlen & Hca & Hcx & _ & _ & _ & Hsw).
    split; [split; [done|]|].
    { intros p x. rewrite Hptrs.
      intros [[<- <-]|[Hne Hx]]%lookup_insert_Some.
      - destruct (retrievals _ !! length _) as [y|]; [|discriminate].
        simpl in *. unfold core in Hca. by injection Hca as -> _ _ _.
      - destruct Hhwf as [_ Hal]. pose proof (Hal _ _ Hx).
        rewrite (core_blockPtr _ _ (Hcx x ltac:(lia))). by apply Hreg. }
    split. { rewrite Hlen. lia. }
    split. { done. }
    split. { rewrite Hca. unfold joined. simpl. by rewrite Z.max_id. }
    done.
Qed.

(** ** The invariants along a run *)

Lemma FinalizeRequest_wf q ptr : wf q -> wf (FinalizeRequest q ptr).
Proof.
  intros [Hok Hreg]. split; [done|].
  intros p a. simpl. intros [_ Hp]%lookup_delete_Some. by apply Hreg.
Qed.

(** The steps other than [Request] leave every record as it is, up to its
    heap position, and only [FinalizeRequest] changes the map. *)
Lemma other_step_effect a0 q q' :
  wf q -> step a0 q = Some q' ->
  (forall c prio ptr blk, a0 <> ARequest c prio ptr blk) ->
  wf q'
  /\ length (retrievals q') = length (retrievals q)
  /\ (forall x : nat,
        core <$> retrievals q' !! x = core <$> retrievals q !! x)
  /\ ptrs q'
     = match a0 with
       | AFinalizeRequest ptr => delete ptr (ptrs q)
       | _ => ptrs q
       end
  /\ insertionCount q' = insertionCount q.
Proof.
  intros Hwf Hstep Hne.
  destruct a0 as [c prio ptr blk| | |k|ptr]; simpl in Hstep.
  - by destruct (Hne c prio ptr blk).
  - unfold WorkOnRequest in Hstep.
    destruct (decide _); simpl in Hstep.
    + injection Hstep as <-. by destruct Hwf.
    + destruct (numWorkers q), (notifiers q); simpl in Hstep; try discriminate.
      injection Hstep as <-. by destruct Hwf.
  - unfold notifyWorker_receive in Hstep.
    destruct (notifiers q), (workerQueue q); try discriminate.
    injection Hstep as <-. by destruct Hwf.
  - unfold notifyWorker_pop in Hstep.
    destruct (claimed q !! k) as [ch|]; [|discriminate].
    destruct (heap_Pop (retrievals q) (heap q)) as [[[br rs] h]|] eqn:Hpop;
      [|discriminate].
    injection Hstep as <-. destruct Hwf as [Hok Hreg].
    destruct (heap_Pop_ok _ _ _ _ _ Hok Hpop) as (_ & Hok' & Hlen & Hcore & _).
    split; [split; [done|]|done].
    intros p a Hp. simpl in *. rewrite (core_blockPtr _ _ (Hcore a)).
    by apply Hreg.
  - injection Hstep as <-.
    split; [by apply FinalizeRequest_wf|done].
Qed.

(** Such a step adds nothing to the map. *)
Lemma other_step_lookup a0 q q' p (x : nat) :
  wf q -> step a0 q = Some q' ->
  (forall c prio ptr blk, a0 <> ARequest c prio ptr blk) ->
  ptrs q' !! p = Some x -> ptrs q !! p = Some x.
Proof.
  intros Hwf Hstep Hoth.
  destruct (other_step_effect _ _ _ Hwf Hstep Hoth) as (_ & _ & _ & -> & _).
  destruct a0; try done. by intros [_ ?]%lookup_delete_Some.
Qed.

(** A step is a [Request] or it is not. *)
Lemma action_cases (a0 : action) :
  (exists c prio p blk, a0 = ARequest c prio p blk)
  \/ (forall c prio p blk, a0 <> ARequest c prio p blk).
Proof. destruct a0; [left; by do 4 eexists|right; done..]. Qed.

Lemma step_wf a0 q q' : wf q -> step a0 q = Some q' -> wf q'.
Proof.
  intros Hwf Hstep.
  destruct a0 as [c prio ptr blk| | |k|ptr];
    try (eapply other_step_effect; by eauto).
  simpl in Hstep. injection Hstep as <-. by apply Request_effect.
Qed.

Lemma run_wf acts : forall q q', wf q -> run acts q = Some q' -> wf q'.
Proof.
  induction acts as [|a0 acts IH]; intros q q' Hwf Hrun; simpl in Hrun.
  - by injection Hrun as <-.
  - destruct (step a0 q) as [q1|] eqn:Hstep; [|discriminate].
    eapply IH; [|exact Hrun]. by eapply step_wf.
Qed.

Lemma newBlockRetrievalQueue_wf n : wf (newBlockRetrievalQueue n).
Proof.
  split.
  - split; simpl; [constructor|by intros i a|constructor].
  - intros p a. simpl. by rewrite lookup_empty.
Qed.

Lemma reachable_wf q : reachable q -> wf q.
Proof.
  intros (n & acts & Hrun).
  eapply run_wf; [apply newBlockRetrievalQueue_wf|exact Hrun].
Qed.

Lemma step_balanced a0 q q' :
  wf q -> balanced q -> step a0 q = Some q' -> balanced q'.
Proof.
  unfold balanced. intros Hwf Hb Hstep.
  destruct a0 as [c prio ptr blk| | |k|ptr]; simpl in Hstep.
  - injection Hstep as <-. apply wf_heap_wf in Hwf.
    destruct (ptrs q !! ptr) as [a|] eqn:Hp.
    + destruct (Request_existing_spec q c prio ptr blk a Hwf Hp)
        as (_ & _ & _ & _ & _ & Hperm & Hn & _ & _ & _ & Hc & _).
      by rewrite Hperm, Hn, Hc.
    + destruct (Request_new_spec q c prio ptr blk Hwf Hp)
        as (_ & _ & _ & _ & _ & Hperm & Hn & _ & _ & _ & Hc & _).
      rewrite Hperm, Hn, Hc. simpl. lia.
  - unfold WorkOnRequest in Hstep.
    destruct (decide _); simpl in Hstep.
    + by injection Hstep as <-.
    + destruct (numWorkers q), (notifiers q); simpl in Hstep; try discriminate.
      injection Hstep as <-. simpl. rewrite length_app. simpl. lia.
  - unfold notifyWorker_receive in Hstep.
    destruct (notifiers q), (workerQueue q); try discriminate.
    injection Hstep as <-. simpl. rewrite length_app. simpl. lia.
  - unfold notifyWorker_pop in Hstep.
    destruct (claimed q !! k) as [ch|] eqn:Hk; [|discriminate].
    unfold heap_Pop in Hstep. destruct (heap q) as [|a h]; [discriminate|].
    injection Hstep as <-. simpl in *.
    pose proof (lookup_lt_Some _ _ _ Hk).
    rewrite length_delete by eauto. lia.
  - by injection Hstep as <-.
Qed.

Lemma run_balanced acts : forall q q',
  wf q -> balanced q -> run acts q = Some q' -> balanced q'.
Proof.
  induction acts as [|a0 acts IH]; intros q q' Hwf Hb Hrun; simpl in Hrun.
  - by injection Hrun as <-.
  - destruct (step a0 q) as [q1|] eqn:Hstep; [|discriminate].
    eapply (IH q1); [by eapply step_wf|by eapply step_balanced|done].
Qed.

Lemma reachable_balanced q : reachable q -> balanced q.
Proof.
  intros (n & acts & Hrun).
  eapply run_balanced; [apply newBlockRetrievalQueue_wf|done|exact Hrun].
Qed.

(** ** Dispatch order *)

Lemma core_insertionOrder (x y : option blockRetrieval) :
  core <$> x = core <$> y -> insertionOrder <$> x = insertionOrder <$> y.
Proof.
  destruct x, y; simpl; intros [=]; try done. congruence.
Qed.

Lemma numbered_ext q q' :
  numbered q ->
  insertionCount q' = insertionCount q ->
  length (retrievals q') = length (retrievals q) ->
  (forall x : nat,
     insertionOrder <$> retrievals q' !! x
     = insertionOrder <$> retrievals q !! x) ->
  numbered q'.
Proof.
  intros [Hc Hn] Hic Hlen Hio. split; [by rewrite Hic, Hlen|].
  intros a br Ha. specialize (Hio a). rewrite Ha in Hio.
  destruct (retrievals q !! a) as [br0|] eqn:Ha0; [|discriminate].
  injection Hio as ->. by eapply Hn.
Qed.

Lemma step_numbered a0 q q' :
  wf q -> numbered q -> step a0 q = Some q' -> numbered q'.
Proof.
  intros Hwf Hnum Hstep.
  destruct (action_cases a0) as [(c & prio & ptr & blk & ->)|Hoth].
  - simpl in Hstep. injection Hstep as <-.
    pose proof (wf_heap_wf q Hwf) as Hhwf.
    destruct (ptrs q !! ptr) as [a|] eqn:Hp.
    + destruct (Request_existing_spec q c prio ptr blk a Hhwf Hp)
        as (_ & _ & Hlen & Hca & Hcx & _ & _ & Hic & _).
      apply (numbered_ext q); [done|done|done|].
      intros x. destruct (decide (x = a)) as [->|Hne].
      * destruct (retrievals _ !! a), (retrievals q !! a);
          simpl in *; try discriminate; [|done].
        apply (inj Some) in Hca. unfold core, joined in Hca.
        by injection Hca as _ _ -> _.
      * by apply core_insertionOrder, Hcx.
    + destruct (Request_new_spec q c prio ptr blk Hhwf Hp)
        as (_ & _ & Hlen & Hca & Hcx & _ & _ & Hic & _).
      destruct Hnum as [Hc Hn]. split.
      * rewrite Hic, Hlen, Hc. unfold wrap_uint64.
        rewrite Zplus_mod_idemp_l. f_equal. lia.
      * intros x br Hx.
        destruct (decide (x = length (retrievals q))) as [->|Hne].
        -- rewrite Hx in Hca. simpl in Hca. apply (inj Some) in Hca.
           unfold core in Hca. injection Hca as _ _ Hio _. by rewrite Hio.
        -- specialize (Hcx x Hne). rewrite Hx in Hcx.
           destruct (retrievals q !! x) as [br0|] eqn:Hx0; [|discriminate].
           apply (inj Some) in Hcx. unfold core in Hcx.
           injection Hcx as _ _ -> _. by eapply Hn.
  - destruct (other_step_effect _ _ _ Hwf Hstep Hoth)
      as (_ & Hlen & Hcore & _ & Hic).
    apply (numbered_ext q); [done|done|done|].
    intros x. apply core_insertionOrder, Hcore.
Qed.

Lemma run_numbered acts : forall q q',
  wf q -> numbered q -> run acts q = Some q' -> numbered q'.
Proof.
  induction acts as [|a0 acts IH]; intros q q' Hwf Hb Hrun; simpl in Hrun.
  - by injection Hrun as <-.
  - destruct (step a0 q) as [q1|] eqn:Hstep; [|discriminate].
    eapply (IH q1); [by eapply step_wf|by eapply step_numbered|done].
Qed.

Lemma reachable_numbered q : reachable q -> numbered q.
Proof.
  intros (n & acts & Hrun).
  eapply run_numbered; [apply newBlockRetrievalQueue_wf| |exact Hrun].
  split; [done|]. by intros a br.
Qed.

Lemma insertionOrder_is_creation_order q (a : nat) br :
  reachable q -> Z.of_nat (length (retrievals q)) <= 2 ^ 64 ->
  retrievals q !! a = Some br -> insertionOrder br = Z.of_nat a.
Proof.
  intros [_ Hn]%reachable_numbered Hlen Ha.
  rewrite (Hn a br Ha). apply wrap_uint64_small.
  apply lookup_lt_Some in Ha. lia.
Qed.

Lemma run_from_new_reachable n acts :
  is_Some (run acts (newBlockRetrievalQueue n)) ->
  reachable (run_from_new n acts).
Proof.
  intros [q Hq]. exists n, acts. unfold run_from_new. by rewrite Hq.
Qed.

(** C5.  In every reachable state, a dispatcher goroutine that holds a
    worker's channel pops a record and sends it to that worker, and the
    record it sends goes first among all queued records: every record left
    in the heap has a lower priority, or the same priority and an insertion
    number that is not smaller.  As long as the insertion counter has not
    wrapped around, a record of the same priority left in the heap was
    created later. *)
Theorem dispatch_in_priority_order q k ch :
  reachable q ->
  claimed q !! k = Some ch ->
  exists q' a br,
    notifyWorker_pop q k = Some q'
    /\ delivered q' = delivered q ++ [(ch, a)]
    /\ heap q = a :: heap q'
    /\ retrievals q !! a = Some br
    /\ (forall b br', b ∈ heap q' -> retrievals q !! b = Some br' ->
                      goes_first br br')
    /\ (Z.of_nat (length (retrievals q)) <= 2 ^ 64 ->
        forall b br', b ∈ heap q' -> retrievals q !! b = Some br' ->
                      priority br' = priority br -> (a < b)%nat).
Proof.
  intros Hreach Hk.
  pose proof (reachable_balanced q Hreach) as Hbal.
  pose proof (reachable_wf q Hreach) as [Hok Hreg].
  unfold notifyWorker_pop. rewrite Hk.
  destruct (heap_Pop (retrievals q) (heap q)) as [[[a rs] h]|] eqn:Hp.
  - destruct (heap_Pop_ok _ _ _ _ _ Hok Hp) as (Hh & _ & _ & _ & Hfirst).
    assert (Ha : (a < length (retrievals q))%nat).
    { eapply indexed_allocated; [apply Hok|]. rewrite Hh. by left. }
    destruct (lookup_lt_is_Some_2 _ _ Ha) as [br Hbr].
    assert (Hgo : forall b br', b ∈ h -> retrievals q !! b = Some br' ->
                                goes_first br br').
    { intros b br' Hb Hbr'. specialize (Hfirst b Hb).
      unfold not_after, Less, key in Hfirst. rewrite Hbr, Hbr' in Hfirst.
      unfold goes_first.
      destruct (Z.ltb_spec (priority br) (priority br')); [discriminate|].
      destruct (Z.ltb_spec (priority br') (priority br)); [lia|].
      destruct (Z.ltb_spec (insertionOrder br') (insertionOrder br));
        [discriminate|lia]. }
    eexists _, a, br. split; [done|]. simpl. repeat split; try done.
    intros Hlen b br' Hb Hbr' Hprio.
    pose proof (insertionOrder_is_creation_order q a br Hreach Hlen Hbr) as Ia.
    pose proof (insertionOrder_is_creation_order q b br' Hreach Hlen Hbr')
      as Ib.
    assert (Hne : a <> b).
    { intros ->. destruct Hok as [Hnd _ _]. rewrite Hh in Hnd.
      by apply NoDup_cons in Hnd as [Hnin _]. }
    destruct (Hgo b br' Hb Hbr') as [Hlt|[_ Hle]]; lia.
  - exfalso. unfold heap_Pop in Hp. unfold balanced in Hbal.
    destruct (heap q); [|discriminate].
    pose proof (lookup_lt_Some _ _ _ Hk). simpl in Hbal. lia.
Qed.

Lemma dispatch_in_priority_order_witness :
  reachable ex_three
  /\ claimed ex_three !! 0%nat = Some 3%nat
  /\ exists q' a br,
       notifyWorker_pop ex_three 0 = Some q'
       /\ delivered q' = delivered ex_three ++ [(3%nat, a)]
       /\ heap ex_three = a :: heap q'
       /\ retrievals ex_three !! a = Some br
       /\ (forall b br', b ∈ heap q' -> retrievals ex_three !! b = Some br' ->
                         goes_first br br')
       /\ (Z.of_nat (length (retrievals ex_three)) <= 2 ^ 64 ->
           forall b br', b ∈ heap q' -> retrievals ex_three !! b = Some br' ->
                         priority br' = priority br -> (a < b)%nat).
Proof.
  assert (Hr : reachable ex_three).
  { apply run_from_new_reachable. vm_compute. eauto. }
  split; [exact Hr|]. split; [reflexivity|].
  apply (dispatch_in_priority_order ex_three 0 3 Hr). reflexivity.
Defined.

(** Three requests with priorities 3, 1, 2, inserted in that order, reach
    the workers in the order 3, 2, 1. *)
Example dispatch_3_1_2 :
  delivered ex_drained = [(3, 0); (4, 2); (5, 1)]%nat
  /\ priority <$> retrievals ex_drained = [3; 1; 2]
  /\ blockPtr <$> retrievals ex_drained = [10; 20; 30]%nat.
Proof. vm_compute. done. Qed.

(** Of two requests with equal priority the one inserted first is dispatched
    first. *)
Example dispatch_equal_priority_fifo :
  delivered ex_fifo = [(3, 0); (2, 1)]%nat
  /\ priority <$> retrievals ex_fifo = [4; 4]
  /\ insertionOrder <$> retrievals ex_fifo = [0; 1].
Proof. vm_compute. done. Qed.

Lemma sorted_lookup rs h (i j : nat) a b :
  sorted rs h -> (i < j)%nat -> h !! i = Some a -> h !! j = Some b ->
  not_after rs a b.
Proof.
  unfold sorted. intros Hs. revert i j.
  induction Hs as [|x h Hs IH Hall]; intros i j Hij Hi Hj; [done|].
  destruct j as [|j]; [lia|]. simpl in Hj.
  destruct i as [|i]; simpl in Hi.
  - injection Hi as ->. rewrite Forall_forall in Hall.
    apply Hall. by eapply list_elem_of_lookup_2.
  - apply (IH i j); [lia|done|done].
Qed.

Lemma run_quiet_delivers acts :
  forall q q',
    wf q -> run acts q = Some q' -> quiet acts ->
    exists n,
      heap q' = drop n (heap q)
      /\ (delivered q').*2 = (delivered q).*2 ++ take n (heap q).
Proof.
  induction acts as [|a0 acts IH]; intros q q' Hwf Hrun Hq; simpl in Hrun.
  - injection Hrun as <-. exists 0%nat. by rewrite drop_0, take_0, app_nil_r.
  - destruct (step a0 q) as [q1|] eqn:Hstep; [|discriminate].
    assert (Hq' : quiet acts).
    { intros c prio ptr blk Hin. apply (Hq c prio ptr blk). by right. }
    destruct (IH q1 q' (step_wf _ _ _ Hwf Hstep) Hrun Hq') as (n & Hh & Hd).
    destruct a0 as [c prio ptr blk| | |k|ptr]; simpl in Hstep.
    + destruct (Hq c prio ptr blk). by left.
    + exists n. unfold WorkOnRequest in Hstep.
      destruct (decide _); simpl in Hstep; [by injection Hstep as <-|].
      destruct (numWorkers q), (notifiers q); simpl in Hstep;
        try discriminate.
      by injection Hstep as <-.
    + exists n. unfold notifyWorker_receive in Hstep.
      destruct (notifiers q), (workerQueue q); try discriminate.
      by injection Hstep as <-.
    + unfold notifyWorker_pop in Hstep.
      destruct (claimed q !! k) as [ch|]; [|discriminate].
      unfold heap_Pop in Hstep. destruct (heap q) as [|a h]; [discriminate|].
      injection Hstep as <-. simpl in *. exists (S n). simpl.
      split; [done|]. rewrite Hd, fmap_app. simpl. by rewrite <- app_assoc.
    + exists n. by injection Hstep as <-.
Qed.

(** Without new requests, the records leave the queue in dispatch order:
    of two records delivered during the run, the one delivered first goes
    first. *)
Theorem quiet_run_delivers_in_order q acts q' (i j : nat) a b bra brb :
  reachable q -> run acts q = Some q' -> quiet acts ->
  (length (delivered q) <= i < j)%nat ->
  (delivered q').*2 !! i = Some a -> (delivered q').*2 !! j = Some b ->
  retrievals q !! a = Some bra -> retrievals q !! b = Some brb ->
  goes_first bra brb.
Proof.
  intros Hwf%reachable_wf Hrun Hq Hij Hi Hj Ha Hb.
  destruct (run_quiet_delivers acts q q' Hwf Hrun Hq) as (n & _ & Hd).
  rewrite Hd in Hi, Hj.
  rewrite lookup_app_r in Hi, Hj by (rewrite length_fmap; lia).
  rewrite length_fmap in Hi, Hj.
  apply lookup_take_Some in Hi as [Hi _]. apply lookup_take_Some in Hj as [Hj _].
  destruct Hwf as [[_ _ Hs] _].
  assert (Hlt : (i - length (delivered q) < j - length (delivered q))%nat)
    by lia.
  pose proof (sorted_lookup _ _ _ _ a b Hs Hlt Hi Hj) as Hab.
  unfold not_after, Less, key in Hab. rewrite Ha, Hb in Hab.
  unfold goes_first.
  destruct (Z.ltb_spec (priority bra) (priority brb)); [discriminate|].
  destruct (Z.ltb_spec (priority brb) (priority bra)); [lia|].
  destruct (Z.ltb_spec (insertionOrder brb) (insertionOrder bra));
    [discriminate|lia].
Qed.


(** ** Coalescing *)

Lemma highest_on_ge ptr acts : forall p0, p0 <= highest_on ptr acts p0.
Proof.
  induction acts as [|[c prio p blk| | |k|p] acts IH]; intros p0; simpl;
    try done; try lia.
  destruct (decide (p = ptr)); [|done].
  specialize (IH (Z.max p0 prio)). lia.
Qed.

Lemma registered_inj q p1 p2 a :
  wf q -> ptrs q !! p1 = Some a -> ptrs q !! p2 = Some a -> p1 = p2.
Proof.
  intros [_ Hreg] H1 H2.
  pose proof (Hreg _ _ H1). pose proof (Hreg _ _ H2). congruence.
Qed.

Lemma target_other q ptr p a :
  wf q -> ptrs q !! ptr = Some a -> p <> ptr -> target q p <> a.
Proof.
  intros Hwf Ha Hne. unfold target.
  destruct (ptrs q !! p) as [b|] eqn:Hb; simpl.
  - intros ->. apply Hne. by eapply registered_inj.
  - apply wf_heap_wf in Hwf as [_ Hal]. apply Hal in Ha. lia.
Qed.

Lemma run_shared ptr acts :
  forall q q' a br,
    wf q -> ptrs q !! ptr = Some a -> retrievals q !! a = Some br ->
    run acts q = Some q' -> AFinalizeRequest ptr ∉ acts ->
    exists br',
      ptrs q' !! ptr = Some a
      /\ retrievals q' !! a = Some br'
      /\ who <$> requests br' = (who <$> requests br) ++ requesters_on ptr acts
      /\ priority br' = highest_on ptr acts (priority br).
Proof.
  induction acts as [|a0 acts IH]; intros q q' a br Hwf Hp Hbr Hrun Hfin;
    simpl in Hrun.
  - injection Hrun as <-. exists br. simpl. by rewrite app_nil_r.
  - destruct (step a0 q) as [q1|] eqn:Hstep; [|discriminate].
    apply not_elem_of_cons in Hfin as [Hne Hfin].
    pose proof (step_wf _ _ _ Hwf Hstep) as Hwf1.
    destruct (action_cases a0) as [(c & prio & p & blk & ->)|Hoth].
    + simpl in Hstep. injection Hstep as <-.
      destruct (Request_effect q c prio p blk Hwf)
        as (_ & _ & Hptrs & Hct & Hcx & _).
      destruct (decide (p = ptr)) as [->|Hpne].
      * unfold target, found in Hct, Hptrs. rewrite Hp in Hct, Hptrs.
        simpl in Hct, Hptrs. rewrite Hbr in Hct.
        destruct (retrievals (Request q c prio ptr blk).2 !! a) as [br1|]
          eqn:Hbr1; [|discriminate].
        apply (inj Some) in Hct. unfold core, joined in Hct.
        injection Hct as _ Hprio _ Hreq.
        destruct (IH _ _ a br1 Hwf1 ltac:(by rewrite Hptrs, lookup_insert_eq)
                    Hbr1 Hrun Hfin) as (br' & H1 & H2 & H3 & H4).
        exists br'. split; [done|]. split; [done|]. simpl.
        rewrite !decide_True by done.
        rewrite H3, H4, Hreq, Hprio, fmap_app. simpl.
        split; [by rewrite <- app_assoc|done].
      * pose proof (target_other q ptr p a Hwf Hp Hpne) as Hta.
        specialize (Hcx a ltac:(done)). rewrite Hbr in Hcx.
        destruct (retrievals (Request q c prio p blk).2 !! a) as [br1|]
          eqn:Hbr1; [|discriminate].
        apply (inj Some) in Hcx. unfold core in Hcx.
        injection Hcx as _ Hprio _ Hreq.
        destruct (IH _ _ a br1 Hwf1
                    ltac:(by rewrite Hptrs, lookup_insert_ne) Hbr1 Hrun Hfin)
          as (br' & H1 & H2 & H3 & H4).
        exists br'. split; [done|]. split; [done|]. simpl.
        rewrite !decide_False by done. by rewrite H3, H4, Hreq, Hprio.
    + (* a step other than [Request] *)
      destruct (other_step_effect _ _ _ Hwf Hstep Hoth)
        as (_ & _ & Hcore & Hptrs & _).
      specialize (Hcore a). rewrite Hbr in Hcore.
      destruct (retrievals q1 !! a) as [br1|] eqn:Hbr1; [|discriminate].
      apply (inj Some) in Hcore. unfold core in Hcore.
      injection Hcore as _ Hprio _ Hreq.
      assert (Hp1 : ptrs q1 !! ptr = Some a).
      { rewrite Hptrs. destruct a0; try done.
        rewrite lookup_delete_ne; [done|congruence]. }
      destruct (IH _ _ a br1 Hwf1 Hp1 Hbr1 Hrun Hfin)
        as (br' & H1 & H2 & H3 & H4).
      exists br'. split; [done|]. split; [done|].
      rewrite H3, H4, Hreq, Hprio.
      destruct a0; try done. by destruct (Hoth c prio ptr0 blk).
Qed.

Lemma target_unregistered q p a :
  wf q -> (a < length (retrievals q))%nat ->
  (forall p', ptrs q !! p' <> Some a) -> target q p <> a.
Proof.
  intros Hwf Ha Hun. unfold target.
  destruct (ptrs q !! p) as [b|] eqn:Hb; simpl; [|lia].
  intros ->. by apply (Hun p).
Qed.

Lemma run_unregistered acts :
  forall q q' a,
    wf q -> (a < length (retrievals q))%nat ->
    (forall p, ptrs q !! p <> Some a) ->
    run acts q = Some q' ->
    core <$> retrievals q' !! a = core <$> retrievals q !! a
    /\ (forall p, ptrs q' !! p <> Some a).
Proof.
  induction acts as [|a0 acts IH]; intros q q' a Hwf Ha Hun Hrun;
    simpl in Hrun.
  - by injection Hrun as <-.
  - destruct (step a0 q) as [q1|] eqn:Hstep; [|discriminate].
    pose proof (step_wf _ _ _ Hwf Hstep) as Hwf1.
    assert (H1 : (a < length (retrievals q1))%nat
                 /\ (forall p, ptrs q1 !! p <> Some a)
                 /\ core <$> retrievals q1 !! a = core <$> retrievals q !! a).
    { destruct (action_cases a0) as [(c & prio & p & blk & ->)|Hoth].
      - simpl in Hstep. injection Hstep as <-.
        destruct (Request_effect q c prio p blk Hwf)
          as (_ & Hlen & Hptrs & _ & Hcx & _).
        pose proof (target_unregistered q p a Hwf Ha Hun) as Hta.
        split; [lia|]. split; [|by apply Hcx].
        intros p'. rewrite Hptrs.
        intros [[_ Heq]|[_ Hp']]%lookup_insert_Some; [done|].
        by apply (Hun p').
      - destruct (other_step_effect _ _ _ Hwf Hstep Hoth)
          as (_ & Hlen & Hcore & _).
        split; [lia|]. split; [|done].
        intros p' Hp'%(other_step_lookup _ _ _ _ _ Hwf Hstep Hoth).
        by apply (Hun p'). }
    destruct H1 as (Ha1 & Hun1 & Hc1).
    destruct (IH q1 q' a Hwf1 Ha1 Hun1 Hrun) as [Hc Hun'].
    split; [congruence|done].
Qed.

Lemma core_requests (x y : option blockRetrieval) :
  core <$> x = core <$> y -> requests <$> x = requests <$> y.
Proof.
  destruct x, y; simpl; intros [=]; try done. congruence.
Qed.

Lemma step_blockPtr_stable a0 q q' (x : nat) :
  wf q -> (x < length (retrievals q))%nat -> step a0 q = Some q' ->
  (x < length (retrievals q'))%nat
  /\ blockPtr <$> retrievals q' !! x = blockPtr <$> retrievals q !! x.
Proof.
  intros Hwf Hx Hstep.
  destruct a0 as [c prio p blk| | |k|p];
    try (destruct (other_step_effect _ _ _ Hwf Hstep ltac:(done))
           as (_ & Hlen & Hcore & _);
         split; [lia|by apply core_blockPtr]).
  simpl in Hstep. injection Hstep as <-.
  destruct (Request_effect q c prio p blk Hwf)
    as (_ & Hlen & _ & Hct & Hcx & _).
  split; [lia|].
  destruct (decide (x = target q p)) as [->|Hne];
    [|by apply core_blockPtr, Hcx].
  rewrite (joined_blockPtr _ _ _ _ Hct).
  unfold target, found in *. destruct (ptrs q !! p); simpl in *; [done|lia].
Qed.

Lemma run_blockPtr_stable acts :
  forall q q' (x : nat),
    wf q -> (x < length (retrievals q))%nat -> run acts q = Some q' ->
    blockPtr <$> retrievals q' !! x = blockPtr <$> retrievals q !! x.
Proof.
  induction acts as [|a0 acts IH]; intros q q' x Hwf Hx Hrun; simpl in Hrun.
  - by injection Hrun as <-.
  - destruct (step a0 q) as [q1|] eqn:Hstep; [|discriminate].
    destruct (step_blockPtr_stable _ _ _ x Hwf Hx Hstep) as [Hx1 <-].
    eapply IH; [by eapply step_wf|done|done].
Qed.

Lemma run_no_second_record ptr acts :
  forall q q' a,
    wf q -> ptrs q !! ptr = Some a ->
    run acts q = Some q' -> AFinalizeRequest ptr ∉ acts ->
    forall (x : nat) br,
      (length (retrievals q) <= x)%nat -> retrievals q' !! x = Some br ->
      blockPtr br <> ptr.
Proof.
  induction acts as [|a0 acts IH]; intros q q' a Hwf Hp Hrun Hfin x br Hx Hbr;
    simpl in Hrun.
  - injection Hrun as <-. apply lookup_lt_Some in Hbr. lia.
  - destruct (step a0 q) as [q1|] eqn:Hstep; [|discriminate].
    apply not_elem_of_cons in Hfin as [Hne Hfin].
    pose proof (step_wf _ _ _ Hwf Hstep) as Hwf1.
    destruct (lookup_lt_is_Some_2 (retrievals q) a) as [bra Hbra];
      [by eapply (wf_heap_wf q Hwf)|].
    destruct (run_shared ptr [a0] q q1 a bra Hwf Hp Hbra) as (_ & Hp1 & _).
    { simpl. by rewrite Hstep. }
    { rewrite not_elem_of_cons. split; [done|apply not_elem_of_nil]. }
    destruct (decide (length (retrievals q1) <= x)%nat) as [Hge|Hlt].
    { by eapply (IH q1 q' a Hwf1 Hp1 Hrun Hfin x br). }
    (* the step allocated the record at [x] *)
    assert (Hb : blockPtr <$> retrievals q1 !! x = Some (blockPtr br)).
    { rewrite <- (run_blockPtr_stable acts q1 q' x Hwf1 ltac:(lia) Hrun).
      by rewrite Hbr. }
    destruct a0 as [c prio p blk| | |k|p];
      try (destruct (other_step_effect _ _ _ Hwf Hstep ltac:(done))
             as (_ & Hlen & _); lia).
    simpl in Hstep. injection Hstep as <-.
    destruct (wf_heap_wf q Hwf) as [_ Hal].
    destruct (ptrs q !! p) as [b|] eqn:Hpb.
    + destruct (Request_existing_spec q c prio p blk b (wf_heap_wf q Hwf) Hpb)
        as (_ & _ & Hlen & _). lia.
    + destruct (Request_new_spec q c prio p blk (wf_heap_wf q Hwf) Hpb)
        as (_ & _ & Hlen & Hca & _).
      assert (x = length (retrievals q)) as -> by lia.
      destruct (retrievals (Request q c prio p blk).2
                !! length (retrievals q)) as [y|]; [|discriminate].
      simpl in Hca, Hb. apply (inj Some) in Hca. apply (inj Some) in Hb.
      unfold core in Hca. injection Hca as Hy _ _ _. congruence.
Qed.

(** C6.  The map holds at most one record per pointer (it is a map).  In a
    reachable state, let a [Request] for [ptr] be followed by any run that
    does not finalize [ptr].  The record the first request created or
    joined is still the record of [ptr] at the end; every [Request] for
    [ptr] in the run has appended one requester entry to it, in order; its
    priority is the highest priority requested so far, so it was raised by
    every higher request and never lowered; and no other record for [ptr]
    has been created in the meantime. *)
Theorem requests_share_one_record q c prio ptr blk acts q' :
  reachable q ->
  run acts (Request q c prio ptr blk).2 = Some q' ->
  AFinalizeRequest ptr ∉ acts ->
  exists a br1 br',
    ptrs (Request q c prio ptr blk).2 !! ptr = Some a
    /\ retrievals (Request q c prio ptr blk).2 !! a = Some br1
    /\ Some (core br1)
       = (joined (BlockRetrievalRequest c blk (nextChan q)) prio
            <$> found q prio ptr)
    /\ ptrs q' !! ptr = Some a
    /\ retrievals q' !! a = Some br'
    /\ who <$> requests br' = (who <$> requests br1) ++ requesters_on ptr acts
    /\ priority br' = highest_on ptr acts (priority br1)
    /\ priority br1 <= priority br'
    /\ forall (x : nat) brx,
         (length (retrievals (Request q c prio ptr blk).2) <= x)%nat ->
         retrievals q' !! x = Some brx -> blockPtr brx <> ptr.
Proof.
  intros Hwf%reachable_wf Hrun Hfin.
  destruct (Request_effect q c prio ptr blk Hwf)
    as (Hwf1 & _ & Hptrs & Hct & _).
  assert (Hp1 : ptrs (Request q c prio ptr blk).2 !! ptr
                = Some (target q ptr))
    by (by rewrite Hptrs, lookup_insert_eq).
  assert (Hf : is_Some (found q prio ptr)).
  { unfold found. destruct (ptrs q !! ptr) as [a|] eqn:Hp; [|eauto].
    apply lookup_lt_is_Some. by eapply (wf_heap_wf q Hwf). }
  destruct Hf as [br0 Hbr0]. rewrite Hbr0 in Hct.
  destruct (retrievals (Request q c prio ptr blk).2 !! target q ptr)
    as [br1|] eqn:Hbr1; [|discriminate].
  destruct (run_shared ptr acts _ _ _ br1 Hwf1 Hp1 Hbr1 Hrun Hfin)
    as (br' & H1 & H2 & H3 & H4).
  exists (target q ptr), br1, br'.
  rewrite Hbr0. repeat split; try done.
  - rewrite H4. apply highest_on_ge.
  - by eapply run_no_second_record.
Qed.

Lemma requests_share_one_record_witness :
  reachable (newBlockRetrievalQueue 1)
  /\ run [ARequest 1 5 7 1; AWorkOnRequest; ARequest 2 3 7 2]
       (Request (newBlockRetrievalQueue 1) 0 1 7 0).2
     = Some (run_from_new 1 [ARequest 0 1 7 0; ARequest 1 5 7 1;
                             AWorkOnRequest; ARequest 2 3 7 2])
  /\ (AFinalizeRequest 7
      ∉ [ARequest 1 5 7 1; AWorkOnRequest; ARequest 2 3 7 2])
  /\ exists a br1 br',
    ptrs (Request (newBlockRetrievalQueue 1) 0 1 7 0).2 !! 7%nat = Some a
    /\ retrievals (Request (newBlockRetrievalQueue 1) 0 1 7 0).2 !! a
       = Some br1
    /\ Some (core br1)
       = (joined
            (BlockRetrievalRequest 0 0 (nextChan (newBlockRetrievalQueue 1))) 1
            <$> found (newBlockRetrievalQueue 1) 1 7)
    /\ ptrs (run_from_new 1 [ARequest 0 1 7 0; ARequest 1 5 7 1;
                             AWorkOnRequest; ARequest 2 3 7 2]) !! 7%nat
       = Some a
    /\ retrievals (run_from_new 1 [ARequest 0 1 7 0; ARequest 1 5 7 1;
                                   AWorkOnRequest; ARequest 2 3 7 2]) !! a
       = Some br'
    /\ who <$> requests br'
       = (who <$> requests br1)
         ++ requesters_on 7 [ARequest 1 5 7 1; AWorkOnRequest; ARequest 2 3 7 2]
    /\ priority br'
       = highest_on 7 [ARequest 1 5 7 1; AWorkOnRequest; ARequest 2 3 7 2]
           (priority br1)
    /\ priority br1 <= priority br'
    /\ forall (x : nat) brx,
         (length (retrievals (Request (newBlockRetrievalQueue 1) 0 1 7 0).2)
          <= x)%nat ->
         retrievals (run_from_new 1 [ARequest 0 1 7 0; ARequest 1 5 7 1;
                                     AWorkOnRequest; ARequest 2 3 7 2]) !! x
         = Some brx ->
         blockPtr brx <> 7%nat.
Proof.
  assert (Hr : reachable (newBlockRetrievalQueue 1)) by (by exists 1%nat, []).
  assert (Hn : AFinalizeRequest 7
               ∉ [ARequest 1 5 7 1; AWorkOnRequest; ARequest 2 3 7 2]).
  { rewrite !not_elem_of_cons. repeat split; try discriminate.
    apply not_elem_of_nil. }
  split; [exact Hr|]. split; [vm_compute; reflexivity|]. split; [exact Hn|].
  apply (requests_share_one_record (newBlockRetrievalQueue 1) 0 1 7 0
           [ARequest 1 5 7 1; AWorkOnRequest; ARequest 2 3 7 2] _ Hr);
    [vm_compute; reflexivity|exact Hn].
Defined.

(** C7 (amended).  In every reachable state: (1) a [Request] for a pointer
    whose record is still in the map appends its requester entry to that
    record, whether or not the dispatcher has already popped the record off
    the heap; (2) a record that is no longer in the map is never given a
    requester again, and never returns to the map; (3) after
    [FinalizeRequest ptr], a [Request] for [ptr] creates a fresh record with
    that requester alone and leaves the requesters of all earlier records
    unchanged. *)
Theorem coalescing_window q :
  reachable q ->
  (forall c prio ptr blk a br,
     ptrs q !! ptr = Some a -> retrievals q !! a = Some br ->
     exists br',
       retrievals (Request q c prio ptr blk).2 !! a = Some br'
       /\ requests br'
          = requests br ++ [BlockRetrievalRequest c blk (nextChan q)])
  /\ (forall a acts q',
        (a < length (retrievals q))%nat ->
        (forall p, ptrs q !! p <> Some a) ->
        run acts q = Some q' ->
        requests <$> retrievals q' !! a = requests <$> retrievals q !! a
        /\ forall p, ptrs q' !! p <> Some a)
  /\ (forall ptr c prio blk,
        let q2 := (Request (FinalizeRequest q ptr) c prio ptr blk).2 in
        ptrs q2 !! ptr = Some (length (retrievals q))
        /\ requests <$> retrievals q2 !! length (retrievals q)
           = Some [BlockRetrievalRequest c blk (nextChan q)]
        /\ forall a, (a < length (retrievals q))%nat ->
             requests <$> retrievals q2 !! a
             = requests <$> retrievals q !! a).
Proof.
  intros Hwf%reachable_wf. split; [|split].
  - intros c prio ptr blk a br Hp Hbr.
    destruct (Request_effect q c prio ptr blk Hwf) as (_ & _ & _ & Hct & _).
    unfold target, found in Hct. rewrite Hp in Hct. simpl in Hct.
    rewrite Hbr in Hct.
    destruct (retrievals (Request q c prio ptr blk).2 !! a) as [br'|];
      [|discriminate].
    exists br'. split; [done|].
    apply (inj Some) in Hct. unfold core, joined in Hct.
    by injection Hct as _ _ _ ->.
  - intros a acts q' Ha Hun Hrun.
    destruct (run_unregistered acts q q' a Hwf Ha Hun Hrun) as [Hc Hp].
    split; [by apply core_requests|done].
  - intros ptr c prio blk q2. subst q2.
    pose proof (FinalizeRequest_wf q ptr Hwf) as Hwf1.
    destruct (Request_effect (FinalizeRequest q ptr) c prio ptr blk Hwf1)
      as (_ & _ & Hptrs & Hct & Hcx & _).
    unfold target, found in Hptrs, Hct, Hcx. simpl in Hptrs, Hct, Hcx.
    rewrite lookup_delete_eq in Hptrs, Hct, Hcx. simpl in Hptrs, Hct, Hcx.
    split; [by rewrite Hptrs, lookup_insert_eq|].
    split.
    + destruct (retrievals _ !! length (retrievals q)) as [br|];
        [|discriminate].
      apply (inj Some) in Hct. unfold core, joined in Hct. simpl in *.
      by injection Hct as _ _ _ ->.
    + intros a Ha. apply core_requests, Hcx. lia.
Qed.

Lemma ex_window_reachable : reachable ex_window.
Proof. apply run_from_new_reachable. vm_compute. eauto. Qed.

Lemma coalescing_window_witness :
  reachable ex_window
  /\ (ptrs ex_window !! 8%nat = Some 1%nat
      /\ (1%nat ∉ heap ex_window)
      /\ exists br',
           retrievals (Request ex_window 5 1 8 5).2 !! 1%nat = Some br'
           /\ requests br'
              = [BlockRetrievalRequest 1 1 1; BlockRetrievalRequest 5 5 4])
  /\ ((forall p, ptrs ex_window !! p <> Some 0%nat)
      /\ requests <$> (retrievals (Request ex_window 6 9 7 6).2 !! 0%nat)
         = requests <$> (retrievals ex_window !! 0%nat))
  /\ (ptrs (Request (FinalizeRequest ex_window 8) 5 1 8 5).2 !! 8%nat
      = Some 2%nat
      /\ requests
           <$> (retrievals (Request (FinalizeRequest ex_window 8) 5 1 8 5).2
                !! 2%nat)
         = Some [BlockRetrievalRequest 5 5 4]).
Proof.
  destruct (coalescing_window ex_window ex_window_reachable)
    as (Hjoin & Hgone & Hfresh).
  split; [exact ex_window_reachable|].
  split; [|split].
  - split; [reflexivity|]. split; [vm_compute; apply not_elem_of_nil|].
    destruct (Hjoin 5%nat 1 8%nat 5%nat 1%nat
                (BlockRetrieval 8 (-1) 1 1 [BlockRetrievalRequest 1 1 1])
                eq_refl eq_refl) as (br' & H1 & H2).
    exists br'. split; [exact H1|exact H2].
  - assert (Hun : forall p, ptrs ex_window !! p <> Some 0%nat).
    { intros p Hp.
      assert (Hfilter : filter (fun kv => kv.2 = 0%nat) (ptrs ex_window) = ∅)
        by (vm_compute; reflexivity).
      eapply (map_filter_empty_not_lookup _ _ p 0%nat) in Hfilter; eauto. }
    split; [exact Hun|].
    apply (Hgone 0%nat [ARequest 6 9 7 6] _ ltac:(vm_compute; lia) Hun).
    reflexivity.
  - destruct (Hfresh 8%nat 5%nat 1 5%nat) as (H1 & H2 & _).
    split; [exact H1|exact H2].
Defined.

(** C7 as stated fails: in [ex_window] the record of pointer 8 has been
    popped and sent to a worker but not finalized, and a further [Request]
    for pointer 8 appends its requester to that record. *)
Lemma Request_joins_dispatched_record :
  ~ (forall q c prio ptr blk ch a,
       reachable q -> (ch, a) ∈ delivered q ->
       requests <$> (retrievals (Request q c prio ptr blk).2 !! a)
       = requests <$> (retrievals q !! a)).
Proof.
  intros H.
  specialize (H ex_window 5%nat 1 8%nat 5%nat 3%nat 1%nat ex_window_reachable).
  assert (Hd : (3%nat, 1%nat) ∈ delivered ex_window).
  { apply (list_elem_of_lookup_2 _ 1%nat). reflexivity. }
  specialize (H Hd). vm_compute in H. discriminate.
Qed.

End RetrievalQueueProofs.

(* ===================================================================== *)
(** * Properties of the log registration service *)
(* ===================================================================== *)

Module LogRegisterProofs.
Import LogRegister LogRegisterSpec.

(** [RegisterLogger] fails exactly when the [queue] field is set. *)
Lemma RegisterLogger_fails_iff r arg ui :
  (RegisterLogger r arg ui).1 = Some AlreadyRegistered <-> queue r <> None.
Proof.
  unfold RegisterLogger. destruct (queue r); simpl; split; try done.
Qed.

(** [UnregisterLogger] removes the queue from the forwarder and leaves the
    [queue] field as it is. *)
Lemma UnregisterLogger_effect r :
  queue (UnregisterLogger r) = queue r
  /\ forall a, queue r = Some a -> a ∉ forwarder (UnregisterLogger r).
Proof.
  unfold UnregisterLogger. destruct (queue r) as [a|] eqn:Hq; simpl.
  - split; [done|]. intros ? [= <-]. unfold logFwd_Remove.
    rewrite list_elem_of_filter. tauto.
  - split; [done|]. by intros a [=].
Qed.

(** C9 (amended).  [RegisterLogger] fails with "logger already registered"
    exactly when the register holds a queue; on a register without a queue
    it succeeds, installs a new queue and adds it to the forwarder.
    [UnregisterLogger] removes the queue from the forwarder and keeps it in
    the register, so the register still holds its single queue and every
    later [RegisterLogger] fails: the queue is never replaced. *)
Theorem register_holds_a_single_queue r arg ui :
  ((RegisterLogger r arg ui).1 = Some AlreadyRegistered <-> queue r <> None)
  /\ (queue r = None ->
        RegisterLogger r arg ui
        = (None,
           MkLogRegister (forwarder r ++ [length (queues r)])
             (Some (length (queues r))) (debug r)
             (queues r ++ [LogQueue (Name arg) (Level arg) ui])))
  /\ queue (UnregisterLogger r) = queue r
  /\ (forall a, queue r = Some a -> a ∉ forwarder (UnregisterLogger r))
  /\ (queue r <> None ->
        RegisterLogger (UnregisterLogger r) arg ui
        = (Some AlreadyRegistered, UnregisterLogger r)).
Proof.
  split; [apply RegisterLogger_fails_iff|].
  split.
  { intros Hq. unfold RegisterLogger. by rewrite Hq. }
  destruct (UnregisterLogger_effect r) as [Hkeep Hgone].
  split; [done|]. split; [done|].
  intros Hq. unfold RegisterLogger. rewrite Hkeep.
  by destruct (queue r).
Qed.

Lemma register_holds_a_single_queue_witness :
  queue ex_registered <> None
  /\ queue (newLogRegister []) = None
  /\ (RegisterLogger ex_registered ex_arg 2).1 = Some AlreadyRegistered
  /\ RegisterLogger (newLogRegister []) ex_arg 1 = (None, ex_registered)
  /\ queue (UnregisterLogger ex_registered) = Some 0%nat
  /\ (0%nat ∉ forwarder (UnregisterLogger ex_registered))
  /\ RegisterLogger (UnregisterLogger ex_registered) ex_arg 2
     = (Some AlreadyRegistered, UnregisterLogger ex_registered).
Proof.
  assert (Hq : queue ex_registered <> None) by discriminate.
  destruct (register_holds_a_single_queue ex_registered ex_arg 2)
    as (Hiff & _ & Hkeep & Hgone & Hfail).
  destruct (register_holds_a_single_queue (newLogRegister []) ex_arg 1)
    as (_ & Hnew & _).
  split; [exact Hq|]. split; [reflexivity|].
  split; [by apply Hiff|].
  split; [by apply Hnew|].
  split; [exact Hkeep|].
  split; [by apply Hgone|].
  by apply Hfail.
Defined.

(** C9 as stated fails: after a registration and [UnregisterLogger], a
    second [RegisterLogger] does not succeed. *)
Lemma RegisterLogger_after_UnregisterLogger_fails :
  ~ (forall r arg ui, (RegisterLogger (UnregisterLogger r) arg ui).1 = None).
Proof.
  intros H. specialize (H ex_registered ex_arg 2%nat). discriminate.
Qed.

End LogRegisterProofs.

(* ===================================================================== *)
(** * Further properties of the node cache *)
(* ===================================================================== *)

Module NodeCacheBehaviour.
Import NodeCache NodeCacheSpec NodeCacheProofs.

(** ** Handles *)

Lemma as_nodeStandard_Some ncs n a ns :
  as_nodeStandard ncs n = Some (a, ns) -> n = NodeStd a /\ mem ncs !! a = Some ns.
Proof.
  destruct n as [|a'|k]; simpl; try discriminate.
  destruct (mem ncs !! a') eqn:H; simpl; [|discriminate].
  by intros [= <- <-].
Qed.

(** ** [GetOrCreate] *)

(** X1.  [GetOrCreate] fails only on its slow path: the pointer has no
    entry, a parent was given, and that parent is not the node currently
    recorded for its pointer (or is no [nodeStandard] at all).  The error is
    the [ParentNodeNotFoundError] of [newChildForParentLocked], the returned
    node is nil and the cache state is exactly the one before the call: no
    entry is created and no reference count has moved. *)
Theorem GetOrCreate_failure_atomic ncs ptr name parent n e ncs' :
  GetOrCreate ncs ptr name parent = ((n, Some e), ncs') ->
  n = NodeNil /\ ncs' = ncs
  /\ nodes ncs !! ptr = None
  /\ parent <> NodeNil
  /\ ~ current_handle ncs parent
  /\ exists p, e = ParentNodeNotFoundError p.
Proof.
  unfold GetOrCreate, GetOrCreate_fast, GetOrCreate_slow.
  destruct (nodes ncs !! ptr) as [entry|] eqn:Hent; [discriminate|].
  destruct (decide (parent = NodeNil)) as [->|Hnn]; [discriminate|].
  destruct (newChildForParentLocked ncs parent) as [[e1|] ncs1] eqn:Hc;
    [|discriminate].
  intros [= <- <- <-].
  destruct (newChildForParentLocked_error _ _ _ _ Hc) as (-> & He & Hcur).
  done.
Qed.

Lemma GetOrCreate_failure_atomic_witness :
  GetOrCreate ex_tree 40 "x" (NodeOther 0)
  = ((NodeNil, Some (ParentNodeNotFoundError 0)), ex_tree)
  /\ NodeNil = NodeNil /\ ex_tree = ex_tree
  /\ nodes ex_tree !! 40%nat = None
  /\ NodeOther 0 <> NodeNil
  /\ ~ current_handle ex_tree (NodeOther 0)
  /\ exists p, ParentNodeNotFoundError 0 = ParentNodeNotFoundError p.
Proof.
  split; [reflexivity|].
  apply (GetOrCreate_failure_atomic ex_tree 40 "x" (NodeOther 0)).
  reflexivity.
Defined.

(** X2.  The check of the parent handle in [newChildForParentLocked]
    compares the handle with its own type assertion, so it passes whenever
    the handle's pointer has an entry.  A stale handle - a node whose pointer
    is now recorded with another node - is therefore accepted as parent:
    [GetOrCreate] succeeds, the reference goes to the entry that records the
    other node, and the new child's parent field is the stale handle. *)
Theorem GetOrCreate_accepts_stale_parent ncs ptr name (a : nat) ns pEntry :
  nodes ncs !! ptr = None ->
  mem ncs !! a = Some ns ->
  nodes ncs !! pn_BlockPointer (ns_pathNode ns) = Some pEntry ->
  node pEntry <> a ->
  ~ current_handle ncs (NodeStd a)
  /\ exists ncs',
       GetOrCreate ncs ptr name (NodeStd a)
       = ((NodeStd (length (mem ncs)), None), ncs')
       /\ nodes ncs' !! pn_BlockPointer (ns_pathNode ns)
          = Some (NodeCacheEntry (node pEntry)
                    (wrap_int (refCount pEntry + 1)))
       /\ mem ncs' !! length (mem ncs)
          = Some (NodeStandard (PathNode ptr name) (NodeStd a) zero_path).
Proof.
  intros Hptr Hm Hp Hne. split.
  - intros (a' & ns' & entry & [= <-] & Hm' & Hn' & Hnode).
    rewrite Hm in Hm'. injection Hm' as <-. congruence.
  - unfold GetOrCreate, GetOrCreate_fast, GetOrCreate_slow. rewrite Hptr.
    rewrite decide_False by done.
    unfold newChildForParentLocked. simpl. rewrite Hm. simpl. rewrite Hp.
    rewrite decide_True by done. simpl.
    eexists. split; [reflexivity|]. simpl. split.
    + rewrite lookup_insert_ne by congruence. by rewrite lookup_insert_eq.
    + rewrite lookup_app_r by lia. by rewrite Nat.sub_diag.
Qed.

Lemma GetOrCreate_accepts_stale_parent_witness :
  nodes ex_stale !! 8%nat = None
  /\ mem ex_stale !! 0%nat
     = Some (NodeStandard (PathNode 7 "old") NodeNil zero_path)
  /\ nodes ex_stale !! 7%nat = Some (NodeCacheEntry 1 1)
  /\ 1%nat <> 0%nat
  /\ ~ current_handle ex_stale (NodeStd 0)
  /\ exists ncs',
       GetOrCreate ex_stale 8 "child" (NodeStd 0)
       = ((NodeStd (length (mem ex_stale)), None), ncs')
       /\ nodes ncs' !! 7%nat
          = Some (NodeCacheEntry 1 (wrap_int (1 + 1)))
       /\ mem ncs' !! length (mem ex_stale)
          = Some (NodeStandard (PathNode 8 "child") (NodeStd 0) zero_path).
Proof.
  split; [reflexivity|]. split; [reflexivity|]. split; [reflexivity|].
  split; [lia|].
  apply (GetOrCreate_accepts_stale_parent ex_stale 8 "child" 0
           (NodeStandard (PathNode 7 "old") NodeNil zero_path)
           (NodeCacheEntry 1 1)); [reflexivity..|simpl; lia].
Defined.

(** X3.  [forget] never cascades.  Creating a child under a parent
    adds one reference to the parent's entry; forgetting the child's only
    reference removes the child's entry and nothing else: the parent's entry
    keeps the reference the creation added, and the stored nodes are
    untouched. *)
Theorem forget_does_not_cascade ncs ptr name (a : nat) ns pEntry :
  nodes ncs !! ptr = None ->
  mem ncs !! a = Some ns ->
  nodes ncs !! pn_BlockPointer (ns_pathNode ns) = Some pEntry ->
  exists child ncs1,
    GetOrCreate ncs ptr name (NodeStd a) = ((child, None), ncs1)
    /\ nodes ncs1 !! ptr = Some (NodeCacheEntry (length (mem ncs)) 1)
    /\ nodes (forget ncs1 child)
       = <[pn_BlockPointer (ns_pathNode ns)
           := NodeCacheEntry (node pEntry) (wrap_int (refCount pEntry + 1))]>
           (nodes ncs)
    /\ mem (forget ncs1 child) = mem ncs1.
Proof.
  intros Hptr Hm Hp.
  unfold GetOrCreate, GetOrCreate_fast, GetOrCreate_slow. rewrite Hptr.
  rewrite decide_False by done.
  unfold newChildForParentLocked. simpl. rewrite Hm. simpl. rewrite Hp.
  rewrite decide_True by done. simpl.
  do 2 eexists. split; [reflexivity|]. simpl.
  split; [by rewrite lookup_insert_eq|].
  unfold forget. rewrite forgetLocked_mem. split; [|done].
  unfold forgetLocked. simpl.
  rewrite lookup_app_r by lia. rewrite Nat.sub_diag. simpl.
  rewrite lookup_insert_eq. simpl.
  rewrite decide_True by done.
  rewrite delete_insert_eq. apply delete_id.
  rewrite lookup_insert_ne by congruence. done.
Qed.

Lemma forget_does_not_cascade_witness :
  nodes ex_tree !! 40%nat = None
  /\ mem ex_tree !! 1%nat
     = Some (NodeStandard (PathNode 20 "dir") (NodeStd 0) zero_path)
  /\ nodes ex_tree !! 20%nat = Some (NodeCacheEntry 1 2)
  /\ exists child ncs1,
       GetOrCreate ex_tree 40 "f" (NodeStd 1) = ((child, None), ncs1)
       /\ nodes ncs1 !! 40%nat = Some (NodeCacheEntry (length (mem ex_tree)) 1)
       /\ nodes (forget ncs1 child)
          = <[20%nat := NodeCacheEntry 1 (wrap_int (2 + 1))]> (nodes ex_tree)
       /\ mem (forget ncs1 child) = mem ncs1.
Proof.
  split; [reflexivity|]. split; [reflexivity|]. split; [reflexivity|].
  apply (forget_does_not_cascade ex_tree 40 "f" 1
           (NodeStandard (PathNode 20 "dir") (NodeStd 0) zero_path)
           (NodeCacheEntry 1 2)); reflexivity.
Defined.

(** X4.  On a pointer whose entry exists and records a node carrying
    that pointer, with a reference count inside the range of the counter,
    [GetOrCreate] returns the recorded node whatever name and parent are
    passed, raises the count by one, and [forget] on the returned node
    restores the cache state exactly. *)
Theorem GetOrCreate_forget_round_trip ncs ptr name parent entry ns :
  nodes ncs !! ptr = Some entry ->
  mem ncs !! node entry = Some ns ->
  pn_BlockPointer (ns_pathNode ns) = ptr ->
  0 < refCount entry < 2 ^ 63 - 1 ->
  exists ncs1,
    GetOrCreate ncs ptr name parent = ((NodeStd (node entry), None), ncs1)
    /\ refCount <$> nodes ncs1 !! ptr = Some (refCount entry + 1)
    /\ forget ncs1 (NodeStd (node entry)) = ncs.
Proof.
  intros Hent Hm Hp Hrc.
  unfold GetOrCreate, GetOrCreate_fast. rewrite Hent.
  eexists. split; [reflexivity|]. simpl.
  rewrite lookup_insert_eq. simpl. rewrite wrap_int_small by lia.
  split; [done|].
  unfold forget, forgetLocked. simpl. rewrite Hm. simpl. rewrite Hp.
  rewrite lookup_insert_eq. simpl.
  rewrite decide_True by done.
  replace (refCount entry + 1 - 1) with (refCount entry) by lia.
  rewrite wrap_int_small by lia.
  rewrite decide_False by lia.
  unfold set_nodes. simpl. rewrite insert_insert_eq.
  rewrite insert_id by (by destruct entry).
  by destruct ncs.
Qed.

Lemma GetOrCreate_forget_round_trip_witness :
  nodes ex_tree !! 20%nat = Some (NodeCacheEntry 1 2)
  /\ mem ex_tree !! 1%nat
     = Some (NodeStandard (PathNode 20 "dir") (NodeStd 0) zero_path)
  /\ 0 < 2 < 2 ^ 63 - 1
  /\ exists ncs1,
       GetOrCreate ex_tree 20 "other" NodeNil = ((NodeStd 1, None), ncs1)
       /\ refCount <$> nodes ncs1 !! 20%nat = Some (2 + 1)
       /\ forget ncs1 (NodeStd 1) = ex_tree.
Proof.
  split; [reflexivity|]. split; [reflexivity|]. split; [lia|].
  apply (GetOrCreate_forget_round_trip ex_tree 20 "other" NodeNil
           (NodeCacheEntry 1 2)
           (NodeStandard (PathNode 20 "dir") (NodeStd 0) zero_path));
    [reflexivity..|simpl; lia].
Defined.

(** ** [forget] *)

Lemma forgetLocked_not_current ncs n :
  ~ current_handle ncs n -> forgetLocked ncs n = ncs.
Proof.
  intros Hcur. unfold forgetLocked.
  destruct (as_nodeStandard ncs n) as [[a ns]|] eqn:Has; [|done].
  apply as_nodeStandard_Some in Has as [-> Hm].
  destruct (nodes ncs !! _) as [entry|] eqn:Hent; [|done].
  case_decide as Heq; [|done].
  exfalso. apply Hcur. exists a, ns, entry. repeat split; auto. congruence.
Qed.

(** X5.  [forget] changes nothing unless its argument is the node
    currently recorded for its pointer: it ignores nil, a foreign
    implementation of [Node], a node whose pointer has no entry, and a stale
    node whose pointer is recorded with another node. *)
Theorem forget_ignores_other_handles ncs n :
  ~ current_handle ncs n ->
  forget ncs n = ncs
  /\ (n = NodeNil \/ (exists k, n = NodeOther k)
      \/ exists a : nat,
           n = NodeStd a
           /\ forall ns entry,
                mem ncs !! a = Some ns ->
                nodes ncs !! pn_BlockPointer (ns_pathNode ns) = Some entry ->
                node entry <> a).
Proof.
  intros Hcur. split; [by apply forgetLocked_not_current|].
  destruct n as [|a|k]; [by left|right; right|right; left; by eexists].
  exists a. split; [done|]. intros ns entry Hm Hn Hnode.
  apply Hcur. by exists a, ns, entry.
Qed.

Lemma forget_ignores_other_handles_witness :
  ~ current_handle ex_stale (NodeStd 0)
  /\ nodes ex_stale !! 7%nat = Some (NodeCacheEntry 1 1)
  /\ forget ex_stale (NodeStd 0) = ex_stale
  /\ (NodeStd 0 = NodeNil \/ (exists k, NodeStd 0 = NodeOther k)
      \/ exists a : nat,
           NodeStd 0 = NodeStd a
           /\ forall ns entry,
                mem ex_stale !! a = Some ns ->
                nodes ex_stale !! pn_BlockPointer (ns_pathNode ns)
                = Some entry ->
                node entry <> a).
Proof.
  assert (H : ~ current_handle ex_stale (NodeStd 0)).
  { intros (a & ns & entry & [= <-] & Hm & Hn & Hnode).
    vm_compute in Hm. injection Hm as <-. vm_compute in Hn.
    injection Hn as <-. discriminate. }
  split; [exact H|]. split; [reflexivity|].
  apply (forget_ignores_other_handles ex_stale (NodeStd 0) H).
Defined.

(** ** [Move] *)

(** X6.  [Move] to the parent the node already has is a rename: the
    increment of the new parent and the decrement of the old parent cancel,
    so the entries - reference counts included - are as before, and the only
    change to the stored nodes is the name of the moved node.  The parent's
    count has to be positive and below the top of the counter's range. *)
Theorem Move_within_parent_renames_only ncs ptr newName entry ns (o : nat)
    os oEntry :
  nodes ncs !! ptr = Some entry ->
  mem ncs !! node entry = Some ns ->
  ns_parent ns = NodeStd o ->
  mem ncs !! o = Some os ->
  nodes ncs !! pn_BlockPointer (ns_pathNode os) = Some oEntry ->
  node oEntry = o ->
  0 < refCount oEntry < 2 ^ 63 - 1 ->
  Move ncs ptr (NodeStd o) newName
  = (None,
     set_mem ncs (alter (set_Name newName) (node entry) (mem ncs))).
Proof.
  intros Hent Hm Hpar Hos Hoe Hnode Hrc.
  unfold Move. rewrite Hent.
  unfold newChildForParentLocked. simpl. rewrite Hos. simpl. rewrite Hoe.
  rewrite decide_True by done. simpl.
  rewrite Hm. simpl. rewrite Hpar. rewrite decide_False by done.
  unfold forgetLocked. simpl. rewrite Hos. simpl.
  rewrite lookup_insert_eq. simpl.
  rewrite decide_True by congruence.
  rewrite (wrap_int_small (refCount oEntry + 1)) by lia.
  replace (refCount oEntry + 1 - 1) with (refCount oEntry) by lia.
  rewrite wrap_int_small by lia.
  rewrite decide_False by lia.
  unfold set_nodes, set_mem. simpl. f_equal.
  rewrite insert_insert_eq.
  rewrite insert_id by (by destruct oEntry).
  f_equal. apply list_alter_ext; [|done].
  intros x Hx. rewrite Hm in Hx. injection Hx as <-.
  destruct ns as [pn par cp]. simpl in *. by subst par.
Qed.

Lemma Move_within_parent_renames_only_witness :
  nodes ex_tree !! 30%nat = Some (NodeCacheEntry 2 1)
  /\ mem ex_tree !! 2%nat
     = Some (NodeStandard (PathNode 30 "file") (NodeStd 1) zero_path)
  /\ mem ex_tree !! 1%nat
     = Some (NodeStandard (PathNode 20 "dir") (NodeStd 0) zero_path)
  /\ nodes ex_tree !! 20%nat = Some (NodeCacheEntry 1 2)
  /\ 0 < 2 < 2 ^ 63 - 1
  /\ Move ex_tree 30 (NodeStd 1) "renamed"
     = (None,
        set_mem ex_tree (alter (set_Name "renamed") 2%nat (mem ex_tree))).
Proof.
  split; [reflexivity|]. split; [reflexivity|]. split; [reflexivity|].
  split; [reflexivity|]. split; [lia|].
  apply (Move_within_parent_renames_only ex_tree 30 "renamed"
           (NodeCacheEntry 2 1)
           (NodeStandard (PathNode 30 "file") (NodeStd 1) zero_path) 1
           (NodeStandard (PathNode 20 "dir") (NodeStd 0) zero_path)
           (NodeCacheEntry 1 2)); [reflexivity..|simpl; lia].
Defined.

(** X7.  [Move] from a recorded parent to a parent filed under another
    pointer transfers one reference: the new parent's count goes up by one,
    the old parent's count goes down by one and its entry is deleted when
    the count was one, every other entry is untouched, and the moved node
    gets the new parent and the new name while every other node is
    untouched. *)
Theorem Move_transfers_one_reference ncs ptr newName entry ns (o a : nat)
    os oEntry nps nEntry :
  nodes ncs !! ptr = Some entry ->
  mem ncs !! node entry = Some ns ->
  ns_parent ns = NodeStd o ->
  mem ncs !! o = Some os ->
  nodes ncs !! pn_BlockPointer (ns_pathNode os) = Some oEntry ->
  node oEntry = o ->
  mem ncs !! a = Some nps ->
  nodes ncs !! pn_BlockPointer (ns_pathNode nps) = Some nEntry ->
  pn_BlockPointer (ns_pathNode nps) <> pn_BlockPointer (ns_pathNode os) ->
  0 < refCount oEntry < 2 ^ 63 ->
  0 < refCount nEntry < 2 ^ 63 - 1 ->
  exists ncs',
    Move ncs ptr (NodeStd a) newName = (None, ncs')
    /\ nodes ncs' !! pn_BlockPointer (ns_pathNode nps)
       = Some (NodeCacheEntry (node nEntry) (refCount nEntry + 1))
    /\ nodes ncs' !! pn_BlockPointer (ns_pathNode os)
       = (if decide (refCount oEntry = 1) then None
          else Some (NodeCacheEntry o (refCount oEntry - 1)))
    /\ (forall p, p <> pn_BlockPointer (ns_pathNode nps) ->
                  p <> pn_BlockPointer (ns_pathNode os) ->
                  nodes ncs' !! p = nodes ncs !! p)
    /\ mem ncs'
       = alter (fun x => set_Name newName (set_parent (NodeStd a) x))
           (node entry) (mem ncs).
Proof.
  intros Hent Hm Hpar Hos Hoe Hnode Hnp Hne Hdiff Hrco Hrcn.
  unfold Move. rewrite Hent.
  unfold newChildForParentLocked. simpl. rewrite Hnp. simpl. rewrite Hne.
  rewrite decide_True by done. simpl.
  rewrite Hm. simpl. rewrite Hpar. rewrite decide_False by done.
  unfold forgetLocked. simpl. rewrite Hos. simpl.
  rewrite lookup_insert_ne by done. rewrite Hoe.
  rewrite decide_True by congruence.
  rewrite (wrap_int_small (refCount nEntry + 1)) by lia.
  rewrite (wrap_int_small (refCount oEntry - 1)) by lia.
  eexists. split; [reflexivity|].
  destruct (decide (refCount oEntry - 1 <= 0)) as [Hle|Hgt]; simpl.
  - rewrite decide_True by lia.
    rewrite lookup_delete_ne by congruence. rewrite lookup_insert_eq.
    rewrite lookup_delete_eq.
    repeat split; auto.
    intros p Hp1 Hp2.
    rewrite lookup_delete_ne by congruence.
    by rewrite lookup_insert_ne by congruence.
  - rewrite decide_False by lia.
    rewrite lookup_insert_eq.
    rewrite lookup_insert_ne by congruence. rewrite lookup_insert_eq.
    rewrite Hnode.
    repeat split; auto.
    intros p Hp1 Hp2.
    by rewrite !lookup_insert_ne by congruence.
Qed.

Lemma Move_transfers_one_reference_witness :
  nodes ex_tree !! 30%nat = Some (NodeCacheEntry 2 1)
  /\ mem ex_tree !! 2%nat
     = Some (NodeStandard (PathNode 30 "file") (NodeStd 1) zero_path)
  /\ mem ex_tree !! 1%nat
     = Some (NodeStandard (PathNode 20 "dir") (NodeStd 0) zero_path)
  /\ nodes ex_tree !! 20%nat = Some (NodeCacheEntry 1 2)
  /\ mem ex_tree !! 0%nat
     = Some (NodeStandard (PathNode 10 "root") NodeNil zero_path)
  /\ nodes ex_tree !! 10%nat = Some (NodeCacheEntry 0 2)
  /\ exists ncs',
       Move ex_tree 30 (NodeStd 0) "file2" = (None, ncs')
       /\ nodes ncs' !! 10%nat = Some (NodeCacheEntry 0 (2 + 1))
       /\ nodes ncs' !! 20%nat = Some (NodeCacheEntry 1 (2 - 1))
       /\ (forall p, p <> 10%nat -> p <> 20%nat ->
                     nodes ncs' !! p = nodes ex_tree !! p)
       /\ mem ncs'
          = alter (fun x => set_Name "file2" (set_parent (NodeStd 0) x))
              2%nat (mem ex_tree).
Proof.
  do 6 (split; [reflexivity|]).
  apply (Move_transfers_one_reference ex_tree 30 "file2"
           (NodeCacheEntry 2 1)
           (NodeStandard (PathNode 30 "file") (NodeStd 1) zero_path) 1 0
           (NodeStandard (PathNode 20 "dir") (NodeStd 0) zero_path)
           (NodeCacheEntry 1 2)
           (NodeStandard (PathNode 10 "root") NodeNil zero_path)
           (NodeCacheEntry 0 2));
    try reflexivity; simpl; lia.
Defined.

(** ** [PathFromNode] *)

Lemma walk_attached ncs d steps :
  attached (mem ncs) d steps ->
  forall fuel acc,
    (length steps <= fuel)%nat ->
    PathFromNode_walk ncs fuel acc (NodeStd d)
    = Some (LeftLoop (acc ++ reverse steps)).
Proof.
  induction 1 as [d ns Hd Hpar Hcp|d ns x steps Hd Hpar Hb IH];
    intros fuel acc Hf.
  - destruct fuel as [|fuel]; [simpl in Hf; lia|]. simpl. rewrite Hd. simpl.
    rewrite decide_False by (rewrite Hcp; simpl; lia).
    rewrite Hpar. by destruct fuel.
  - rewrite length_app in Hf. simpl in Hf.
    destruct fuel as [|fuel]; [lia|]. simpl. rewrite Hd. simpl.
    rewrite decide_False by (rewrite Hpar; intros [? _]; discriminate).
    rewrite Hpar, IH by lia.
    rewrite reverse_snoc. by rewrite <- app_assoc.
Qed.

(** X8.  For a node whose parent chain ends at a node without parent
    and without frozen path, [PathFromNode] returns the steps of the chain
    in root-to-leaf order (the walk collects them leaf-to-root and the
    in-place loop reverses them), tagged with the cache's tree identity and
    branch; as many iterations as the chain has nodes suffice, and the cache
    is unchanged. *)
Theorem PathFromNode_of_attached_node ncs d steps fuel :
  attached (mem ncs) d steps ->
  (length steps <= fuel)%nat ->
  PathFromNode ncs (NodeStd d) fuel
  = Some (Path (id ncs) (branch ncs) steps, ncs).
Proof.
  intros Hat Hf. unfold PathFromNode.
  rewrite (walk_attached ncs d steps Hat fuel [] Hf). simpl.
  by rewrite reverse_loop_reverse, reverse_involutive.
Qed.

Lemma PathFromNode_of_attached_node_witness :
  attached (mem ex_tree) 2
    [PathNode 10 "root"; PathNode 20 "dir"; PathNode 30 "file"]
  /\ (3 <= 3)%nat
  /\ PathFromNode ex_tree (NodeStd 2) 3
     = Some (Path 1 "master"
               [PathNode 10 "root"; PathNode 20 "dir"; PathNode 30 "file"],
             ex_tree).
Proof.
  assert (H : attached (mem ex_tree) 2
                [PathNode 10 "root"; PathNode 20 "dir"; PathNode 30 "file"]).
  { apply (attached_step _ 2%nat
             (NodeStandard (PathNode 30 "file") (NodeStd 1) zero_path) 1%nat
             [PathNode 10 "root"; PathNode 20 "dir"]); [reflexivity..|].
    apply (attached_step _ 1%nat
             (NodeStandard (PathNode 20 "dir") (NodeStd 0) zero_path) 0%nat
             [PathNode 10 "root"]); [reflexivity..|].
    apply (attached_root _ 0%nat
             (NodeStandard (PathNode 10 "root") NodeNil zero_path));
      reflexivity. }
  split; [exact H|]. split; [lia|].
  apply (PathFromNode_of_attached_node ex_tree 2
           [PathNode 10 "root"; PathNode 20 "dir"; PathNode 30 "file"] 3 H).
  simpl. lia.
Defined.

Lemma walk_closed ncs (P : nat -> Prop) :
  (forall a, P a ->
     exists ns b, mem ncs !! a = Some ns /\ ns_parent ns = NodeStd b /\ P b) ->
  forall fuel a acc, P a -> PathFromNode_walk ncs fuel acc (NodeStd a) = None.
Proof.
  intros Hclosed. induction fuel as [|fuel IH]; intros a acc Ha; [done|].
  destruct (Hclosed a Ha) as (ns & b & Hm & Hpar & Hb).
  simpl. rewrite Hm. simpl.
  rewrite decide_False by (rewrite Hpar; intros [? _]; discriminate).
  rewrite Hpar. by apply IH.
Qed.

(** X9.  The loop of [PathFromNode] has no bound: on a set of
    allocated nodes that is closed under taking the parent - a cycle of
    parent references - the walk never reaches nil, a foreign node or an
    unlinked node, and no number of iterations makes it return. *)
Theorem PathFromNode_diverges_on_cycle ncs (P : nat -> Prop) a fuel :
  (forall x, P x ->
     exists ns b, mem ncs !! x = Some ns /\ ns_parent ns = NodeStd b /\ P b) ->
  P a ->
  PathFromNode ncs (NodeStd a) fuel = None.
Proof.
  intros Hclosed Ha. unfold PathFromNode.
  by rewrite (walk_closed ncs P Hclosed fuel a [] Ha).
Qed.

Lemma PathFromNode_diverges_on_cycle_witness :
  (forall x, (x < 3)%nat ->
     exists ns b, mem ex_cycle !! x = Some ns /\ ns_parent ns = NodeStd b
                  /\ (b < 3)%nat)
  /\ (2 < 3)%nat
  /\ PathFromNode ex_cycle (NodeStd 2) 1000 = None.
Proof.
  assert (H : forall x, (x < 3)%nat ->
     exists ns b, mem ex_cycle !! x = Some ns /\ ns_parent ns = NodeStd b
                  /\ (b < 3)%nat).
  { intros x Hx.
    destruct x as [|[|[|x]]]; [| | |lia].
    - exists (NodeStandard (PathNode 10 "root") (NodeStd 2) zero_path), 2%nat.
      split; [reflexivity|]. split; [reflexivity|]. lia.
    - exists (NodeStandard (PathNode 20 "dir") (NodeStd 0) zero_path), 0%nat.
      split; [reflexivity|]. split; [reflexivity|]. lia.
    - exists (NodeStandard (PathNode 30 "file") (NodeStd 1) zero_path), 1%nat.
      split; [reflexivity|]. split; [reflexivity|]. lia. }
  split; [exact H|]. split; [lia|].
  apply (PathFromNode_diverges_on_cycle ex_cycle (fun x => (x < 3)%nat) 2 1000 H).
  lia.
Defined.

Lemma newChildForParentLocked_mem ncs parent :
  mem (newChildForParentLocked ncs parent).2 = mem ncs.
Proof.
  unfold newChildForParentLocked.
  destruct (as_nodeStandard ncs parent) as [[a ns]|]; [|done].
  destruct (nodes ncs !! _); [|done].
  by case_decide.
Qed.

Lemma Move_mem ncs ptr newParent newName entry :
  nodes ncs !! ptr = Some entry ->
  (Move ncs ptr newParent newName).1 = None ->
  mem (Move ncs ptr newParent newName).2
  = alter (fun x => set_Name newName (set_parent newParent x))
      (node entry) (mem ncs).
Proof.
  intros Hent. unfold Move. rewrite Hent.
  pose proof (newChildForParentLocked_mem ncs newParent) as Hmem.
  destruct (newChildForParentLocked ncs newParent) as [[e|] ncs1];
    [discriminate|].
  simpl in *. intros _.
  case_decide; simpl; [by rewrite Hmem|].
  by rewrite forgetLocked_mem, Hmem.
Qed.

(** X10.  [Move] does not check for cycles: a node can be moved
    under itself.  The call succeeds, and afterwards [PathFromNode] on that
    node returns for no number of iterations. *)
Theorem Move_under_itself_is_accepted ncs ptr name entry ns :
  nodes ncs !! ptr = Some entry ->
  mem ncs !! node entry = Some ns ->
  pn_BlockPointer (ns_pathNode ns) = ptr ->
  (Move ncs ptr (NodeStd (node entry)) name).1 = None
  /\ forall fuel,
       PathFromNode (Move ncs ptr (NodeStd (node entry)) name).2
         (NodeStd (node entry)) fuel = None.
Proof.
  intros Hent Hm Hp.
  assert (Hok : (Move ncs ptr (NodeStd (node entry)) name).1 = None).
  { unfold Move. rewrite Hent.
    unfold newChildForParentLocked. simpl. rewrite Hm. simpl.
    rewrite Hp, Hent. by rewrite decide_True. }
  split; [done|]. intros fuel. unfold PathFromNode.
  rewrite (walk_closed _ (fun x => x = node entry)); [done| |done].
  intros x ->.
  rewrite (Move_mem _ _ _ _ _ Hent Hok).
  eexists _, (node entry). rewrite list_lookup_alter_eq, Hm. simpl.
  done.
Qed.

Lemma Move_under_itself_is_accepted_witness :
  nodes ex_tree !! 20%nat = Some (NodeCacheEntry 1 2)
  /\ mem ex_tree !! 1%nat
     = Some (NodeStandard (PathNode 20 "dir") (NodeStd 0) zero_path)
  /\ (Move ex_tree 20 (NodeStd 1) "dir").1 = None
  /\ forall fuel,
       PathFromNode (Move ex_tree 20 (NodeStd 1) "dir").2 (NodeStd 1) fuel
       = None.
Proof.
  split; [reflexivity|]. split; [reflexivity|].
  apply (Move_under_itself_is_accepted ex_tree 20 "dir" (NodeCacheEntry 1 2)
           (NodeStandard (PathNode 20 "dir") (NodeStd 0) zero_path));
    reflexivity.
Defined.

(** ** [Unlink] *)

Lemma forgetLocked_lookup ncs n p e' :
  nodes (forgetLocked ncs n) !! p = Some e' ->
  exists e, nodes ncs !! p = Some e /\ node e = node e'.
Proof.
  unfold forgetLocked.
  destruct (as_nodeStandard ncs n) as [[a ns]|]; [|by eauto].
  destruct (nodes ncs !! pn_BlockPointer (ns_pathNode ns)) as [entry|] eqn:He;
    [|by eauto].
  repeat case_decide; simpl; try by eauto.
  - intros [_ Hp]%lookup_delete_Some. eauto.
  - intros [[<- <-]|[_ Hp]]%lookup_insert_Some; eauto.
Qed.

Lemma list_alter_fixed {A} (f : A -> A) (l : list A) (i : nat) :
  (forall x, l !! i = Some x -> f x = x) -> alter f i l = l.
Proof.
  intros H. apply list_eq. intros j. rewrite list_lookup_alter.
  case_decide as Hij; [subst j|done].
  destruct (l !! i) as [x|] eqn:Hx; [|done]. simpl. by rewrite H.
Qed.

Lemma Unlink_lookup ncs ptr oldPath p e' :
  nodes (Unlink ncs ptr oldPath) !! p = Some e' ->
  exists e, nodes ncs !! p = Some e /\ node e = node e'.
Proof.
  unfold Unlink. destruct (nodes ncs !! ptr) as [entry|]; [|by eauto].
  simpl. case_decide; simpl; [by eauto|].
  intros (e & He & Hn)%forgetLocked_lookup. eauto.
Qed.

Lemma Unlink_parentless ncs ptr oldPath entry :
  nodes ncs !! ptr = Some entry ->
  (forall ns, mem ncs !! node entry = Some ns -> ns_parent ns = NodeNil) ->
  nodes (Unlink ncs ptr oldPath) = nodes ncs.
Proof.
  intros Hent Hpar. unfold Unlink. rewrite Hent. simpl.
  rewrite list_lookup_alter_eq.
  destruct (mem ncs !! node entry) as [ns|] eqn:Hm; simpl.
  - rewrite (Hpar ns eq_refl). by rewrite decide_True.
  - done.
Qed.

(** X11.  A second [Unlink] of the same pointer releases no further
    reference: the first call has cleared the parent field, so the entries
    are the same after both calls as after the first; the only effect of the
    second call is to replace the frozen path of the node. *)
Theorem Unlink_releases_the_parent_once ncs ptr path1 path2 :
  nodes (Unlink (Unlink ncs ptr path1) ptr path2)
  = nodes (Unlink ncs ptr path1)
  /\ (forall entry,
        nodes (Unlink ncs ptr path1) !! ptr = Some entry ->
        mem (Unlink (Unlink ncs ptr path1) ptr path2)
        = alter (set_cachedPath path2) (node entry)
            (mem (Unlink ncs ptr path1))).
Proof.
  destruct (nodes (Unlink ncs ptr path1) !! ptr) as [e1|] eqn:He1.
  2:{ split; [|done]. unfold Unlink at 1. by rewrite He1. }
  destruct (Unlink_lookup _ _ _ _ _ He1) as (e & He & Hnode).
  destruct (Unlink_effect ncs ptr path1 e He) as (_ & _ & Hmem).
  assert (Hpar : forall ns, mem (Unlink ncs ptr path1) !! node e1 = Some ns ->
                   ns_parent ns = NodeNil /\ pn_Name (ns_pathNode ns) = EmptyString).
  { intros ns. rewrite Hmem, <- Hnode, !list_lookup_alter_eq.
    destruct (mem ncs !! node e) as [x|]; simpl; [|done].
    by intros [= <-]. }
  split.
  - apply (Unlink_parentless _ _ _ _ He1). intros ns Hns.
    by destruct (Hpar ns Hns).
  - intros entry [= <-].
    destruct (Unlink_effect (Unlink ncs ptr path1) ptr path2 e1 He1)
      as (_ & _ & ->).
    apply list_alter_fixed. intros x.
    rewrite list_lookup_alter_eq.
    destruct (mem (Unlink ncs ptr path1) !! node e1) as [y|] eqn:Hy;
      simpl; [|done].
    intros [= <-]. destruct (Hpar y eq_refl) as [Hp Hn].
    destruct y as [[bp nm] par cp]. simpl in *. by subst.
Qed.

(** ** [UpdatePointer] *)

(** X12.  Re-keying an entry to a pointer that has no entry and back
    restores the cache state exactly, provided the entry's node carries the
    old pointer: entries and stored nodes are the original ones. *)
Theorem UpdatePointer_round_trip ncs oldPtr newPtr entry ns :
  nodes ncs !! oldPtr = Some entry ->
  nodes ncs !! newPtr = None ->
  mem ncs !! node entry = Some ns ->
  pn_BlockPointer (ns_pathNode ns) = oldPtr ->
  UpdatePointer (UpdatePointer ncs oldPtr newPtr) newPtr oldPtr = ncs.
Proof.
  intros Hold Hnew Hm Hp.
  assert (Hne : oldPtr <> newPtr) by congruence.
  unfold UpdatePointer. rewrite Hold. simpl. rewrite lookup_insert_eq.
  destruct ncs as [i b nd m]. simpl in *. f_equal.
  - rewrite delete_insert_id
      by (rewrite lookup_delete_ne by done; exact Hnew).
    by apply insert_delete_id.
  - rewrite list_alter_alter_eq. apply list_alter_fixed.
    intros x Hx. rewrite Hm in Hx. injection Hx as <-.
    destruct ns as [[bp nm] par cp]. simpl in *. by subst.
Qed.

Lemma UpdatePointer_round_trip_witness :
  nodes ex_tree !! 20%nat = Some (NodeCacheEntry 1 2)
  /\ nodes ex_tree !! 21%nat = None
  /\ mem ex_tree !! 1%nat
     = Some (NodeStandard (PathNode 20 "dir") (NodeStd 0) zero_path)
  /\ UpdatePointer (UpdatePointer ex_tree 20 21) 21 20 = ex_tree.
Proof.
  split; [reflexivity|]. split; [reflexivity|]. split; [reflexivity|].
  apply (UpdatePointer_round_trip ex_tree 20 21 (NodeCacheEntry 1 2)
           (NodeStandard (PathNode 20 "dir") (NodeStd 0) zero_path));
    reflexivity.
Defined.

(** ** Invariants of the cache *)

Lemma newChildForParentLocked_success ncs parent ncs1 :
  newChildForParentLocked ncs parent = (None, ncs1) ->
  exists (a : nat) ns pEntry,
    parent = NodeStd a /\ mem ncs !! a = Some ns
    /\ nodes ncs !! pn_BlockPointer (ns_pathNode ns) = Some pEntry
    /\ ncs1 = set_nodes ncs
                (<[pn_BlockPointer (ns_pathNode ns)
                   := NodeCacheEntry (node pEntry)
                        (wrap_int (refCount pEntry + 1))]> (nodes ncs)).
Proof.
  unfold newChildForParentLocked.
  destruct (as_nodeStandard ncs parent) as [[a ns]|] eqn:Has; [|discriminate].
  apply as_nodeStandard_Some in Has as [-> Hm].
  destruct (nodes ncs !! _) as [pEntry|] eqn:He; [|discriminate].
  rewrite decide_True by done. intros [= <-].
  by exists a, ns, pEntry.
Qed.

Lemma newChildForParentLocked_lookup ncs parent p e' :
  nodes (newChildForParentLocked ncs parent).2 !! p = Some e' ->
  exists e, nodes ncs !! p = Some e /\ node e = node e'.
Proof.
  unfold newChildForParentLocked.
  destruct (as_nodeStandard ncs parent) as [[a ns]|]; [|by eauto].
  destruct (nodes ncs !! pn_BlockPointer (ns_pathNode ns)) as [pEntry|] eqn:He;
    [|by eauto].
  case_decide; simpl; [|by eauto].
  intros [[<- <-]|[_ Hp]]%lookup_insert_Some; eauto.
Qed.

(** Entries that keep their node and nodes that keep their pointer keep
    the entries filed correctly. *)
Lemma keyed_frame ncs ncs' :
  keyed ncs ->
  (forall p e', nodes ncs' !! p = Some e' ->
     exists e, nodes ncs !! p = Some e /\ node e = node e') ->
  (forall (a : nat) ns, mem ncs !! a = Some ns ->
     exists ns', mem ncs' !! a = Some ns'
       /\ pn_BlockPointer (ns_pathNode ns') = pn_BlockPointer (ns_pathNode ns)) ->
  keyed ncs'.
Proof.
  intros Hk Hn Hm p e' He'.
  destruct (Hn p e' He') as (e & He & Hnode).
  destruct (Hk p e He) as (ns & Hns & Hp).
  destruct (Hm _ _ Hns) as (ns' & Hns' & Hp').
  exists ns'. rewrite <- Hnode. split; [done|congruence].
Qed.

Lemma alter_keeps_pointer (f : nodeStandard -> nodeStandard) (k : nat)
    (m : list nodeStandard) (a : nat) ns :
  (forall x, pn_BlockPointer (ns_pathNode (f x))
             = pn_BlockPointer (ns_pathNode x)) ->
  m !! a = Some ns ->
  exists ns', alter f k m !! a = Some ns'
    /\ pn_BlockPointer (ns_pathNode ns') = pn_BlockPointer (ns_pathNode ns).
Proof.
  intros Hf Ha. rewrite list_lookup_alter.
  case_decide as Hka; [subst k|by eauto].
  rewrite Ha. simpl. eauto.
Qed.

Lemma keyed_inj ncs p1 p2 e1 e2 :
  keyed ncs -> nodes ncs !! p1 = Some e1 -> nodes ncs !! p2 = Some e2 ->
  node e1 = node e2 -> p1 = p2.
Proof.
  intros Hk H1 H2 Hn.
  destruct (Hk _ _ H1) as (ns1 & Hm1 & <-).
  destruct (Hk _ _ H2) as (ns2 & Hm2 & <-).
  congruence.
Qed.

Lemma do_call_keyed ncs c : keyed ncs -> keyed (do_call ncs c).
Proof.
  intros Hk. destruct c as [ptr name parent|n|oldPtr newPtr|ptr np nn|ptr op];
    simpl.
  - unfold GetOrCreate, GetOrCreate_fast, GetOrCreate_slow.
    destruct (nodes ncs !! ptr) as [entry|] eqn:He; simpl.
    + apply (keyed_frame ncs); [done| |by eauto].
      intros p e'. simpl.
      intros [[<- <-]|[_ Hp]]%lookup_insert_Some; eauto.
    + assert (Hk1 : keyed (newChildForParentLocked ncs parent).2).
      { apply (keyed_frame ncs); [done| |].
        - apply newChildForParentLocked_lookup.
        - rewrite newChildForParentLocked_mem. eauto. }
      pose proof (newChildForParentLocked_mem ncs parent) as Hmem.
      assert (Hnew : forall ncs1 : nodeCacheStandard,
                keyed ncs1 ->
                keyed (NodeCacheStandard (id ncs1) (branch ncs1)
                         (<[ptr := NodeCacheEntry (length (mem ncs1)) 1]>
                            (nodes ncs1))
                         (mem ncs1 ++ [newNodeStandard ptr name parent]))).
      { intros ncs1 H1 p e. simpl.
        intros [[<- <-]|[_ Hp]]%lookup_insert_Some; simpl.
        - eexists. rewrite lookup_app_r by lia. rewrite Nat.sub_diag.
          simpl. done.
        - destruct (H1 p e Hp) as (ns & Hns & Hpp).
          exists ns. split; [|done]. by apply lookup_app_l_Some. }
      destruct (decide (parent = NodeNil)) as [Hnil|Hnn]; [by apply Hnew|].
      destruct (newChildForParentLocked ncs parent) as [[err|] ncs1] eqn:Hc;
        simpl in *.
      * by destruct (newChildForParentLocked_error _ _ _ _ Hc) as (-> & _).
      * by apply Hnew.
  - apply (keyed_frame ncs); [done| |].
    + apply forgetLocked_lookup.
    + unfold forget. rewrite forgetLocked_mem. eauto.
  - unfold UpdatePointer.
    destruct (nodes ncs !! oldPtr) as [entry|] eqn:He; [|done].
    intros p e. simpl.
    intros [[<- <-]|[Hpn [Hpo Hp]%lookup_delete_Some]]%lookup_insert_Some.
    + destruct (Hk _ _ He) as (ns & Hns & _).
      eexists. rewrite list_lookup_alter_eq, Hns. simpl. done.
    + destruct (Hk _ _ Hp) as (ns & Hns & Hpp).
      exists ns. split; [|done].
      rewrite list_lookup_alter_ne; [done|].
      intros Heq. apply Hpo. symmetry.
      by apply (keyed_inj ncs p oldPtr e entry).
  - apply (keyed_frame ncs); [done| |].
    + unfold Move.
      destruct (nodes ncs !! ptr) as [entry|] eqn:He; [|by eauto].
      pose proof (newChildForParentLocked_lookup ncs np) as Hl.
      destruct (newChildForParentLocked ncs np) as [[err|] ncs1]; simpl in *;
        [done|].
      intros p e'. case_decide; simpl; [by apply Hl|].
      intros (e & Hp & Hn)%forgetLocked_lookup.
      destruct (Hl _ _ Hp) as (e0 & ? & ?). exists e0. split; congruence.
    + intros a ns Ha. unfold Move.
      destruct (nodes ncs !! ptr) as [entry|] eqn:He; [|by eauto].
      pose proof (newChildForParentLocked_mem ncs np) as Hmem.
      destruct (newChildForParentLocked ncs np) as [[err|] ncs1]; simpl in *.
      { rewrite Hmem. eauto. }
      apply alter_keeps_pointer; [done|].
      case_decide; [congruence|]. by rewrite forgetLocked_mem, Hmem.
  - apply (keyed_frame ncs); [done| |].
    + apply Unlink_lookup.
    + intros a ns Ha. unfold Unlink.
      destruct (nodes ncs !! ptr) as [entry|] eqn:He; [|by eauto].
      destruct (Unlink_effect ncs ptr op entry He) as (_ & _ & Hmem).
      unfold Unlink in Hmem. rewrite He in Hmem. rewrite Hmem.
      destruct (alter_keeps_pointer (set_cachedPath op) (node entry)
                  (mem ncs) a ns ltac:(done) Ha) as (ns1 & Hns1 & Hp1).
      destruct (alter_keeps_pointer
                  (fun x => set_Name EmptyString (set_parent NodeNil x))
                  (node entry) _ a ns1 ltac:(done) Hns1) as (ns2 & Hns2 & Hp2).
      exists ns2. split; [done|congruence].
Qed.

Lemma do_call_length ncs c : (length (mem ncs) <= length (mem (do_call ncs c)))%nat.
Proof.
  destruct c as [ptr name parent|n|oldPtr newPtr|ptr np nn|ptr op]; simpl.
  - unfold GetOrCreate, GetOrCreate_fast, GetOrCreate_slow.
    destruct (nodes ncs !! ptr) as [entry|] eqn:He; simpl; [done|].
    pose proof (newChildForParentLocked_mem ncs parent) as Hmem.
    destruct (decide (parent = NodeNil)) as [Hnil|Hnn].
    + simpl. rewrite length_app. lia.
    + destruct (newChildForParentLocked ncs parent) as [[err|] ncs1];
        simpl in *; [by rewrite Hmem|].
      rewrite length_app, Hmem. lia.
  - unfold forget. by rewrite forgetLocked_mem.
  - unfold UpdatePointer. destruct (nodes ncs !! oldPtr); [|done].
    simpl. by rewrite length_alter.
  - unfold Move. destruct (nodes ncs !! ptr); [|done].
    pose proof (newChildForParentLocked_mem ncs np) as Hmem.
    destruct (newChildForParentLocked ncs np) as [[err|] ncs1]; simpl in *;
      [by rewrite Hmem|].
    rewrite length_alter. case_decide; [by rewrite Hmem|].
    by rewrite forgetLocked_mem, Hmem.
  - unfold Unlink. destruct (nodes ncs !! ptr) as [entry|] eqn:He; [|done].
    destruct (Unlink_effect ncs ptr op entry He) as (_ & _ & Hmem).
    unfold Unlink in Hmem. rewrite He in Hmem. rewrite Hmem.
    by rewrite !length_alter.
Qed.

Lemma do_call_parents_standard ncs c :
  parents_standard ncs -> parents_standard (do_call ncs c).
Proof.
  intros Hps.
  assert (Hmono : forall ncs' : nodeCacheStandard,
            mem ncs' = mem ncs -> parents_standard ncs').
  { intros ncs' Hm a ns. rewrite Hm. apply Hps. }
  assert (Halter : forall (ncs' : nodeCacheStandard) f (k : nat),
            mem ncs' = alter f k (mem ncs) ->
            (forall x, ns_parent (f x) = ns_parent x
                       \/ ns_parent (f x) = NodeNil
                       \/ exists b : nat, ns_parent (f x) = NodeStd b
                                          /\ (b < length (mem ncs))%nat) ->
            parents_standard ncs').
  { intros ncs' f k Hm Hf a ns. rewrite Hm, length_alter, list_lookup_alter.
    case_decide as Hka; [subst k|by apply Hps].
    destruct (mem ncs !! a) as [x|] eqn:Hx; simpl; [|done].
    intros [= <-]. destruct (Hf x) as [->|[->|H]]; eauto. }
  destruct c as [ptr name parent|n|oldPtr newPtr|ptr np nn|ptr op]; simpl.
  - unfold GetOrCreate, GetOrCreate_fast, GetOrCreate_slow.
    destruct (nodes ncs !! ptr) as [entry|] eqn:He; simpl;
      [by apply Hmono|].
    assert (Hnew : forall ncs1 : nodeCacheStandard,
              mem ncs1 = mem ncs ->
              (parent = NodeNil
               \/ exists b : nat, parent = NodeStd b
                                  /\ (b < length (mem ncs))%nat) ->
              parents_standard
                (NodeCacheStandard (id ncs1) (branch ncs1)
                   (<[ptr := NodeCacheEntry (length (mem ncs1)) 1]>
                      (nodes ncs1))
                   (mem ncs1 ++ [newNodeStandard ptr name parent]))).
    { intros ncs1 Hm Hpar a ns. simpl. rewrite Hm, length_app. simpl.
      intros [Ha|[Hlen Ha]]%lookup_app_Some.
      - destruct (Hps a ns Ha) as [?|(b & ? & ?)]; [by left|].
        right. exists b. split; [done|lia].
      - destruct (a - length (mem ncs))%nat; [|done].
        injection Ha as <-. simpl.
        destruct Hpar as [?|(b & ? & ?)]; [by left|].
        right. exists b. split; [done|lia]. }
    destruct (decide (parent = NodeNil)) as [Hnil|Hnn];
      [apply Hnew; auto|].
    destruct (newChildForParentLocked ncs parent) as [[err|] ncs1] eqn:Hc;
      simpl.
    + destruct (newChildForParentLocked_error _ _ _ _ Hc) as (-> & _).
      by apply Hmono.
    + destruct (newChildForParentLocked_success _ _ _ Hc)
        as (a & ns & pe & -> & Hm & _ & ->).
      apply Hnew; [done|]. right. exists a. split; [done|].
      by apply lookup_lt_Some in Hm.
  - apply Hmono. unfold forget. by rewrite forgetLocked_mem.
  - unfold UpdatePointer. destruct (nodes ncs !! oldPtr); [|done].
    eapply Halter; [reflexivity|]. intros x. by left.
  - unfold Move. destruct (nodes ncs !! ptr) as [entry|]; [|done].
    destruct (newChildForParentLocked ncs np) as [[err|] ncs1] eqn:Hc;
      simpl.
    + destruct (newChildForParentLocked_error _ _ _ _ Hc) as (-> & _). done.
    + destruct (newChildForParentLocked_success _ _ _ Hc)
        as (a & ns & pe & -> & Hm & _ & ->).
      eapply (Halter _ _ (node entry)).
      * case_decide; simpl; [reflexivity|].
        rewrite forgetLocked_mem. reflexivity.
      * intros x. right. right. exists a. split; [done|].
        by apply lookup_lt_Some in Hm.
  - unfold Unlink. destruct (nodes ncs !! ptr) as [entry|] eqn:He; [|done].
    destruct (Unlink_effect ncs ptr op entry He) as (_ & _ & Hmem).
    unfold Unlink in Hmem. rewrite He in Hmem.
    eapply (Halter _ _ (node entry)).
    + rewrite Hmem, list_alter_alter_eq. reflexivity.
    + intros x. right. by left.
Qed.

Lemma cache_reachable_keyed ncs :
  cache_reachable ncs -> keyed ncs /\ parents_standard ncs.
Proof.
  intros (i & b & calls & ->).
  induction calls as [|c calls IH] using rev_ind.
  - split.
    + intros p e. simpl. by rewrite lookup_empty.
    + intros a ns. simpl. by rewrite lookup_nil.
  - rewrite foldl_app. simpl. destruct IH as [IH1 IH2]. split.
    + by apply do_call_keyed.
    + by apply do_call_parents_standard.
Qed.

(** X13.  In every state a cache goes through, every entry is filed
    under the pointer its node carries, no node is recorded under two
    pointers, every parent reference is nil or an allocated [nodeStandard]
    (never a foreign implementation), and [GetWithoutReference] returns nil
    or a handle that is current, i.e. one [forget] and
    [newChildForParentLocked] accept. *)
Theorem reachable_cache_is_consistent ncs :
  cache_reachable ncs ->
  keyed ncs
  /\ (forall p1 p2 e1 e2,
        nodes ncs !! p1 = Some e1 -> nodes ncs !! p2 = Some e2 ->
        node e1 = node e2 -> p1 = p2)
  /\ parents_standard ncs
  /\ (forall ptr,
        (GetWithoutReference ncs ptr).1 = NodeNil
        \/ current_handle ncs (GetWithoutReference ncs ptr).1).
Proof.
  intros Hr. destruct (cache_reachable_keyed ncs Hr) as [Hk Hps].
  split; [done|]. split; [|split; [done|]].
  - intros p1 p2 e1 e2. by apply keyed_inj.
  - intros ptr. unfold GetWithoutReference.
    destruct (nodes _ !! ptr) as [entry|] eqn:He; [|by left].
    right. simpl. destruct (Hk _ _ He) as (ns & Hns & Hp).
    exists (node entry), ns, entry. rewrite Hp. done.
Qed.

Lemma ex_tree_reachable : cache_reachable ex_tree.
Proof. exists 1%nat, "master", ex_tree_calls. reflexivity. Qed.

Lemma reachable_cache_is_consistent_witness :
  cache_reachable ex_tree
  /\ keyed ex_tree
  /\ (forall p1 p2 e1 e2,
        nodes ex_tree !! p1 = Some e1 -> nodes ex_tree !! p2 = Some e2 ->
        node e1 = node e2 -> p1 = p2)
  /\ parents_standard ex_tree
  /\ (forall ptr,
        (GetWithoutReference ex_tree ptr).1 = NodeNil
        \/ current_handle ex_tree (GetWithoutReference ex_tree ptr).1).
Proof.
  split; [exact ex_tree_reachable|].
  apply (reachable_cache_is_consistent ex_tree ex_tree_reachable).
Defined.

(** X14.  [UpdatePointer] does not look at the new pointer: when it
    already has an entry, that entry is overwritten whatever its reference
    count.  The node it recorded is recorded under no pointer afterwards,
    its handle is no longer current and [forget] ignores it. *)
Theorem UpdatePointer_overwrites_the_entry_at_newPtr ncs oldPtr newPtr
    entry other :
  cache_reachable ncs ->
  nodes ncs !! oldPtr = Some entry ->
  nodes ncs !! newPtr = Some other ->
  oldPtr <> newPtr ->
  let ncs' := UpdatePointer ncs oldPtr newPtr in
  nodes ncs' !! newPtr = Some entry
  /\ (forall p e, nodes ncs' !! p = Some e -> node e <> node other)
  /\ ~ current_handle ncs' (NodeStd (node other))
  /\ forget ncs' (NodeStd (node other)) = ncs'.
Proof.
  intros Hr Hold Hnew Hne ncs'.
  destruct (cache_reachable_keyed ncs Hr) as [Hk _].
  assert (Hnodes : nodes ncs' = <[newPtr := entry]> (delete oldPtr (nodes ncs))).
  { subst ncs'. unfold UpdatePointer. by rewrite Hold. }
  assert (Hfree : forall p e, nodes ncs' !! p = Some e -> node e <> node other).
  { intros p e. rewrite Hnodes.
    intros [[<- <-]|[Hpn [Hpo Hpe]%lookup_delete_Some]]%lookup_insert_Some Heq.
    - apply Hne. by apply (keyed_inj ncs oldPtr newPtr entry other).
    - apply Hpn. symmetry. by apply (keyed_inj ncs p newPtr e other). }
  assert (Hcur : ~ current_handle ncs' (NodeStd (node other))).
  { intros (a & ns' & e & [= <-] & _ & Hn' & Hnode).
    by apply (Hfree _ _ Hn'). }
  split; [by rewrite Hnodes, lookup_insert_eq|].
  split; [done|]. split; [done|].
  by apply forgetLocked_not_current.
Qed.

Lemma UpdatePointer_overwrites_the_entry_at_newPtr_witness :
  cache_reachable ex_tree
  /\ nodes ex_tree !! 20%nat = Some (NodeCacheEntry 1 2)
  /\ nodes ex_tree !! 30%nat = Some (NodeCacheEntry 2 1)
  /\ 20%nat <> 30%nat
  /\ nodes (UpdatePointer ex_tree 20 30) !! 30%nat = Some (NodeCacheEntry 1 2)
  /\ (forall p e, nodes (UpdatePointer ex_tree 20 30) !! p = Some e ->
                  node e <> 2%nat)
  /\ ~ current_handle (UpdatePointer ex_tree 20 30) (NodeStd 2)
  /\ forget (UpdatePointer ex_tree 20 30) (NodeStd 2)
     = UpdatePointer ex_tree 20 30.
Proof.
  split; [exact ex_tree_reachable|].
  split; [reflexivity|]. split; [reflexivity|]. split; [lia|].
  apply (UpdatePointer_overwrites_the_entry_at_newPtr ex_tree 20 30
           (NodeCacheEntry 1 2) (NodeCacheEntry 2 1) ex_tree_reachable);
    [reflexivity|reflexivity|lia].
Defined.

(** ** Reference counts stay positive *)

Lemma counts_within_mono n n' ncs :
  n <= n' -> counts_within n ncs -> counts_within n' ncs.
Proof. intros Hn H p e He. specialize (H p e He). lia. Qed.

Lemma forgetLocked_counts n ncs x :
  n < 2 ^ 63 -> counts_within n ncs -> counts_within n (forgetLocked ncs x).
Proof.
  intros Hn H. unfold forgetLocked.
  destruct (as_nodeStandard ncs x) as [[a ns]|]; [|done].
  destruct (nodes ncs !! pn_BlockPointer (ns_pathNode ns)) as [entry|] eqn:He;
    [|done].
  pose proof (H _ _ He) as Hrc.
  case_decide; [|done].
  rewrite wrap_int_small by lia.
  case_decide; intros p e; simpl.
  - intros [_ Hp]%lookup_delete_Some. by eapply H.
  - intros [[_ <-]|[_ Hp]]%lookup_insert_Some; simpl; [lia|]. by eapply H.
Qed.

Lemma newChildForParentLocked_counts n ncs parent :
  n + 1 < 2 ^ 63 -> counts_within n ncs ->
  counts_within (n + 1) (newChildForParentLocked ncs parent).2.
Proof.
  intros Hn H. unfold newChildForParentLocked.
  destruct (as_nodeStandard ncs parent) as [[a ns]|];
    [|by apply (counts_within_mono n); [lia|]].
  destruct (nodes ncs !! pn_BlockPointer (ns_pathNode ns)) as [entry|] eqn:He;
    [|by apply (counts_within_mono n); [lia|]].
  pose proof (H _ _ He) as Hrc.
  case_decide; [|by apply (counts_within_mono n); [lia|]].
  rewrite wrap_int_small by lia.
  intros p e. simpl.
  intros [[_ <-]|[_ Hp]]%lookup_insert_Some; simpl; [lia|].
  specialize (H _ _ Hp). lia.
Qed.

Lemma do_call_counts n ncs c :
  0 <= n -> n + 1 < 2 ^ 63 -> counts_within n ncs ->
  counts_within (n + 1) (do_call ncs c).
Proof.
  intros Hn0 Hn H.
  assert (Hup : counts_within (n + 1) ncs)
    by (apply (counts_within_mono n); [lia|done]).
  destruct c as [ptr name parent|x|oldPtr newPtr|ptr np nn|ptr op]; simpl.
  - unfold GetOrCreate, GetOrCreate_fast, GetOrCreate_slow.
    destruct (nodes ncs !! ptr) as [entry|] eqn:He; simpl.
    + pose proof (H _ _ He) as Hrc. rewrite wrap_int_small by lia.
      intros p e. simpl.
      intros [[_ <-]|[_ Hp]]%lookup_insert_Some; simpl; [lia|].
      by apply Hup in Hp.
    + assert (Hnew : forall ncs1 : nodeCacheStandard,
                counts_within (n + 1) ncs1 ->
                counts_within (n + 1)
                  (NodeCacheStandard (id ncs1) (branch ncs1)
                     (<[ptr := NodeCacheEntry (length (mem ncs1)) 1]>
                        (nodes ncs1))
                     (mem ncs1 ++ [newNodeStandard ptr name parent]))).
      { intros ncs1 H1 p e. simpl.
        intros [[_ <-]|[_ Hp]]%lookup_insert_Some; simpl; [lia|].
        by apply H1 in Hp. }
      destruct (decide (parent = NodeNil)) as [Hnil|Hnn]; [by apply Hnew|].
      pose proof (newChildForParentLocked_counts n ncs parent Hn H) as H1.
      destruct (newChildForParentLocked ncs parent) as [[err|] ncs1];
        simpl in *; [done|by apply Hnew].
  - unfold forget. apply forgetLocked_counts; [lia|done].
  - unfold UpdatePointer.
    destruct (nodes ncs !! oldPtr) as [entry|] eqn:He; [|done].
    intros p e. simpl.
    intros [[_ <-]|[_ [_ Hp]%lookup_delete_Some]]%lookup_insert_Some;
      by eapply Hup.
  - unfold Move. destruct (nodes ncs !! ptr) as [entry|]; [|done].
    pose proof (newChildForParentLocked_counts n ncs np Hn H) as H1.
    destruct (newChildForParentLocked ncs np) as [[err|] ncs1]; simpl in *;
      [done|].
    case_decide; [done|].
    intros p e Hp. simpl in Hp.
    eapply (forgetLocked_counts (n + 1)); [lia|exact H1|exact Hp].
  - unfold Unlink. destruct (nodes ncs !! ptr) as [entry|]; [|done].
    simpl. case_decide; [done|].
    intros p e Hp. simpl in Hp.
    eapply (forgetLocked_counts (n + 1)); [lia| |exact Hp].
    done.
Qed.

(** X15.  After any sequence of fewer than [2^63] calls on a new
    cache, every entry has a reference count of at least one and at most the
    number of calls: an entry whose count drops to zero is deleted on the
    spot, and no call adds more than one reference to an entry. *)
Theorem reference_counts_stay_positive i b calls :
  Z.of_nat (length calls) < 2 ^ 63 ->
  forall p e,
    nodes (after_calls i b calls) !! p = Some e ->
    1 <= refCount e <= Z.of_nat (length calls).
Proof.
  unfold after_calls.
  induction calls as [|c calls IH] using rev_ind; intros Hlen.
  - intros p e. simpl. by rewrite lookup_empty.
  - rewrite length_app in *. simpl in *. rewrite foldl_app. simpl.
    replace (Z.of_nat (length calls + 1)) with (Z.of_nat (length calls) + 1)
      by lia.
    apply do_call_counts; [lia..|].
    intros p e. apply IH. lia.
Qed.

Lemma reference_counts_stay_positive_witness :
  Z.of_nat (length ex_tree_calls) < 2 ^ 63
  /\ nodes (after_calls 1 "master" ex_tree_calls) !! 10%nat
     = Some (NodeCacheEntry 0 2)
  /\ 1 <= 2 <= Z.of_nat (length ex_tree_calls).
Proof.
  split; [simpl; lia|]. split; [reflexivity|].
  apply (reference_counts_stay_positive 1 "master" ex_tree_calls
           ltac:(simpl; lia) 10%nat (NodeCacheEntry 0 2)).
  reflexivity.
Defined.

End NodeCacheBehaviour.

(* ===================================================================== *)
(** * Further properties of the retrieval queue *)
(* ===================================================================== *)

Module RetrievalQueueBehaviour.
Import RetrievalQueue RetrievalQueueSpec RetrievalQueueProofs.

Lemma reachable_invariant (P : blockRetrievalQueue -> Prop) :
  (forall n, P (newBlockRetrievalQueue n)) ->
  (forall a0 q q', wf q -> P q -> step a0 q = Some q' -> P q') ->
  forall q, reachable q -> P q.
Proof.
  intros Hnew Hstep q (n & acts & Hrun).
  assert (H : forall q0, wf q0 -> P q0 -> run acts q0 = Some q -> P q).
  { clear Hrun. induction acts as [|a0 acts IH]; intros q0 Hwf HP Hrun;
      simpl in Hrun.
    - by injection Hrun as <-.
    - destruct (step a0 q0) as [q1|] eqn:Hs; [|discriminate].
      apply (IH q1); [by eapply step_wf|by eapply Hstep|done]. }
  apply (H (newBlockRetrievalQueue n));
    [apply newBlockRetrievalQueue_wf|apply Hnew|done].
Qed.

(** ** Records only grow *)

Lemma grown_refl br : grown br br.
Proof. unfold grown. repeat split; try done; lia. Qed.

Lemma grown_trans b1 b2 b3 : grown b1 b2 -> grown b2 b3 -> grown b1 b3.
Proof.
  intros (H1 & H2 & H3 & H4) (H1' & H2' & H3' & H4').
  unfold grown. repeat split; try congruence; [lia|by etrans].
Qed.

Lemma core_grown (x : option blockRetrieval) br :
  core <$> x = Some (core br) -> exists br', x = Some br' /\ grown br br'.
Proof.
  destruct x as [br'|]; simpl; [|discriminate].
  unfold core. intros [= H1 H2 H3 H4]. exists br'. split; [done|].
  unfold grown. rewrite H1, H2, H3, H4. repeat split; try done; lia.
Qed.

Lemma step_grown a0 q q' (a : nat) br :
  wf q -> step a0 q = Some q' -> retrievals q !! a = Some br ->
  exists br', retrievals q' !! a = Some br' /\ grown br br'.
Proof.
  intros Hwf Hstep Ha.
  destruct (action_cases a0) as [(c & prio & ptr & blk & ->)|Hother].
  - simpl in Hstep. injection Hstep as <-.
    destruct (Request_effect q c prio ptr blk Hwf)
      as (_ & _ & _ & Htgt & Hoth & _).
    destruct (decide (a = target q ptr)) as [->|Hne].
    + assert (Hf : found q prio ptr = Some br).
      { unfold found, target in *.
        destruct (ptrs q !! ptr) as [x|]; simpl in *; [done|].
        apply lookup_lt_Some in Ha. lia. }
      rewrite Hf in Htgt. simpl in Htgt.
      destruct (retrievals (Request q c prio ptr blk).2 !! target q ptr)
        as [br'|]; [|discriminate].
      simpl in Htgt. unfold core, joined in Htgt.
      injection Htgt as H1 H2 H3 H4.
      exists br'. split; [done|]. unfold grown.
      rewrite H1, H2, H3, H4. repeat split; try done; [lia|].
      by apply prefix_app_r.
    + apply core_grown. rewrite (Hoth a Hne), Ha. done.
  - destruct (other_step_effect a0 q q' Hwf Hstep Hother)
      as (_ & _ & Hcore & _).
    apply core_grown. rewrite Hcore, Ha. done.
Qed.

Lemma run_grown acts : forall q q' (a : nat) br,
  wf q -> run acts q = Some q' -> retrievals q !! a = Some br ->
  exists br', retrievals q' !! a = Some br' /\ grown br br'.
Proof.
  induction acts as [|a0 acts IH]; intros q q' a br Hwf Hrun Ha;
    simpl in Hrun.
  - injection Hrun as <-. exists br. split; [done|apply grown_refl].
  - destruct (step a0 q) as [q1|] eqn:Hs; [|discriminate].
    destruct (step_grown a0 q q1 a br Hwf Hs Ha) as (br1 & Ha1 & Hg1).
    destruct (IH q1 q' a br1 (step_wf _ _ _ Hwf Hs) Hrun Ha1)
      as (br' & Ha' & Hg').
    exists br'. split; [done|by eapply grown_trans].
Qed.

(** X16.  Along every run of the queue, an allocated record keeps
    its block pointer and its insertion number, its priority never
    decreases, and its list of requests is only extended at the end: no
    requester entry is ever removed or reordered, also after the record has
    been dispatched or finalized. *)
Theorem records_only_grow q acts q' (a : nat) br :
  reachable q -> run acts q = Some q' -> retrievals q !! a = Some br ->
  exists br',
    retrievals q' !! a = Some br'
    /\ blockPtr br' = blockPtr br
    /\ insertionOrder br' = insertionOrder br
    /\ priority br <= priority br'
    /\ requests br `prefix_of` requests br'.
Proof.
  intros Hr Hrun Ha.
  apply (run_grown acts q q' a br (reachable_wf q Hr) Hrun Ha).
Qed.

Lemma ex_queued_reachable : reachable ex_queued.
Proof. apply run_from_new_reachable. vm_compute. eauto. Qed.

Lemma records_only_grow_witness :
  reachable ex_queued
  /\ run [ARequest 1 5 7 1; AWorkOnRequest; ANotifyReceive; ANotifyPop 0;
          ARequest 2 3 7 2] ex_queued
     = Some (run_from_new 1
               [ARequest 0 1 7 0; ARequest 1 5 7 1; AWorkOnRequest;
                ANotifyReceive; ANotifyPop 0; ARequest 2 3 7 2])
  /\ retrievals ex_queued !! 0%nat
     = Some (BlockRetrieval 7 0 1 0 [BlockRetrievalRequest 0 0 0])
  /\ exists br',
       retrievals (run_from_new 1
                     [ARequest 0 1 7 0; ARequest 1 5 7 1; AWorkOnRequest;
                      ANotifyReceive; ANotifyPop 0; ARequest 2 3 7 2])
         !! 0%nat = Some br'
       /\ blockPtr br' = 7%nat
       /\ insertionOrder br' = 0
       /\ 1 <= priority br'
       /\ [BlockRetrievalRequest 0 0 0] `prefix_of` requests br'.
Proof.
  split; [exact ex_queued_reachable|].
  split; [vm_compute; reflexivity|].
  split; [vm_compute; reflexivity|].
  apply (records_only_grow ex_queued
           [ARequest 1 5 7 1; AWorkOnRequest; ANotifyReceive; ANotifyPop 0;
            ARequest 2 3 7 2]
           (run_from_new 1
               [ARequest 0 1 7 0; ARequest 1 5 7 1; AWorkOnRequest;
                ANotifyReceive; ANotifyPop 0; ARequest 2 3 7 2])
           0%nat
           (BlockRetrieval 7 0 1 0 [BlockRetrievalRequest 0 0 0])
           ex_queued_reachable);
    vm_compute; reflexivity.
Defined.

(** ** Insertion numbers *)

(** X17.  As long as fewer than [2^64] records have been created,
    [insertionCount] is the number of records created so far, the record
    created as the [a]-th (counting from zero) carries the insertion number
    [a], and two different records never share an insertion number. *)
Theorem insertion_numbers_count_creations q :
  reachable q ->
  Z.of_nat (length (retrievals q)) < 2 ^ 64 ->
  insertionCount q = Z.of_nat (length (retrievals q))
  /\ (forall (a : nat) br,
        retrievals q !! a = Some br -> insertionOrder br = Z.of_nat a)
  /\ (forall (a b : nat) bra brb,
        retrievals q !! a = Some bra -> retrievals q !! b = Some brb ->
        a <> b -> insertionOrder bra <> insertionOrder brb).
Proof.
  intros Hr Hlen. destruct (reachable_numbered q Hr) as [Hc Hn].
  assert (Hio : forall (a : nat) br,
            retrievals q !! a = Some br -> insertionOrder br = Z.of_nat a).
  { intros a br Ha. rewrite (Hn a br Ha).
    apply lookup_lt_Some in Ha. apply wrap_uint64_small. lia. }
  split; [|split; [done|]].
  - rewrite Hc. apply wrap_uint64_small. lia.
  - intros a b bra brb Ha Hb Hne.
    rewrite (Hio a bra Ha), (Hio b brb Hb). lia.
Qed.

Lemma ex_three_reachable : reachable ex_three.
Proof. apply run_from_new_reachable. vm_compute. eauto. Qed.

Lemma insertion_numbers_count_creations_witness :
  reachable ex_three
  /\ Z.of_nat (length (retrievals ex_three)) < 2 ^ 64
  /\ insertionCount ex_three = Z.of_nat (length (retrievals ex_three))
  /\ (forall (a : nat) br,
        retrievals ex_three !! a = Some br -> insertionOrder br = Z.of_nat a)
  /\ (forall (a b : nat) bra brb,
        retrievals ex_three !! a = Some bra ->
        retrievals ex_three !! b = Some brb ->
        a <> b -> insertionOrder bra <> insertionOrder brb).
Proof.
  split; [exact ex_three_reachable|].
  split; [vm_compute; reflexivity|].
  apply (insertion_numbers_count_creations ex_three ex_three_reachable).
  vm_compute. reflexivity.
Defined.

(** ** The map *)

(** X18.  In every reachable state the map [ptrs] sends a pointer
    to an allocated record whose [blockPtr] is that pointer, and no record
    is registered under two pointers. *)
Theorem map_files_each_record_under_its_pointer q :
  reachable q ->
  (forall p (a : nat),
     ptrs q !! p = Some a ->
     exists br, retrievals q !! a = Some br /\ blockPtr br = p)
  /\ (forall p1 p2 (a : nat),
        ptrs q !! p1 = Some a -> ptrs q !! p2 = Some a -> p1 = p2).
Proof.
  intros Hr. pose proof (reachable_wf q Hr) as Hwf. split.
  - intros p a Hp. destruct Hwf as [_ Hreg]. specialize (Hreg p a Hp).
    destruct (retrievals q !! a) as [br|]; [|discriminate].
    exists br. split; [done|]. simpl in Hreg. congruence.
  - intros p1 p2 a. by apply registered_inj.
Qed.

Lemma map_files_each_record_under_its_pointer_witness :
  reachable ex_three
  /\ (forall p (a : nat),
        ptrs ex_three !! p = Some a ->
        exists br, retrievals ex_three !! a = Some br /\ blockPtr br = p)
  /\ (forall p1 p2 (a : nat),
        ptrs ex_three !! p1 = Some a -> ptrs ex_three !! p2 = Some a ->
        p1 = p2).
Proof.
  split; [exact ex_three_reachable|].
  apply (map_files_each_record_under_its_pointer ex_three ex_three_reachable).
Defined.

(** ** No record is lost or dispatched twice *)

Lemma notifyWorker_pop_effect q k q' :
  wf q -> notifyWorker_pop q k = Some q' ->
  exists ch (a : nat),
    claimed q !! k = Some ch
    /\ heap q = a :: heap q'
    /\ delivered q' = delivered q ++ [(ch, a)]
    /\ length (retrievals q') = length (retrievals q)
    /\ claimed q' = delete k (claimed q)
    /\ workerQueue q' = workerQueue q
    /\ nextChan q' = nextChan q
    /\ numWorkers q' = numWorkers q.
Proof.
  intros [Hok _]. unfold notifyWorker_pop.
  destruct (claimed q !! k) as [ch|] eqn:Hk; [|discriminate].
  destruct (heap_Pop (retrievals q) (heap q)) as [[[a rs] h]|] eqn:Hpop;
    [|discriminate].
  intros [= <-].
  destruct (heap_Pop_ok _ _ _ _ _ Hok Hpop) as (Hh & _ & Hlen & _).
  exists ch, a. simpl. done.
Qed.

Lemma step_accounted a0 q q' :
  wf q -> accounted q -> step a0 q = Some q' -> accounted q'.
Proof.
  unfold accounted. intros Hwf Hacc Hstep.
  destruct a0 as [c prio ptr blk| | |k|ptr]; simpl in Hstep.
  - injection Hstep as <-. apply wf_heap_wf in Hwf.
    destruct (ptrs q !! ptr) as [a|] eqn:Hp.
    + destruct (Request_existing_spec q c prio ptr blk a Hwf Hp)
        as (_ & _ & Hlen & _ & _ & Hperm & _ & _ & _ & _ & _ & Hd).
      by rewrite Hperm, Hlen, Hd.
    + destruct (Request_new_spec q c prio ptr blk Hwf Hp)
        as (_ & _ & Hlen & _ & _ & Hperm & _ & _ & _ & _ & _ & Hd).
      rewrite Hperm, Hlen, Hd, seq_S. simpl.
      rewrite Hacc. by rewrite Permutation_cons_append.
  - unfold WorkOnRequest in Hstep.
    destruct (decide _); simpl in Hstep.
    + by injection Hstep as <-.
    + destruct (numWorkers q), (notifiers q); simpl in Hstep; try discriminate.
      by injection Hstep as <-.
  - unfold notifyWorker_receive in Hstep.
    destruct (notifiers q), (workerQueue q); try discriminate.
    by injection Hstep as <-.
  - destruct (notifyWorker_pop_effect q k q' Hwf Hstep)
      as (ch & a & _ & Hh & Hd & Hlen & _).
    rewrite Hh in Hacc. rewrite Hd, Hlen, <- Hacc, fmap_app. simpl.
    rewrite (Permutation_app_comm (heap q')), <- app_assoc. simpl.
    rewrite <- Permutation_middle.
    by rewrite (Permutation_app_comm (heap q')).
  - by injection Hstep as <-.
Qed.

(** X19.  In every reachable state the records in the heap followed
    by the records sent to workers are a permutation of all records created
    so far: no record is lost, no record is sent to two workers, and a
    record that has been sent is no longer in the heap.  (Only the contents
    of the heap matter here, not its order.) *)
Theorem every_record_is_queued_or_delivered_once q :
  reachable q ->
  heap q ++ (delivered q).*2 ≡ₚ seq 0 (length (retrievals q))
  /\ NoDup (delivered q).*2
  /\ (forall a : nat, a ∈ (delivered q).*2 -> a ∉ heap q)
  /\ (forall a : nat,
        (a < length (retrievals q))%nat ->
        a ∈ heap q \/ a ∈ (delivered q).*2).
Proof.
  intros Hr.
  assert (Hacc : accounted q).
  { revert q Hr. apply reachable_invariant.
    - intros n. unfold accounted. simpl. reflexivity.
    - intros a0 q0 q'. apply step_accounted. }
  unfold accounted in Hacc.
  assert (Hnd : NoDup (heap q ++ (delivered q).*2)).
  { rewrite Hacc. apply NoDup_seq. }
  apply NoDup_app in Hnd as (_ & Hdisj & Hnd).
  split; [done|]. split; [done|]. split.
  - intros a Ha Hh. by apply (Hdisj a).
  - intros a Ha. apply elem_of_app. rewrite Hacc. apply elem_of_seq. lia.
Qed.

Lemma ex_drained_reachable : reachable ex_drained.
Proof. apply run_from_new_reachable. vm_compute. eauto. Qed.

Lemma every_record_is_queued_or_delivered_once_witness :
  reachable ex_three
  /\ heap ex_three ++ (delivered ex_three).*2
     ≡ₚ seq 0 (length (retrievals ex_three))
  /\ NoDup (delivered ex_three).*2
  /\ (forall a : nat, a ∈ (delivered ex_three).*2 -> a ∉ heap ex_three)
  /\ (forall a : nat,
        (a < length (retrievals ex_three))%nat ->
        a ∈ heap ex_three \/ a ∈ (delivered ex_three).*2).
Proof.
  split; [exact ex_three_reachable|].
  apply (every_record_is_queued_or_delivered_once ex_three ex_three_reachable).
Defined.

(** ** The workers' channels *)

Lemma Request_nextChan q c prio ptr blk :
  nextChan (Request q c prio ptr blk).2 = S (nextChan q).
Proof. unfold Request. repeat case_match; done. Qed.

Lemma perm_snoc_mid {A} (l1 l2 l3 : list A) x :
  l1 ++ (l2 ++ [x]) ++ l3 ≡ₚ x :: l1 ++ l2 ++ l3.
Proof.
  rewrite <- !app_assoc. simpl. rewrite !app_assoc.
  symmetry. apply Permutation_middle.
Qed.

Lemma step_worker_chans a0 q q' :
  wf q -> step a0 q = Some q' ->
  (worker_chans q' ≡ₚ worker_chans q /\ (nextChan q <= nextChan q')%nat)
  \/ (worker_chans q' ≡ₚ nextChan q :: worker_chans q
      /\ nextChan q' = S (nextChan q)).
Proof.
  unfold worker_chans. intros Hwf Hstep.
  destruct a0 as [c prio ptr blk| | |k|ptr]; simpl in Hstep.
  - injection Hstep as <-. left.
    destruct (Request_effect q c prio ptr blk Hwf)
      as (_ & _ & _ & _ & _ & Hw & _ & Hc & Hd).
    rewrite Hw, Hc, Hd, Request_nextChan. split; [done|lia].
  - right. unfold WorkOnRequest in Hstep.
    destruct (decide _); simpl in Hstep.
    + injection Hstep as <-. simpl. split; [|done].
      rewrite <- app_assoc. simpl. symmetry. apply Permutation_middle.
    + destruct (numWorkers q), (notifiers q); simpl in Hstep; try discriminate.
      injection Hstep as <-. simpl. split; [|done].
      apply perm_snoc_mid.
  - left. unfold notifyWorker_receive in Hstep.
    destruct (notifiers q), (workerQueue q) as [|ch wq]; try discriminate.
    injection Hstep as <-. simpl. split; [|lia].
    apply perm_snoc_mid.
  - left.
    destruct (notifyWorker_pop_effect q k q' Hwf Hstep)
      as (ch & a & Hk & _ & Hd & _ & Hc & Hw & Hn & _).
    rewrite Hd, Hc, Hw, Hn, fmap_app. simpl. split; [|lia].
    apply Permutation_app_head.
    rewrite (delete_Permutation (claimed q) k ch Hk) at 2.
    rewrite app_assoc. symmetry. apply Permutation_cons_append.
  - injection Hstep as <-. left. simpl. split; [done|lia].
Qed.

(** X20.  The channels [WorkOnRequest] creates are pairwise
    different wherever they are - waiting in [workerQueue], held by a
    dispatcher goroutine, or already sent to - so each of them receives at
    most one record, which its buffer of size one takes without blocking. *)
Theorem worker_channels_are_used_once q :
  reachable q ->
  NoDup (workerQueue q ++ claimed q ++ (delivered q).*1)
  /\ forall ch : nat,
       ch ∈ workerQueue q ++ claimed q ++ (delivered q).*1 ->
       (ch < nextChan q)%nat.
Proof.
  revert q.
  apply (reachable_invariant
           (fun q => NoDup (worker_chans q)
                     /\ forall ch : nat, ch ∈ worker_chans q ->
                                         (ch < nextChan q)%nat)).
  - intros n. split; [apply NoDup_nil_2|]. intros ch Hch. inversion Hch.
  - intros a0 q q' Hwf [Hnd Hlt] Hstep.
    destruct (step_worker_chans a0 q q' Hwf Hstep) as [[Hp Hn]|[Hp Hn]].
    + split; [by rewrite Hp|]. intros ch. rewrite Hp. intros Hch.
      specialize (Hlt ch Hch). lia.
    + split.
      * rewrite Hp. apply NoDup_cons. split; [|done].
        intros Hin. specialize (Hlt _ Hin). lia.
      * intros ch. rewrite Hp, Hn. intros [->|Hch]%elem_of_cons; [lia|].
        specialize (Hlt ch Hch). lia.
Qed.

Lemma worker_channels_are_used_once_witness :
  reachable ex_drained
  /\ NoDup (workerQueue ex_drained ++ claimed ex_drained
            ++ (delivered ex_drained).*1)
  /\ forall ch : nat,
       ch ∈ workerQueue ex_drained ++ claimed ex_drained
            ++ (delivered ex_drained).*1 ->
       (ch < nextChan ex_drained)%nat.
Proof.
  split; [exact ex_drained_reachable|].
  apply (worker_channels_are_used_once ex_drained ex_drained_reachable).
Defined.

(** ** Dispatcher goroutines *)

Lemma step_workerQueue_bound a0 q q' :
  (length (workerQueue q) <= numWorkers q)%nat -> step a0 q = Some q' ->
  (length (workerQueue q') <= numWorkers q')%nat.
Proof.
  intros Hb Hstep.
  destruct a0 as [c prio ptr blk| | |k|ptr]; simpl in Hstep.
  - injection Hstep as <-. unfold Request. repeat case_match; done.
  - unfold WorkOnRequest in Hstep.
    destruct (decide _); simpl in Hstep.
    + injection Hstep as <-. simpl. rewrite length_app. simpl. lia.
    + destruct (numWorkers q), (notifiers q); simpl in Hstep; try discriminate.
      by injection Hstep as <-.
  - unfold notifyWorker_receive in Hstep.
    destruct (notifiers q), (workerQueue q) as [|ch wq]; try discriminate.
    injection Hstep as <-. simpl in *. lia.
  - unfold notifyWorker_pop in Hstep.
    destruct (claimed q !! k); [|discriminate].
    destruct (heap_Pop _ _) as [[[a rs] h]|]; [|discriminate].
    by injection Hstep as <-.
  - by injection Hstep as <-.
Qed.

(** X21.  In every reachable state the number of queued records
    equals the number of [notifyWorker] goroutines that have not popped yet,
    every record ever created has exactly one such goroutine (waiting for a
    worker, holding a worker's channel, or finished), and [workerQueue]
    never holds more channels than its capacity. *)
Theorem every_record_has_one_dispatcher q :
  reachable q ->
  length (heap q) = (notifiers q + length (claimed q))%nat
  /\ length (retrievals q)
     = (notifiers q + length (claimed q) + length (delivered q))%nat
  /\ (length (workerQueue q) <= numWorkers q)%nat.
Proof.
  intros Hr.
  pose proof (reachable_balanced q Hr) as Hb. unfold balanced in Hb.
  assert (Hacc : accounted q).
  { revert q Hr Hb. intros q Hr _. revert q Hr. apply reachable_invariant.
    - intros n. unfold accounted. simpl. reflexivity.
    - intros a0 q0 q'. apply step_accounted. }
  unfold accounted in Hacc.
  apply Permutation_length in Hacc.
  rewrite length_app, length_fmap, length_seq in Hacc.
  split; [done|]. split; [lia|].
  revert q Hr Hb Hacc. intros q Hr _ _. revert q Hr.
  apply reachable_invariant.
  - intros n. simpl. lia.
  - intros a0 q0 q' _. apply step_workerQueue_bound.
Qed.

Lemma every_record_has_one_dispatcher_witness :
  reachable ex_three
  /\ length (heap ex_three)
     = (notifiers ex_three + length (claimed ex_three))%nat
  /\ length (retrievals ex_three)
     = (notifiers ex_three + length (claimed ex_three)
        + length (delivered ex_three))%nat
  /\ (length (workerQueue ex_three) <= numWorkers ex_three)%nat.
Proof.
  split; [exact ex_three_reachable|].
  apply (every_record_has_one_dispatcher ex_three ex_three_reachable).
Defined.

(** ** [FinalizeRequest] before the dispatch *)

(** X22.  [FinalizeRequest] only deletes the map entry.  When it is
    called for a pointer whose record is still in the heap, the record stays
    queued, and the next [Request] for the pointer creates and queues a
    second record for the same pointer: both are in the heap, both carry the
    pointer, and the map knows the new one. *)
Theorem FinalizeRequest_leaves_the_record_queued q ptr (a : nat) c prio blk :
  reachable q ->
  ptrs q !! ptr = Some a ->
  a ∈ heap q ->
  let q2 := (Request (FinalizeRequest q ptr) c prio ptr blk).2 in
  heap (FinalizeRequest q ptr) = heap q
  /\ a ∈ heap q2
  /\ length (retrievals q) ∈ heap q2
  /\ a <> length (retrievals q)
  /\ blockPtr <$> retrievals q2 !! a = Some ptr
  /\ blockPtr <$> retrievals q2 !! length (retrievals q) = Some ptr
  /\ ptrs q2 !! ptr = Some (length (retrievals q)).
Proof.
  intros Hr Hp Ha q2.
  pose proof (reachable_wf q Hr) as Hwf.
  pose proof (FinalizeRequest_wf q ptr Hwf) as Hwf'.
  assert (Hnone : ptrs (FinalizeRequest q ptr) !! ptr = None)
    by (simpl; apply lookup_delete_eq).
  destruct (Request_new_spec (FinalizeRequest q ptr) c prio ptr blk
              (wf_heap_wf _ Hwf') Hnone)
    as (_ & Hptrs & _ & Hnew & Hoth & Hperm & _).
  fold q2 in Hptrs, Hnew, Hoth, Hperm. simpl in *.
  destruct Hwf as [_ Hreg]. pose proof (Hreg ptr a Hp) as Hbp.
  assert (Hlt : (a < length (retrievals q))%nat).
  { apply lookup_lt_is_Some. destruct (retrievals q !! a); [eauto|done]. }
  split; [done|]. split; [|split; [|split; [lia|split; [|split]]]].
  - rewrite Hperm. by apply elem_of_cons; right.
  - rewrite Hperm. by apply elem_of_cons; left.
  - rewrite (core_blockPtr _ _ (Hoth a ltac:(lia))). done.
  - apply (f_equal (fmap (fun x => x.1.1.1))) in Hnew.
    destruct (retrievals q2 !! length (retrievals q)); [|discriminate].
    simpl in *. unfold core in Hnew. simpl in Hnew. congruence.
  - rewrite Hptrs. apply lookup_insert_eq.
Qed.

Lemma FinalizeRequest_leaves_the_record_queued_witness :
  reachable ex_queued
  /\ ptrs ex_queued !! 7%nat = Some 0%nat
  /\ 0%nat ∈ heap ex_queued
  /\ heap (FinalizeRequest ex_queued 7) = heap ex_queued
  /\ 0%nat ∈ heap (Request (FinalizeRequest ex_queued 7) 1 1 7 1).2
  /\ length (retrievals ex_queued)
     ∈ heap (Request (FinalizeRequest ex_queued 7) 1 1 7 1).2
  /\ 0%nat <> length (retrievals ex_queued)
  /\ blockPtr <$> retrievals (Request (FinalizeRequest ex_queued 7) 1 1 7 1).2
                  !! 0%nat = Some 7%nat
  /\ blockPtr <$> retrievals (Request (FinalizeRequest ex_queued 7) 1 1 7 1).2
                  !! length (retrievals ex_queued) = Some 7%nat
  /\ ptrs (Request (FinalizeRequest ex_queued 7) 1 1 7 1).2 !! 7%nat
     = Some (length (retrievals ex_queued)).
Proof.
  assert (Hin : 0%nat ∈ heap ex_queued) by (vm_compute; apply list_elem_of_here).
  split; [exact ex_queued_reachable|].
  split; [reflexivity|]. split; [exact Hin|].
  apply (FinalizeRequest_leaves_the_record_queued ex_queued 7 0 1 1 1
           ex_queued_reachable eq_refl Hin).
Defined.

End RetrievalQueueBehaviour.

(* ===================================================================== *)
(** * Further properties of the log registration service *)
(* ===================================================================== *)

Module LogRegisterBehaviour.
Import LogRegister LogRegisterSpec.

Lemma registered_stays r a calls :
  queue r = Some a ->
  queue (foldl do_log_call r calls) = Some a
  /\ queues (foldl do_log_call r calls) = queues r
  /\ debug (foldl do_log_call r calls)
     = debug r ++ replicate (unregistrations calls) (UnregisteredLogger a).
Proof.
  revert r. induction calls as [|[arg ui|] calls IH]; intros r Hq; simpl.
  - by rewrite app_nil_r.
  - unfold RegisterLogger. rewrite Hq. simpl. by apply IH.
  - unfold UnregisterLogger. rewrite Hq.
    destruct (IH (MkLogRegister (logFwd_Remove (forwarder r) a) (Some a)
                    (debug r ++ [UnregisteredLogger a]) (queues r)) eq_refl)
      as (H1 & H2 & H3).
    rewrite H1, H2, H3. simpl. by rewrite <- app_assoc.
Qed.

(** X23.  In any sequence of [RegisterLogger] and
    [UnregisterLogger] calls on a register without a queue, only the first
    [RegisterLogger] takes effect: if there is none the register is
    unchanged; otherwise the register holds the queue built from the
    arguments of that first call, whatever came later, and the log has one
    debug line for every [UnregisterLogger] call after it - the first such
    call and every repetition. *)
Theorem only_the_first_registration_takes_effect r calls :
  queue r = None ->
  match first_registration calls with
  | None => foldl do_log_call r calls = r
  | Some (arg, ui) =>
    queue (foldl do_log_call r calls) = Some (length (queues r))
    /\ queues (foldl do_log_call r calls)
       = queues r ++ [LogQueue (Name arg) (Level arg) ui]
    /\ debug (foldl do_log_call r calls)
       = debug r
         ++ replicate (unregistrations_after_registration calls)
              (UnregisteredLogger (length (queues r)))
  end.
Proof.
  intros Hq. induction calls as [|[arg ui|] calls IH]; simpl.
  - done.
  - unfold RegisterLogger. rewrite Hq. simpl.
    destruct (registered_stays
                (MkLogRegister (logFwd_Add (forwarder r) (length (queues r)))
                   (Some (length (queues r))) (debug r)
                   (queues r ++ [newLogQueue (Name arg) (Level arg) ui]))
                (length (queues r)) calls eq_refl) as (H1 & H2 & H3).
    by rewrite H1, H2, H3.
  - unfold UnregisterLogger. rewrite Hq. apply IH.
Qed.

Lemma only_the_first_registration_takes_effect_witness :
  queue (newLogRegister [5%nat]) = None
  /\ queue (foldl do_log_call (newLogRegister [5%nat])
              [LUnregister; LRegister ex_arg 1; LUnregister;
               LRegister (MkRegisterLoggerArg "gui" 1) 2; LUnregister])
     = Some 0%nat
  /\ queues (foldl do_log_call (newLogRegister [5%nat])
               [LUnregister; LRegister ex_arg 1; LUnregister;
                LRegister (MkRegisterLoggerArg "gui" 1) 2; LUnregister])
     = [] ++ [LogQueue "cli" 3 1]
  /\ debug (foldl do_log_call (newLogRegister [5%nat])
              [LUnregister; LRegister ex_arg 1; LUnregister;
               LRegister (MkRegisterLoggerArg "gui" 1) 2; LUnregister])
     = [] ++ replicate 2 (UnregisteredLogger 0).
Proof.
  split; [reflexivity|].
  apply (only_the_first_registration_takes_effect (newLogRegister [5%nat])
           [LUnregister; LRegister ex_arg 1; LUnregister;
            LRegister (MkRegisterLoggerArg "gui" 1) 2; LUnregister]).
  reflexivity.
Defined.

End LogRegisterBehaviour.
